(** * Square game: rule checkers, naive completion and the negation solver

    A shallow embedding of [src/app.ts].  Boards are JavaScript arrays of
    arrays of colors; the embedding keeps what JavaScript does at the edges
    of an array (a read out of range is [undefined], a write past the end
    extends the array and leaves holes, a property access on [undefined]
    throws a [TypeError]). *)

From Stdlib Require Import Ascii.
From stdpp Require Import base numbers option list sorting strings pretty gmap.

(** ** Colors, values and arrays *)

Inductive Color := Red | Blue | Grey.

#[global] Instance Color_eq_dec : EqDecision Color.
Proof. solve_decision. Defined.

(** What an array read can produce: a color, or [undefined]. *)
Inductive Value := Col (c : Color) | Undefined.

#[global] Instance Value_eq_dec : EqDecision Value.
Proof. solve_decision. Defined.

(** An array is a list of slots; the slot [None] is a hole (an index below
    [length] that was never written). *)
Abbreviation Slot := (option Value).
Abbreviation Row := (list (option Value)).
Abbreviation Board := (list (list (option Value))).

(** The value a slot reads as: a hole reads as [undefined]. *)
Definition slot_value (s : Slot) : Value := default Undefined s.

(** [row[i]] *)
Definition js_get (row : Row) (i : nat) : Value :=
  match row !! i with
  | Some s => slot_value s
  | None => Undefined
  end.

(** The numbers that index an array: the integers from [0] to [2^32 - 2].
    A larger number used as [row[i]] names an ordinary property, and a write
    to it leaves the elements and the length of the array alone. *)
Definition array_index (i : nat) : Prop := (N.of_nat i < 4294967295)%N.

#[global] Instance array_index_dec i : Decision (array_index i).
Proof. unfold array_index. apply _. Defined.

(** [row[i] = v] for an array index [i]: in range the slot is replaced, at
    or past the end the array grows to length [i + 1], the slots in between
    being holes.  The program writes below [length] everywhere but in
    [playMove], whose column is whatever the caller gave; what is stated about
    a write past the end carries [array_index]. *)
Definition js_set (row : Row) (i : nat) (v : Value) : Row :=
  if decide (i < length row) then <[i := Some v]> row
  else row ++ replicate (i - length row) None ++ [Some v].

(** The values [row.entries()] and [[...row]] go through: every index below
    [length], holes read as [undefined]. *)
Definition entries (row : Row) : list Value := slot_value <$> row.

(** [[...row]]: a fresh dense array. *)
Definition spread (row : Row) : Row := Some <$> entries row.

(** [row.map(f)]: holes are skipped and stay holes. *)
Definition js_map (f : Value → Value) (row : Row) : Row :=
  (λ s : Slot, f <$> s) <$> row.

(** A well-typed row of the program's [Color[]] type. *)
Definition of_row (cs : list Color) : Row := (λ c, Some (Col c)) <$> cs.
Definition of_board (g : list (list Color)) : Board := of_row <$> g.

(** ** Exceptions *)

Inductive Exc (A : Type) := Ok (a : A) | TypeError.
Arguments Ok {A} a.
Arguments TypeError {A}.

#[global] Instance Exc_ret : MRet Exc := λ A a, Ok a.
#[global] Instance Exc_bind : MBind Exc := λ A B f m,
  match m with Ok a => f a | TypeError => TypeError end.

(** ** Loops with early return

    [for (const [index, x] of xs.entries()) { ... return r ... }]: the body
    either returns ([Some r]) or falls through to the next index. *)
Fixpoint for_entries {A R} (body : nat → A → option R) (index : nat) (xs : list A)
    : option R :=
  match xs with
  | [] => None
  | x :: rest =>
      match body index x with
      | Some r => Some r
      | None => for_entries body (S index) rest
      end
  end.

(** The same loop when the body can throw. *)
Fixpoint for_entries_exc {A R} (body : nat → A → Exc (option R)) (index : nat)
    (xs : list A) : Exc (option R) :=
  match xs with
  | [] => Ok None
  | x :: rest =>
      match body index x with
      | Ok (Some r) => Ok (Some r)
      | Ok None => for_entries_exc body (S index) rest
      | TypeError => TypeError
      end
  end.

(** ** Grid model *)

Definition rows (board : Board) : list Row := board.

(** [new Array(board.length).fill(null).map((_, column) => board.map(row => row[column]))] *)
Definition columns (board : Board) : list Row :=
  (λ column, (λ row, Some (js_get row column)) <$> board) <$> seq 0 (length board).

(** ** Violations *)

Inductive LineKind := OfRows | OfColumns.

#[global] Instance LineKind_eq_dec : EqDecision LineKind.
Proof. solve_decision. Defined.

(** [ThriceRepetition OfRows i (a, b, c) col] is
    [{row: i, columns: [a, b, c], color: col}], and with [OfColumns] it is
    [{column: i, rows: [a, b, c], color: col}]; likewise for the others. *)
Inductive Violation :=
  | ThriceRepetition (kind : LineKind) (line : nat) (cells : nat * nat * nat)
      (color : Value)
  | OverSaturation (kind : LineKind) (line : nat) (positionVector : list nat)
      (color : Color)
  | LineRepetition (kind : LineKind) (lines : nat * nat).

#[global] Instance Violation_eq_dec : EqDecision Violation.
Proof. solve_decision. Defined.

(** ** Triple repetition *)

(** The body of the loop over [row.entries()]. *)
Definition thriceAt (row : Row) (index : nat) (c3 : Value)
    : option (nat * nat * nat * Value) :=
  if decide (index < 2) then None
  else
    let c2 := js_get row (index - 1) in
    let c1 := js_get row (index - 2) in
    if bool_decide (c1 ≠ Col Grey) && bool_decide (c1 = c2) && bool_decide (c1 = c3)
    then Some ((index - 2, index - 1, index), c1)
    else None.

Definition findThriceRepetitionRow (row : Row) : option (nat * nat * nat * Value) :=
  for_entries (thriceAt row) 0 (entries row).

Definition findThriceRepetitionLines (kind : LineKind) (lines : list Row)
    : option Violation :=
  for_entries (λ index line,
    match findThriceRepetitionRow line with
    | Some (cells, color) => Some (ThriceRepetition kind index cells color)
    | None => None
    end) 0 lines.

Definition findThriceRepetition (board : Board) : option Violation :=
  match findThriceRepetitionLines OfRows (rows board) with
  | Some v => Some v
  | None => findThriceRepetitionLines OfColumns (columns board)
  end.

(** ** Position vectors *)

Record Positions := { pvRed : list nat; pvBlue : list nat; pvGrey : list nat }.

Definition push (color : Color) (index : nat) (positions : Positions) : Positions :=
  match color with
  | Red => {| pvRed := pvRed positions ++ [index]; pvBlue := pvBlue positions;
              pvGrey := pvGrey positions |}
  | Blue => {| pvRed := pvRed positions; pvBlue := pvBlue positions ++ [index];
               pvGrey := pvGrey positions |}
  | Grey => {| pvRed := pvRed positions; pvBlue := pvBlue positions;
               pvGrey := pvGrey positions ++ [index] |}
  end.

(** [row.reduce((positions, color, index) => ..., {...})]: [reduce] skips
    holes; [positions[undefined].push] throws. *)
Fixpoint positionVectors_from (index : nat) (row : Row) (positions : Positions)
    : Exc Positions :=
  match row with
  | [] => Ok positions
  | None :: rest => positionVectors_from (S index) rest positions
  | Some Undefined :: _ => TypeError
  | Some (Col color) :: rest =>
      positionVectors_from (S index) rest (push color index positions)
  end.

Definition positionVectors (row : Row) : Exc Positions :=
  positionVectors_from 0 row {| pvRed := []; pvBlue := []; pvGrey := [] |}.

(** ** Over-saturation *)

Definition findOverSaturationRow (row : Row) : Exc (option (list nat * Color)) :=
  vectors ← positionVectors row;
  if decide (length row < 2 * length (pvRed vectors)) then
    Ok (Some (pvRed vectors, Red))
  else if decide (length row < 2 * length (pvBlue vectors)) then
    Ok (Some (pvBlue vectors, Blue))
  else Ok None.

Definition findOverSaturationLines (kind : LineKind) (lines : list Row)
    : Exc (option Violation) :=
  for_entries_exc (λ index line,
    violation ← findOverSaturationRow line;
    match violation with
    | Some (positionVector, color) =>
        Ok (Some (OverSaturation kind index positionVector color))
    | None => Ok None
    end) 0 lines.

Definition findOverSaturation (board : Board) : Exc (option Violation) :=
  violation ← findOverSaturationLines OfRows (rows board);
  match violation with
  | Some v => Ok (Some v)
  | None => findOverSaturationLines OfColumns (columns board)
  end.

(** ** Line repetition *)

(** [`Red::${vector.join(":")}`] *)
Definition key_of (name : string) (vector : list nat) : string :=
  name +:+ "::" +:+ String.concat ":" (pretty <$> vector).

(** [if (matchingRowIndex)]: [undefined] and the index [0] are both falsy. *)
Definition truthy (matchingRowIndex : option nat) : option nat :=
  match matchingRowIndex with
  | Some (S n) => Some (S n)
  | _ => None
  end.

Fixpoint findRepeatedRows_from (keyToRowIndex : gmap string nat) (index : nat)
    (rows : list Row) : Exc (option (nat * nat)) :=
  match rows with
  | [] => Ok None
  | row :: rest =>
      vectors ← positionVectors row;
      let blue keyToRowIndex :=
        if decide (length row ≤ 2 * length (pvBlue vectors)) then
          let key := key_of "Blue" (pvBlue vectors) in
          match truthy (keyToRowIndex !! key) with
          | Some matchingRowIndex => Ok (Some (matchingRowIndex, index))
          | None => findRepeatedRows_from (<[key := index]> keyToRowIndex) (S index) rest
          end
        else findRepeatedRows_from keyToRowIndex (S index) rest in
      if decide (length row ≤ 2 * length (pvRed vectors)) then
        let key := key_of "Red" (pvRed vectors) in
        match truthy (keyToRowIndex !! key) with
        | Some matchingRowIndex => Ok (Some (matchingRowIndex, index))
        | None => blue (<[key := index]> keyToRowIndex)
        end
      else blue keyToRowIndex
  end.

Definition findRepeatedRows (rows : list Row) : Exc (option (nat * nat)) :=
  findRepeatedRows_from ∅ 0 rows.

Definition findLineRepetition (board : Board) : Exc (option Violation) :=
  rowViolation ← findRepeatedRows (rows board);
  match rowViolation with
  | Some lines => Ok (Some (LineRepetition OfRows lines))
  | None =>
      columnViolation ← findRepeatedRows (columns board);
      match columnViolation with
      | Some lines => Ok (Some (LineRepetition OfColumns lines))
      | None => Ok None
      end
  end.

(** ** Validator: [a ?? b ?? c] *)

Definition validateBoard (board : Board) : Exc (option Violation) :=
  match findThriceRepetition board with
  | Some v => Ok (Some v)
  | None =>
      violation ← findOverSaturation board;
      match violation with
      | Some v => Ok (Some v)
      | None => findLineRepetition board
      end
  end.

(** ** Game play

    [row] and [column] are array indices; the program builds moves from the
    indices [entries()] yields. *)

Record Move := { color : Color; row : nat; column : nat }.

#[global] Instance Move_eq_dec : EqDecision Move.
Proof. solve_decision. Defined.

Definition cloneBoard (board : Board) : Board := spread <$> board.

(** [newBoard[row][column] = color] on the clone: [newBoard[row]] is
    [undefined] when [row] is out of range and the write throws. *)
Definition writeCell (newBoard : Board) (move : Move) : Exc Board :=
  match newBoard !! row move with
  | None => TypeError
  | Some r => Ok (<[row move := js_set r (column move) (Col (color move))]> newBoard)
  end.

(** [playMove] on grids as values; the version on the store, with the
    arrays as shared objects, is [playMove_h] below, and returns the same. *)
Definition playMove (board : Board) (move : Move) : Exc (Board * option Violation) :=
  newBoard ← writeCell (cloneBoard board) move;
  violation ← validateBoard newBoard;
  Ok (newBoard, violation).

(** ** Naive completion *)

Record Counts := { cRed : nat; cBlue : nat; cGrey : nat }.

(** [totals[color] += 1]; with [color] [undefined] the sum goes to a property
    of its own, which nothing reads; [reduce] skips holes. *)
Definition countColors (row : Row) : Counts :=
  foldl (λ totals slot,
    match slot with
    | Some (Col Red) => {| cRed := cRed totals + 1; cBlue := cBlue totals;
                           cGrey := cGrey totals |}
    | Some (Col Blue) => {| cRed := cRed totals; cBlue := cBlue totals + 1;
                            cGrey := cGrey totals |}
    | Some (Col Grey) => {| cRed := cRed totals; cBlue := cBlue totals;
                            cGrey := cGrey totals + 1 |}
    | Some Undefined | None => totals
    end) {| cRed := 0; cBlue := 0; cGrey := 0 |} row.

Definition fillGrey (other : Color) (c : Value) : Value :=
  if decide (c = Col Grey) then Col other else c.

Definition naiveAutocompleteRow (row : Row) : Row :=
  let counts := countColors row in
  if decide (length row ≤ 2 * cRed counts) then js_map (fillGrey Blue) row
  else if decide (length row ≤ 2 * cBlue counts) then js_map (fillGrey Red) row
  else spread row.

(** The first loop walks the live array by index and replaces the row it is
    at; the second walks the columns of the board as it is after the first
    loop, and writes each completed column back cell by cell.  The rows
    written to are the arrays the first loop made, which nothing else refers
    to, so the function is given on values. *)
Definition naiveAutocompleteBoard (board : Board) : Board :=
  let newBoard := cloneBoard board in
  let newBoard :=
    foldl (λ newBoard rowIndex,
      match newBoard !! rowIndex with
      | Some r => <[rowIndex := naiveAutocompleteRow r]> newBoard
      | None => newBoard
      end) newBoard (seq 0 (length newBoard)) in
  foldl (λ newBoard '(columnIndex, col),
    let newColumn := naiveAutocompleteRow col in
    imap (λ rowIndex r, js_set r columnIndex (js_get newColumn rowIndex)) newBoard)
    newBoard (imap pair (columns newBoard)).

(** ** Negation-based move finder *)

Definition ForcedMove : Type := Move * Violation.

(** The body of the inner loop for an empty cell. *)
Definition probeCell (board : Board) (rowIndex columnIndex : nat)
    : Exc (option ForcedMove) :=
  let redMove := {| color := Red; row := rowIndex; column := columnIndex |} in
  let blueMove := {| color := Blue; row := rowIndex; column := columnIndex |} in
  '(redBoard, _) ← playMove board redMove;
  redViolation ← validateBoard (naiveAutocompleteBoard redBoard);
  match redViolation with
  | Some v => Ok (Some (blueMove, v))
  | None =>
      '(blueBoard, _) ← playMove board blueMove;
      blueViolation ← validateBoard (naiveAutocompleteBoard blueBoard);
      match blueViolation with
      | Some v => Ok (Some (redMove, v))
      | None => Ok None
      end
  end.

(** The inner loop, over the cells of one row. *)
Definition findMoveInRow (board : Board) (rowIndex : nat) (r : Row)
    : Exc (option ForcedMove) :=
  for_entries_exc (λ columnIndex c,
    if decide (c ≠ Col Grey) then Ok None
    else probeCell board rowIndex columnIndex) 0 (entries r).

Definition findMoveByNegation (board : Board) : Exc (option ForcedMove) :=
  for_entries_exc (findMoveInRow board) 0 (rows board).

(** ** Iterative solver

    The [for] loop as a transition system: a state holds the loop's
    variables, a step runs the loop test and one body. *)

Record SolveState := {
  currentBoard : Board;
  moves : list ForcedMove;
  nextMove : option ForcedMove;
  moveCount : nat }.

Record SolveResult := {
  board : Board;
  resultMoves : list ForcedMove;
  unexpectedViolation : option Violation }.

Inductive SolveStep := Continue (st : SolveState) | Return (result : SolveResult).

(** [bound] is [board.length ** 2]. *)
Definition solveStep (bound : nat) (st : SolveState) : Exc SolveStep :=
  match nextMove st with
  | Some next =>
      if decide (moveCount st < bound) then
        let moves := moves st ++ [next] in
        '(newBoard, violation) ← playMove (currentBoard st) (fst next);
        match violation with
        | Some v =>
            Ok (Return {| board := newBoard; resultMoves := moves;
                          unexpectedViolation := Some v |})
        | None =>
            nextMove ← findMoveByNegation newBoard;
            Ok (Continue {| currentBoard := newBoard; moves := moves;
                            nextMove := nextMove; moveCount := S (moveCount st) |})
        end
      else
        Ok (Return {| board := currentBoard st; resultMoves := moves st;
                      unexpectedViolation := None |})
  | None =>
      Ok (Return {| board := currentBoard st; resultMoves := moves st;
                    unexpectedViolation := None |})
  end.

(** Running the loop with a budget of steps: [None] when the budget runs
    out before the loop is left. *)
Fixpoint solveLoop (fuel : nat) (bound : nat) (st : SolveState)
    : option (Exc SolveResult) :=
  match fuel with
  | 0 => None
  | S fuel =>
      match solveStep bound st with
      | TypeError => Some TypeError
      | Ok (Return result) => Some (Ok result)
      | Ok (Continue st') => solveLoop fuel bound st'
      end
  end.

Definition solveInit (board : Board) : Exc SolveState :=
  let currentBoard := cloneBoard board in
  nextMove ← findMoveByNegation currentBoard;
  Ok {| currentBoard := currentBoard; moves := []; nextMove := nextMove;
        moveCount := 0 |}.

Definition trySolveByNegation (fuel : nat) (board : Board)
    : option (Exc SolveResult) :=
  match solveInit board with
  | TypeError => Some TypeError
  | Ok st => solveLoop fuel (length board ^ 2) st
  end.

(** ** Comparing two rows *)

(** [row.reduce((acc, c, index) => ..., init)]: the callback runs on every
    index that is not a hole, in ascending order. *)
Fixpoint js_reduce_from {A} (f : A → Value → nat → A) (index : nat) (row : Row)
    (acc : A) : A :=
  match row with
  | [] => acc
  | None :: rest => js_reduce_from f (S index) rest acc
  | Some c :: rest => js_reduce_from f (S index) rest (f acc c index)
  end.

Definition rowsCanEqual (r1 r2 : Row) : bool :=
  js_reduce_from (λ (equal : bool) c1 i,
    if negb equal then false
    else
      let c2 := js_get r2 i in
      if bool_decide (c1 = Col Grey) || bool_decide (c2 = Col Grey) then true
      else bool_decide (c1 = c2)) 0 r1 true.

(** [matchCount] for the color [c]. *)
Definition matchCount (c : Color) (r1 r2 : Row) : nat :=
  js_reduce_from (λ (total : nat) c1 i,
    total + (if bool_decide (Col c = c1) && bool_decide (Col c = js_get r2 i)
             then 1 else 0)) 0 r1 0.

(** The loop over [[Red, Blue]]. *)
Definition rowsMustEqual (r1 r2 : Row) : bool :=
  if decide (length r1 ≤ 2 * matchCount Red r1 r2) then false
  else if decide (length r1 ≤ 2 * matchCount Blue r1 r2) then false
  else true.

(** ** Playing a sequence of moves *)




(** ** Boards in the store

    [playMove] clones its argument and writes into the clone.  Whether the
    argument is left alone depends on which arrays the clone shares with it,
    so here arrays are objects in a store and a board is a reference to an
    array of references to rows.  A computation threads the store and may
    throw; a throw keeps the store as it is at that point.  A reference that
    does not denote an array of the expected kind cannot come out of the
    typed program; the model lets such a read throw. *)

Inductive Obj := ORow (r : Row) | OBoard (rs : list nat).

Abbreviation Heap := (list Obj).

Definition getRow (h : Heap) (l : nat) : option Row :=
  match h !! l with
  | Some (ORow r) => Some r
  | _ => None
  end.

Definition getBoard (h : Heap) (l : nat) : option (list nat) :=
  match h !! l with
  | Some (OBoard rs) => Some rs
  | _ => None
  end.

(** The grid a board reference denotes in a store. *)
Definition deref (h : Heap) (board : nat) : option Board :=
  rs ← getBoard h board; mapM (getRow h) rs.

Definition of_option {A} (o : option A) : Exc A :=
  match o with
  | Some a => Ok a
  | None => TypeError
  end.

Definition HeapM (A : Type) : Type := Heap → Heap * Exc A.

#[global] Instance HeapM_ret : MRet HeapM := λ A a h, (h, Ok a).
#[global] Instance HeapM_bind : MBind HeapM := λ A B f m h,
  match m h with
  | (h', Ok a) => f a h'
  | (h', TypeError) => (h', TypeError)
  end.

Definition throw {A} : HeapM A := λ h, (h, TypeError).
Definition lift {A} (e : Exc A) : HeapM A := λ h, (h, e).
Definition alloc (o : Obj) : HeapM nat := λ h, (h ++ [o], Ok (length h)).
Definition readRow (l : nat) : HeapM Row := λ h, (h, of_option (getRow h l)).
Definition readBoard (l : nat) : HeapM (list nat) := λ h, (h, of_option (getBoard h l)).
Definition writeRow (l : nat) (r : Row) : HeapM unit := λ h, (<[l := ORow r]> h, Ok ()).
Definition snapshot (board : nat) : HeapM Board := λ h, (h, of_option (deref h board)).

(** [rs.map((row) => [...row])], allocating one fresh row per element. *)
Fixpoint cloneRows (rs : list nat) : HeapM (list nat) :=
  match rs with
  | [] => mret []
  | l :: rest =>
      r ← readRow l;
      l' ← alloc (ORow (spread r));
      ls ← cloneRows rest;
      mret (l' :: ls)
  end.

Definition cloneBoard_h (board : nat) : HeapM nat :=
  rs ← readBoard board;
  ls ← cloneRows rs;
  alloc (OBoard ls).

(** [playMove] on the store: [newBoard[row]] is read from the clone and the
    write goes to the row it refers to; validation reads the new board. *)
Definition playMove_h (board : nat) (move : Move) : HeapM (nat * option Violation) :=
  newBoard ← cloneBoard_h board;
  rs ← readBoard newBoard;
  match rs !! row move with
  | None => throw
  | Some l =>
      r ← readRow l;
      writeRow l (js_set r (column move) (Col (color move)));;
      grid ← snapshot newBoard;
      violation ← lift (validateBoard grid);
      mret (newBoard, violation)
  end.

(** ** Vocabulary of the specification *)

(** Grids of the program's [Color[][]] type, and the cell at a coordinate. *)
Definition cell (g : list (list Color)) (r c : nat) : option Color :=
  g !! r ≫= (.!! c).

(** What reading [board[r][c]] gives. *)
Definition read (b : Board) (r c : nat) : Value :=
  match b !! r with
  | Some line => js_get line c
  | None => Undefined
  end.

Definition active (c : Color) : Prop := c = Red ∨ c = Blue.

(** Number of cells of a line holding [c]. *)
Definition count (c : Color) (cs : list Color) : nat :=
  length (filter (λ x, x = c) cs).

(** The indices of a line holding [c], in ascending order. *)
Definition positions_of (c : Color) (cs : list Color) : list nat :=
  filter (λ i, cs !! i = Some c) (seq 0 (length cs)).

(** Every row has as many cells as the grid has rows. *)
Definition square (g : list (list Color)) : Prop :=
  Forall (λ r, length r = length g) g.

(** Every row has at least as many cells as the grid has rows, so that each
    of the [board.length] columns the program reads lies inside the grid. *)
Definition wide (g : list (list Color)) : Prop :=
  Forall (λ r, length g ≤ length r) g.

(** A line of colors as a function of the index, and the columns of a grid
    as lists. *)
Definition line_of (cs : list Color) : nat → option Color := λ i, cs !! i.
Definition column_of (g : list (list Color)) (k : nat) : list Color :=
  omap (.!! k) g.
Definition columns_of (g : list (list Color)) : list (list Color) :=
  column_of g <$> seq 0 (length g).

(** Three consecutive cells of a line, starting at [i], hold the active
    color [c]. *)
Definition triple (line : nat → option Color) (i : nat) (c : Color) : Prop :=
  active c ∧ line i = Some c ∧ line (i + 1) = Some c ∧ line (i + 2) = Some c.

Definition row_line (g : list (list Color)) (r : nat) : nat → option Color :=
  λ i, cell g r i.
Definition column_line (g : list (list Color)) (k : nat) : nat → option Color :=
  λ i, cell g i k.

(** A line with every empty cell given the color [other]. *)
Definition replace_empty (other : Color) (cs : list Color) : list Color :=
  (λ c, if decide (c = Grey) then other else c) <$> cs.

(** The completed line, on colors. *)
Definition completeRow (cs : list Color) : list Color :=
  if decide (length cs ≤ 2 * count Red cs) then replace_empty Blue cs
  else if decide (length cs ≤ 2 * count Blue cs) then replace_empty Red cs
  else cs.

(** The color a value holds, for values known to hold one. *)
Definition color_of (v : Value) : Color :=
  match v with
  | Col c => c
  | Undefined => Grey
  end.

(** Two grids with rows of the same lengths. *)
Definition same_shape (g g' : list (list Color)) : Prop :=
  Forall2 (λ line line', length line = length line') g g'.

(** A grid with the cell at ([r], [c]) given the color [col]. *)
Definition set_cell (g : list (list Color)) (r c : nat) (col : Color)
    : list (list Color) :=
  alter (λ line, <[c := col]> line) r g.

(** The violation, if any, found after playing a move and completing the
    resulting grid naively. *)
Definition violationAfterCompletion (b : Board) (m : Move) : Exc (option Violation) :=
  '(newBoard, _) ← playMove b m;
  validateBoard (naiveAutocompleteBoard newBoard).

(** How naive completion may relate the value read at a coordinate before
    ([v]) and after ([v']): either nothing changed, or an empty cell took an
    active color. *)
Definition fills (v v' : Value) : Prop :=
  v' = v ∨ (v = Col Grey ∧ (v' = Col Red ∨ v' = Col Blue)).

(** Every object of the store [h] is still there, unchanged, in [h']. *)
Definition preserved (h h' : Heap) : Prop :=
  ∀ l o, h !! l = Some o → h' !! l = Some o.

(** The store after [cloneBoard] ran on a board denoting [B]: one fresh row
    per row of [B], then the fresh array of their references. *)
Definition cloned (h : Heap) (B : Board) : Heap :=
  (h ++ ((λ r, ORow (spread r)) <$> B)) ++ [OBoard (seq (length h) (length B))].

(** [forced_chain b ms b']: starting from [b], each move of [ms] in turn
    is what the finder returns on the current grid, and applying it gives
    the next grid without a violation; [b'] is the grid after the last. *)
Inductive forced_chain : Board → list ForcedMove → Board → Prop :=
  | chain_nil b : forced_chain b [] b
  | chain_snoc b ms b1 fm b2 :
      forced_chain b ms b1 →
      findMoveByNegation b1 = Ok (Some fm) →
      playMove b1 fm.1 = Ok (b2, None) →
      forced_chain b (ms ++ [fm]) b2.

(** Row-major order on coordinates. *)
Definition before (p q : nat * nat) : Prop :=
  p.1 < q.1 ∨ (p.1 = q.1 ∧ p.2 < q.2).

(** The board the program is run on: [exampleRaw.map(makeRow)], with
    ["r"] for Red and ["b"] for Blue. *)
Definition example : list (list Color) :=
  let r := Red in
  let b := Blue in
  [ [b; b; r; b; r; b; r; r];
    [r; r; b; b; r; r; b; b];
    [b; b; r; r; b; b; r; r];
    [r; r; b; r; b; r; b; b];
    [r; r; b; b; r; b; r; b];
    [b; b; r; b; r; b; r; r];
    [r; b; r; r; b; r; b; b];
    [b; r; b; r; b; r; b; r] ].

(** A move addresses a cell of the grid. *)
Definition in_bounds (g : list (list Color)) (m : Move) : Prop :=
  is_Some (cell g (row m) (column m)).

(** The indices of an array whose slot holds the color [c], ascending. *)
Definition slot_positions (c : Color) (row : Row) : list nat :=
  filter (λ i, row !! i = Some (Some (Col c))) (seq 0 (length row)).

(** No active color fills more than half of the line. *)
Definition balanced (cs : list Color) : Prop :=
  ∀ C, active C → 2 * count C cs ≤ length cs.

(** The active color [C] fills more than half of the line. *)
Definition saturated (C : Color) (cs : list Color) : Prop :=
  active C ∧ length cs < 2 * count C cs.

(** A string without the separator [":"]. *)
Fixpoint no_colon (s : string) : Prop :=
  match s with
  | EmptyString => True
  | String c s' => c ≠ ":"%char ∧ no_colon s'
  end.

(** The name the program writes into the key of a color. *)
Definition color_name (C : Color) : string :=
  match C with
  | Red => "Red"
  | Blue => "Blue"
  | Grey => "Grey"
  end.

(** The active color [C] fills at least half of the line. *)
Definition qualifies (C : Color) (cs : list Color) : Prop :=
  active C ∧ length cs ≤ 2 * count C cs.

(** The lines at [i] and [j] have some active color on at least half of
    their cells, at the same positions in both. *)
Definition shares (ls : list (list Color)) (i j : nat) : Prop :=
  ∃ C ci cj, ls !! i = Some ci ∧ ls !! j = Some cj ∧
    qualifies C ci ∧ qualifies C cj ∧ positions_of C ci = positions_of C cj.

(** No two lines at positive indices below [b] share such positions. *)
Definition noHit (ls : list (list Color)) (b : nat) : Prop :=
  ∀ i j, 0 < i → i < j → j < b → ¬ shares ls i j.

(** The line at [i] writes the key [k]. *)
Definition haskey (ls : list (list Color)) (i : nat) (k : string) : Prop :=
  ∃ C ci, ls !! i = Some ci ∧ qualifies C ci ∧
    key_of (color_name C) (positions_of C ci) = k.

(** What one pass of the loop of [findRepeatedRows] finds in the map for
    the line [cs], and the map it leaves. *)
Definition hit (m : gmap string nat) (cs : list Color) : option nat :=
  match (if decide (length cs ≤ 2 * count Red cs)
         then truthy (m !! key_of "Red" (positions_of Red cs)) else None) with
  | Some a => Some a
  | None =>
      if decide (length cs ≤ 2 * count Blue cs)
      then truthy (m !! key_of "Blue" (positions_of Blue cs)) else None
  end.

Definition update (m : gmap string nat) (j : nat) (cs : list Color)
    : gmap string nat :=
  let m1 := if decide (length cs ≤ 2 * count Red cs)
            then <[key_of "Red" (positions_of Red cs) := j]> m else m in
  if decide (length cs ≤ 2 * count Blue cs)
  then <[key_of "Blue" (positions_of Blue cs) := j]> m1 else m1.

(** The map holds, for each key written by a line of [pre], the last line
    that wrote it. *)
Definition latest (pre : list (list Color)) (m : gmap string nat) : Prop :=
  (∀ k i, m !! k = Some i → haskey pre i k ∧ ∀ i', i < i' → ¬ haskey pre i' k) ∧
  (∀ k i, haskey pre i k → is_Some (m !! k)).

(** The line [cs] writes the key [k], as a decidable test. *)
Definition writes (cs : list Color) (k : string) : Prop :=
  (length cs ≤ 2 * count Red cs ∧ key_of "Red" (positions_of Red cs) = k) ∨
  (length cs ≤ 2 * count Blue cs ∧ key_of "Blue" (positions_of Blue cs) = k).

#[global] Instance writes_dec cs k : Decision (writes cs k).
Proof. unfold writes. apply _. Defined.

(** A cell [x] of the first line against the value [v] read at the same
    index of the second: one of them is empty, or they hold the same color. *)
Definition compatible (x : Color) (v : Value) : Prop :=
  x = Grey ∨ v = Col Grey ∨ v = Col x.

(** Number of indices at which both lines hold [C]. *)
Definition common (C : Color) (c1 c2 : list Color) : nat :=
  length (filter (λ i, c1 !! i = Some C ∧ c2 !! i = Some C) (seq 0 (length c1))).

(** No line holds three consecutive cells of one active color. *)
Definition no_triple (ls : list (list Color)) : Prop :=
  ∀ k line i C, ls !! k = Some line → ¬ triple (line_of line) i C.

(** No two lines at positive indices share the positions of a color that
    fills half of them. *)
Definition no_repeat (ls : list (list Color)) : Prop :=
  ∀ i j, 0 < i → i < j → ¬ shares ls i j.

(** The grid after the moves [ms] were applied in order. *)
Definition play_all (g : list (list Color)) (ms : list Move) : list (list Color) :=
  foldl (λ g m, set_cell g (row m) (column m) (color m)) g ms.


(** The completed grid, on colors: every row is completed, then every one
    of the first [length g] columns of the result. *)
Definition completeBoard (g : list (list Color)) : list (list Color) :=
  let g1 := completeRow <$> g in
  imap (λ r line,
    imap (λ c x,
      if decide (c < length g)
      then default x (completeRow (column_of g1 c) !! r)
      else x) line) g1.

(** No cell of the grid is empty. *)
Definition full (g : list (list Color)) : Prop :=
  Forall (λ line, count Grey line = 0) g.

(** The other active color. *)
Definition opposite (c : Color) : Color :=
  match c with
  | Red => Blue
  | Blue => Red
  | Grey => Grey
  end.

(** Number of empty cells of a grid. *)
Definition empty_cells (g : list (list Color)) : nat :=
  sum_list (count Grey <$> g).

(** The coordinate a move writes to. *)
Definition target (m : Move) : nat * nat := (row m, column m).

(** What holds of the grid [gk] reached from [g] by the moves [ms] of a
    run of the solver. *)
Definition reached (g : list (list Color)) (ms : list Move) (gk : list (list Color))
    : Prop :=
  gk = play_all g ms ∧
  Forall (λ m, active (color m) ∧ cell g (row m) (column m) = Some Grey) ms ∧
  NoDup (target <$> ms) ∧
  (∀ r c, cell gk r c = Some Grey → cell g r c = Some Grey ∧ (r, c) ∉ target <$> ms) ∧
  (∀ r c col, cell g r c = Some col → col ≠ Grey → cell gk r c = Some col) ∧
  same_shape g gk ∧
  empty_cells gk + length ms = empty_cells g.

(** The line [sl] has the length of [l] and, wherever [l] holds a color
    that is not [Grey], the same color. *)
Definition line_extends (l sl : list Color) : Prop :=
  length l = length sl ∧
  ∀ i col, l !! i = Some col → col ≠ Grey → sl !! i = Some col.

(** The grid [s] fills in empty cells of [g] and changes nothing else. *)
Definition extends (g s : list (list Color)) : Prop :=
  Forall2 line_extends g s.

(** A solved grid: no empty cell, and in its rows and in its columns no
    triple, no color on more than half of a line, and no line twice. *)
Definition solution (s : list (list Color)) : Prop :=
  full s ∧
  (no_triple s ∧ no_triple (columns_of s)) ∧
  (Forall balanced s ∧ Forall balanced (columns_of s)) ∧
  (NoDup s ∧ NoDup (columns_of s)).

(** * Properties *)

(** ** Validator *)

(** C2: the validator returns no violation exactly when none of the three
    checkers reports one, and a returned violation is the triple-repetition
    checker's if it fires, else the over-saturation checker's if it fires,
    else the line-repetition checker's. *)
Theorem validateBoard_precedence (b : Board) :
  (validateBoard b = Ok None ↔
     findThriceRepetition b = None ∧ findOverSaturation b = Ok None ∧
     findLineRepetition b = Ok None) ∧
  (∀ v, findThriceRepetition b = Some v → validateBoard b = Ok (Some v)) ∧
  (∀ v, findThriceRepetition b = None → findOverSaturation b = Ok (Some v) →
     validateBoard b = Ok (Some v)) ∧
  (∀ v, findThriceRepetition b = None → findOverSaturation b = Ok None →
     findLineRepetition b = Ok (Some v) → validateBoard b = Ok (Some v)) ∧
  (∀ v, validateBoard b = Ok (Some v) →
     findThriceRepetition b = Some v ∨
     (findThriceRepetition b = None ∧ findOverSaturation b = Ok (Some v)) ∨
     (findThriceRepetition b = None ∧ findOverSaturation b = Ok None ∧
      findLineRepetition b = Ok (Some v))).
Proof.
  unfold validateBoard.
  destruct (findThriceRepetition b) as [t|];
    [|destruct (findOverSaturation b) as [[o|]|]; simpl;
      [|destruct (findLineRepetition b) as [[l|]|]|]].
  all: split_and!; try (intros; intuition congruence).
  all: intros v [= <-]; auto.
Qed.

Lemma validateBoard_precedence_witness :
  validateBoard (of_board [[Red; Red; Red]; [Blue; Red; Blue]; [Blue; Blue; Red]])
  = Ok (Some (ThriceRepetition OfRows 0 (0, 1, 2) (Col Red))).
Proof.
  apply (proj1 (proj2 (validateBoard_precedence
    (of_board [[Red; Red; Red]; [Blue; Red; Blue]; [Blue; Blue; Red]])))).
  reflexivity.
Defined.

(** ** Arrays *)

Lemma length_of_row cs : length (of_row cs) = length cs.
Proof. unfold of_row. by rewrite length_fmap. Qed.

Lemma of_row_lookup cs i : of_row cs !! i = (λ c, Some (Col c)) <$> cs !! i.
Proof. unfold of_row. by rewrite list_lookup_fmap. Qed.

Lemma js_get_of_row cs i : js_get (of_row cs) i = from_option Col Undefined (cs !! i).
Proof. unfold js_get. rewrite of_row_lookup. by destruct (cs !! i). Qed.

Lemma entries_of_row cs : entries (of_row cs) = Col <$> cs.
Proof. unfold entries, of_row. rewrite <- list_fmap_compose. done. Qed.

Lemma spread_of_row cs : spread (of_row cs) = of_row cs.
Proof. unfold spread. rewrite entries_of_row. unfold of_row. by rewrite <- list_fmap_compose. Qed.

(** ** Counting and positions *)

Lemma filter_seq_ext (P Q : nat → Prop) `{∀ j, Decision (P j)} `{∀ j, Decision (Q j)} i n :
  (∀ j, i ≤ j → P j ↔ Q j) → filter P (seq i n) = filter Q (seq i n).
Proof.
  revert i. induction n as [|n IH]; intros i HPQ; [done|].
  simpl. rewrite !filter_cons.
  rewrite (IH (S i)) by (intros j Hj; apply HPQ; lia).
  destruct (decide (P i)) as [Hp|Hp], (decide (Q i)) as [Hq|Hq]; try done.
  - apply HPQ in Hp; [done | lia].
  - apply HPQ in Hq; [done | lia].
Qed.

Lemma positionVectors_from_of_row cs i acc :
  positionVectors_from i (of_row cs) acc =
  Ok {| pvRed := pvRed acc ++ filter (λ j, cs !! (j - i) = Some Red) (seq i (length cs));
        pvBlue := pvBlue acc ++ filter (λ j, cs !! (j - i) = Some Blue) (seq i (length cs));
        pvGrey := pvGrey acc ++ filter (λ j, cs !! (j - i) = Some Grey) (seq i (length cs)) |}.
Proof.
  revert i acc. induction cs as [|x cs IH]; intros i acc.
  - simpl. rewrite !app_nil_r. by destruct acc.
  - change (of_row (x :: cs)) with (Some (Col x) :: of_row cs).
    cbn [positionVectors_from length seq]. rewrite IH.
    rewrite !filter_cons, Nat.sub_diag. cbn [lookup list_lookup].
    assert (Hshift : ∀ c, filter (λ j, (x :: cs) !! (j - i) = Some c) (seq (S i) (length cs))
                        = filter (λ j, cs !! (j - S i) = Some c) (seq (S i) (length cs))).
    { intros c. apply filter_seq_ext. intros j Hj.
      replace (j - i) with (S (j - S i)) by lia. done. }
    rewrite !Hshift.
    destruct x; simpl; repeat case_decide; try congruence;
      by rewrite <- ?app_assoc.
Qed.

Lemma positionVectors_of_row cs :
  positionVectors (of_row cs) =
  Ok {| pvRed := positions_of Red cs; pvBlue := positions_of Blue cs;
        pvGrey := positions_of Grey cs |}.
Proof.
  unfold positionVectors. rewrite positionVectors_from_of_row. simpl.
  unfold positions_of. f_equal. f_equal; apply filter_seq_ext; intros j _; by rewrite Nat.sub_0_r.
Qed.

Lemma length_positions_from c cs i :
  length (filter (λ j, cs !! (j - i) = Some c) (seq i (length cs))) = count c cs.
Proof.
  revert i. induction cs as [|x cs IH]; intros i; [done|].
  cbn [length seq]. unfold count. rewrite !filter_cons, Nat.sub_diag. cbn [lookup list_lookup].
  rewrite (filter_seq_ext _ (λ j, cs !! (j - S i) = Some c)).
  2:{ intros j Hj. replace (j - i) with (S (j - S i)) by lia. done. }
  specialize (IH (S i)). unfold count in IH.
  repeat case_decide; simplify_eq; simpl; by rewrite ?IH.
Qed.

Lemma length_positions_of c cs : length (positions_of c cs) = count c cs.
Proof.
  unfold positions_of. rewrite <- (length_positions_from c cs 0).
  f_equal. apply filter_seq_ext. intros j _. by rewrite Nat.sub_0_r.
Qed.

Lemma count_total cs : count Red cs + count Blue cs + count Grey cs = length cs.
Proof.
  unfold count. induction cs as [|x cs IH]; [done|].
  rewrite !filter_cons. destruct x; repeat case_decide; simplify_eq; simpl; lia.
Qed.

Lemma countColors_of_row cs :
  countColors (of_row cs) =
  {| cRed := count Red cs; cBlue := count Blue cs; cGrey := count Grey cs |}.
Proof.
  unfold countColors.
  assert (H : ∀ acc,
    foldl (λ totals slot,
      match slot with
      | Some (Col Red) => {| cRed := cRed totals + 1; cBlue := cBlue totals; cGrey := cGrey totals |}
      | Some (Col Blue) => {| cRed := cRed totals; cBlue := cBlue totals + 1; cGrey := cGrey totals |}
      | Some (Col Grey) => {| cRed := cRed totals; cBlue := cBlue totals; cGrey := cGrey totals + 1 |}
      | Some Undefined | None => totals
      end) acc (of_row cs) =
    {| cRed := cRed acc + count Red cs; cBlue := cBlue acc + count Blue cs;
       cGrey := cGrey acc + count Grey cs |}).
  { induction cs as [|x cs IH]; intros acc.
    - simpl. unfold count. simpl. rewrite !Nat.add_0_r. by destruct acc.
    - change (of_row (x :: cs)) with (Some (Col x) :: of_row cs). cbn [foldl].
      rewrite IH. unfold count. rewrite !filter_cons.
      destruct x; repeat case_decide; simplify_eq; simpl; f_equal; lia. }
  rewrite H. done.
Qed.

(** ** Over-saturation of a line *)

Lemma findOverSaturationRow_of_row cs :
  findOverSaturationRow (of_row cs) =
  Ok (if decide (length cs < 2 * count Red cs) then Some (positions_of Red cs, Red)
      else if decide (length cs < 2 * count Blue cs) then Some (positions_of Blue cs, Blue)
      else None).
Proof.
  unfold findOverSaturationRow. rewrite positionVectors_of_row. simpl.
  rewrite !length_positions_of, length_of_row.
  repeat case_decide; done.
Qed.

(** C4: on a line of colors the over-saturation checker reports the active
    color [C] exactly when [2 * count C > length]; the evidence is the
    ascending list of all positions of [C]; a strict majority of Red is
    reported as Red; a full line with equal counts is not reported. *)
Theorem findOverSaturationRow_spec (cs : list Color) :
  (∀ C pv, findOverSaturationRow (of_row cs) = Ok (Some (pv, C)) ↔
     active C ∧ length cs < 2 * count C cs ∧ pv = positions_of C cs) ∧
  (findOverSaturationRow (of_row cs) = Ok None ↔
     ∀ C, active C → 2 * count C cs ≤ length cs) ∧
  (length cs < 2 * count Red cs →
     findOverSaturationRow (of_row cs) = Ok (Some (positions_of Red cs, Red))) ∧
  (count Red cs = count Blue cs → count Grey cs = 0 →
     findOverSaturationRow (of_row cs) = Ok None).
Proof.
  rewrite findOverSaturationRow_of_row.
  pose proof (count_total cs) as Htot. unfold active.
  split; [|split; [|split]].
  - intros C pv. repeat case_decide; split.
    all: try (intros [= <- <-]; split; [by auto|split; [lia|done]]).
    all: try (intros ([-> | ->] & Hlt & ->); first [done | lia]).
    all: try (intros [=]).
  - repeat case_decide; split; try done.
    + intros HC. specialize (HC Red (or_introl eq_refl)). lia.
    + intros HC. specialize (HC Blue (or_intror eq_refl)). lia.
    + intros _ C [-> | ->]; lia.
  - intros Hlt. by rewrite decide_True.
  - intros Heq Hg. rewrite !decide_False by lia. done.
Qed.

Lemma findOverSaturationRow_spec_witness :
  findOverSaturationRow (of_row [Red; Red; Blue]) = Ok (Some ([0; 1], Red)) ∧
  findOverSaturationRow (of_row [Red; Blue; Blue; Red]) = Ok None.
Proof.
  split.
  - apply (proj1 (proj2 (proj2 (findOverSaturationRow_spec [Red; Red; Blue])))).
    vm_compute. lia.
  - apply (proj2 (proj2 (proj2 (findOverSaturationRow_spec [Red; Blue; Blue; Red]))));
      reflexivity.
Defined.

(** ** Naive completion of a line *)

Lemma js_map_fillGrey_of_row other cs :
  js_map (fillGrey other) (of_row cs) = of_row (replace_empty other cs).
Proof.
  unfold js_map, of_row, replace_empty. rewrite <- !list_fmap_compose.
  apply list_fmap_ext. intros _ c _. simpl. unfold fillGrey.
  destruct c; repeat case_decide; simplify_eq; done.
Qed.

Lemma replace_empty_id other cs : count Grey cs = 0 → replace_empty other cs = cs.
Proof.
  unfold count, replace_empty. induction cs as [|x cs IH]; [done|].
  rewrite filter_cons. simpl. repeat case_decide; simplify_eq; simpl; try lia.
  intros Hcs. f_equal. by apply IH.
Qed.

(** C6: on a row of colors, [naiveAutocompleteRow] gives every empty cell
    the color Blue when Red fills at least half the row, else the color Red
    when Blue fills at least half the row, and else returns an equal row; a
    row without empty cells comes back equal. *)
Theorem naiveAutocompleteRow_spec (cs : list Color) :
  (length cs ≤ 2 * count Red cs →
     naiveAutocompleteRow (of_row cs) = of_row (replace_empty Blue cs)) ∧
  (2 * count Red cs < length cs → length cs ≤ 2 * count Blue cs →
     naiveAutocompleteRow (of_row cs) = of_row (replace_empty Red cs)) ∧
  (2 * count Red cs < length cs → 2 * count Blue cs < length cs →
     naiveAutocompleteRow (of_row cs) = of_row cs) ∧
  (count Grey cs = 0 → naiveAutocompleteRow (of_row cs) = of_row cs).
Proof.
  unfold naiveAutocompleteRow.
  rewrite countColors_of_row, length_of_row, !js_map_fillGrey_of_row, spread_of_row.
  simpl. repeat split.
  - intros H. by rewrite decide_True.
  - intros H1 H2. rewrite decide_False by lia. by rewrite decide_True.
  - intros H1 H2. by rewrite !decide_False by lia.
  - intros Hg. rewrite !replace_empty_id by done. by repeat case_decide.
Qed.

Lemma naiveAutocompleteRow_spec_witness :
  naiveAutocompleteRow (of_row [Red; Grey; Red; Grey]) = of_row [Red; Blue; Red; Blue] ∧
  naiveAutocompleteRow (of_row [Grey; Blue; Grey; Blue]) = of_row [Red; Blue; Red; Blue] ∧
  naiveAutocompleteRow (of_row [Red; Grey; Grey; Blue]) = of_row [Red; Grey; Grey; Blue] ∧
  naiveAutocompleteRow (of_row [Red; Blue; Blue]) = of_row [Red; Blue; Blue].
Proof.
  split; [|split; [|split]].
  - apply (proj1 (naiveAutocompleteRow_spec [Red; Grey; Red; Grey])). vm_compute. lia.
  - apply (proj1 (proj2 (naiveAutocompleteRow_spec [Grey; Blue; Grey; Blue])));
      vm_compute; lia.
  - apply (proj1 (proj2 (proj2 (naiveAutocompleteRow_spec [Red; Grey; Grey; Blue]))));
      vm_compute; lia.
  - apply (proj2 (proj2 (proj2 (naiveAutocompleteRow_spec [Red; Blue; Blue])))).
    reflexivity.
Defined.

(** ** Line repetition *)

Lemma truthy_Some o i : truthy o = Some i → i ≠ 0 ∧ o = Some i.
Proof. destruct o as [[|n]|]; simpl; intros [= <-]; auto. Qed.

(** A reported pair never has the line index 0 as its first component: the
    index found in the map is tested for truthiness. *)
Lemma findRepeatedRows_from_first_nonzero m i ls a b :
  findRepeatedRows_from m i ls = Ok (Some (a, b)) → a ≠ 0.
Proof.
  revert m i. induction ls as [|l ls IH]; intros m i; simpl; [done|].
  destruct (positionVectors l) as [vectors|]; simpl; [|done].
  repeat case_decide.
  all: repeat match goal with
       | |- context [truthy ?o] =>
           let Ht := fresh "Ht" in destruct (truthy o) eqn:Ht;
           [apply truthy_Some in Ht as [? _]|]
       end.
  all: try (intros [= <- <-]; done).
  all: apply IH.
Qed.

(** C1: [findRepeatedRows] never reports a pair whose first line index is
    0; so two equal rows ["rbrb"] at the line indices 0 and 1 are not
    reported, and on a grid that starts with them the line-repetition checker
    reports a pair of columns instead; the same two rows at the indices 1 and
    2 are reported; the program's own example board has equal rows at the
    indices 0 and 5 and validates without a violation. *)
Theorem findRepeatedRows_first_line_missed :
  (∀ (ls : list Row) i j, findRepeatedRows ls = Ok (Some (i, j)) → i ≠ 0) ∧
  let rbrb := [Red; Blue; Red; Blue] in
  let gggg := [Grey; Grey; Grey; Grey] in
  findRepeatedRows (of_board [rbrb; rbrb]) = Ok None ∧
  findLineRepetition (of_board [rbrb; rbrb; gggg; gggg])
    = Ok (Some (LineRepetition OfColumns (1, 3))) ∧
  findRepeatedRows (of_board [gggg; rbrb; rbrb]) = Ok (Some (1, 2)) ∧
  example !! 0 = example !! 5 ∧
  validateBoard (of_board example) = Ok None.
Proof.
  split.
  - intros ls i j. apply findRepeatedRows_from_first_nonzero.
  - vm_compute. done.
Qed.

Lemma findRepeatedRows_first_line_missed_witness : 1 ≠ 0.
Proof.
  apply (proj1 findRepeatedRows_first_line_missed
    (of_board [[Grey; Grey; Grey; Grey]; [Red; Blue; Red; Blue]; [Red; Blue; Red; Blue]])
    1 2).
  reflexivity.
Defined.

(** ** Moves out of range *)

Lemma writeCell_row_out_of_range (b : Board) (m : Move) :
  length b ≤ row m → writeCell b m = TypeError.
Proof.
  intros Hrow. unfold writeCell. by rewrite lookup_ge_None_2.
Qed.

Lemma length_cloneBoard (b : Board) : length (cloneBoard b) = length b.
Proof. unfold cloneBoard. by rewrite length_fmap. Qed.

Lemma length_spread (r : Row) : length (spread r) = length r.
Proof. unfold spread, entries. by rewrite !length_fmap. Qed.

(** The claim of C9 fails for the column index: on the one-cell grid
    ["r"], the move to row 0, column 1 is out of range and returns a grid. *)
Lemma playMove_column_out_of_range_returns :
  ¬ (∀ (g : list (list Color)) (m : Move),
       ¬ in_bounds g m → playMove (of_board g) m = TypeError).
Proof.
  intros H.
  specialize (H [[Red]] {| color := Blue; row := 0; column := 1 |}).
  assert (Hout : ¬ in_bounds [[Red]] {| color := Blue; row := 0; column := 1 |}).
  { unfold in_bounds. simpl. by intros [? ?]. }
  specialize (H Hout). vm_compute in H. discriminate H.
Qed.

(** C9, amended: a move whose row index is out of range makes [playMove]
    throw; a move whose row index is in range and whose column is an array
    index at or past the end of that row does not throw in the write: the
    row of the new grid grows to hold the color at that index, and the grown
    grid is validated as any other. *)
Theorem playMove_out_of_range (b : Board) (m : Move) :
  (length b ≤ row m → playMove b m = TypeError) ∧
  (∀ line, b !! row m = Some line → length line ≤ column m →
     array_index (column m) →
     let grown := spread line ++ replicate (column m - length line) None
                    ++ [Some (Col (color m))] in
     let newBoard := <[row m := grown]> (cloneBoard b) in
     playMove b m = (violation ← validateBoard newBoard; Ok (newBoard, violation))).
Proof.
  split.
  - intros Hrow. unfold playMove.
    rewrite writeCell_row_out_of_range; [done|]. by rewrite length_cloneBoard.
  - intros line Hline Hcol _. simpl. unfold playMove, writeCell, cloneBoard.
    rewrite list_lookup_fmap, Hline. simpl. unfold js_set.
    rewrite length_spread. rewrite decide_False by lia. done.
Qed.

Lemma playMove_out_of_range_witness :
  playMove (of_board [[Red]]) {| color := Blue; row := 1; column := 0 |} = TypeError ∧
  playMove (of_board [[Red]]) {| color := Blue; row := 0; column := 2 |}
  = Ok ([[Some (Col Red); None; Some (Col Blue)]],
        Some (OverSaturation OfColumns 0 [0] Red)).
Proof.
  split.
  - apply (proj1 (playMove_out_of_range (of_board [[Red]])
             {| color := Blue; row := 1; column := 0 |})).
    simpl. lia.
  - rewrite (proj2 (playMove_out_of_range (of_board [[Red]])
               {| color := Blue; row := 0; column := 2 |}) [Some (Col Red)]).
    + reflexivity.
    + reflexivity.
    + simpl. lia.
    + vm_compute. reflexivity.
Defined.

(** ** Loops with early return *)

Section for_entries.
Context {A R : Type}.

Lemma for_entries_None (body : nat → A → option R) i xs :
  for_entries body i xs = None ↔
  ∀ j x, xs !! j = Some x → body (i + j) x = None.
Proof.
  revert i. induction xs as [|x xs IH]; intros i; simpl.
  - split; [intros _ j y Hj; by rewrite lookup_nil in Hj | done].
  - destruct (body i x) as [r|] eqn:Hb.
    + split; [done|]. intros H. specialize (H 0 x eq_refl).
      rewrite Nat.add_0_r in H. congruence.
    + rewrite IH. split.
      * intros H [|j] y Hj; simpl in Hj.
        -- simplify_eq. by rewrite Nat.add_0_r.
        -- rewrite <- Nat.add_succ_comm. by apply H.
      * intros H j y Hj. rewrite Nat.add_succ_comm. by apply (H (S j)).
Qed.

Lemma for_entries_Some (body : nat → A → option R) i xs r :
  for_entries body i xs = Some r ↔
  ∃ j x, xs !! j = Some x ∧ body (i + j) x = Some r ∧
         ∀ j' x', j' < j → xs !! j' = Some x' → body (i + j') x' = None.
Proof.
  revert i. induction xs as [|x xs IH]; intros i; simpl.
  - split; [done|]. intros (j & y & Hj & _). by rewrite lookup_nil in Hj.
  - destruct (body i x) as [r'|] eqn:Hb.
    + split.
      * intros [= ->]. exists 0, x. rewrite Nat.add_0_r. split_and!; [done..|].
        intros j' x' Hlt; lia.
      * intros ([|j] & y & Hj & Hr & Hbefore); simpl in Hj.
        -- simplify_eq. rewrite Nat.add_0_r in Hr. congruence.
        -- specialize (Hbefore 0 x ltac:(lia) eq_refl).
           rewrite Nat.add_0_r in Hbefore. congruence.
    + rewrite IH. split.
      * intros (j & y & Hj & Hr & Hbefore). exists (S j), y.
        rewrite <- Nat.add_succ_comm. split_and!; [done..|].
        intros [|j'] x' Hlt Hj'; simpl in Hj'.
        -- simplify_eq. by rewrite Nat.add_0_r.
        -- rewrite <- Nat.add_succ_comm. apply Hbefore; [lia|done].
      * intros ([|j] & y & Hj & Hr & Hbefore); simpl in Hj.
        -- simplify_eq. rewrite Nat.add_0_r in Hr. congruence.
        -- exists j, y. rewrite Nat.add_succ_comm. split_and!; [done..|].
           intros j' x' Hlt Hj'. rewrite Nat.add_succ_comm.
           apply (Hbefore (S j')); [lia|done].
Qed.

Lemma for_entries_exc_None (body : nat → A → Exc (option R)) i xs :
  for_entries_exc body i xs = Ok None ↔
  ∀ j x, xs !! j = Some x → body (i + j) x = Ok None.
Proof.
  revert i. induction xs as [|x xs IH]; intros i; simpl.
  - split; [intros _ j y Hj; by rewrite lookup_nil in Hj | done].
  - destruct (body i x) as [[r|]|] eqn:Hb.
    + split; [done|]. intros H. specialize (H 0 x eq_refl).
      rewrite Nat.add_0_r in H. congruence.
    + rewrite IH. split.
      * intros H [|j] y Hj; simpl in Hj.
        -- simplify_eq. by rewrite Nat.add_0_r.
        -- rewrite <- Nat.add_succ_comm. by apply H.
      * intros H j y Hj. rewrite Nat.add_succ_comm. by apply (H (S j)).
    + split; [done|]. intros H. specialize (H 0 x eq_refl).
      rewrite Nat.add_0_r in H. congruence.
Qed.

Lemma for_entries_exc_Some (body : nat → A → Exc (option R)) i xs r :
  for_entries_exc body i xs = Ok (Some r) ↔
  ∃ j x, xs !! j = Some x ∧ body (i + j) x = Ok (Some r) ∧
         ∀ j' x', j' < j → xs !! j' = Some x' → body (i + j') x' = Ok None.
Proof.
  revert i. induction xs as [|x xs IH]; intros i; simpl.
  - split; [done|]. intros (j & y & Hj & _). by rewrite lookup_nil in Hj.
  - destruct (body i x) as [[r'|]|] eqn:Hb.
    + split.
      * intros [= ->]. exists 0, x. rewrite Nat.add_0_r. split_and!; [done..|].
        intros j' x' Hlt; lia.
      * intros ([|j] & y & Hj & Hr & Hbefore); simpl in Hj.
        -- simplify_eq. rewrite Nat.add_0_r in Hr. congruence.
        -- specialize (Hbefore 0 x ltac:(lia) eq_refl).
           rewrite Nat.add_0_r in Hbefore. congruence.
    + rewrite IH. split.
      * intros (j & y & Hj & Hr & Hbefore). exists (S j), y.
        rewrite <- Nat.add_succ_comm. split_and!; [done..|].
        intros [|j'] x' Hlt Hj'; simpl in Hj'.
        -- simplify_eq. by rewrite Nat.add_0_r.
        -- rewrite <- Nat.add_succ_comm. apply Hbefore; [lia|done].
      * intros ([|j] & y & Hj & Hr & Hbefore); simpl in Hj.
        -- simplify_eq. rewrite Nat.add_0_r in Hr. congruence.
        -- exists j, y. rewrite Nat.add_succ_comm. split_and!; [done..|].
           intros j' x' Hlt Hj'. rewrite Nat.add_succ_comm.
           apply (Hbefore (S j')); [lia|done].
    + split; [done|].
      intros ([|j] & y & Hj & Hr & Hbefore); simpl in Hj.
      * simplify_eq. rewrite Nat.add_0_r in Hr. congruence.
      * specialize (Hbefore 0 x ltac:(lia) eq_refl).
        rewrite Nat.add_0_r in Hbefore. congruence.
Qed.
End for_entries.

(** ** Triple repetition *)

Lemma active_iff c : active c ↔ c ≠ Grey.
Proof. unfold active. destruct c; intuition congruence. Qed.

Lemma thriceAt_of_row_Some cs j c r :
  cs !! j = Some c →
  thriceAt (of_row cs) j (Col c) = Some r ↔
  2 ≤ j ∧ triple (line_of cs) (j - 2) c ∧ r = ((j - 2, j - 1, j), Col c).
Proof.
  intros Hj. unfold thriceAt, triple, line_of. rewrite active_iff.
  destruct (decide (j < 2)) as [Hlt|Hge]; [split; [done | lia]|].
  rewrite !js_get_of_row.
  replace (j - 2 + 1) with (j - 1) by lia. replace (j - 2 + 2) with j by lia.
  destruct (cs !! (j - 2)) as [c1|] eqn:H1, (cs !! (j - 1)) as [c2|] eqn:H2; simpl.
  all: repeat (case_bool_decide; simpl); simplify_eq; split.
  all: try (intros [= <-]; split_and!; try done; try lia; congruence).
  all: try (intros (_ & (? & ? & ? & ?) & ->); simplify_eq; done).
  all: try done.
Qed.

Lemma thriceAt_of_row_None cs j c :
  cs !! j = Some c →
  thriceAt (of_row cs) j (Col c) = None ↔ (2 ≤ j → ∀ C, ¬ triple (line_of cs) (j - 2) C).
Proof.
  intros Hj. destruct (thriceAt (of_row cs) j (Col c)) as [r|] eqn:Hr.
  - apply thriceAt_of_row_Some in Hr as (Hge & Ht & _); [|done].
    split; [done|]. intros H. by destruct (H Hge c).
  - split; [|done]. intros _ Hge C Ht.
    assert (C = c) as ->.
    { destruct Ht as (_ & _ & _ & Hc). unfold line_of in Hc.
      replace (j - 2 + 2) with j in Hc by lia. congruence. }
    assert (thriceAt (of_row cs) j (Col c) = Some ((j - 2, j - 1, j), Col c)) as Hs
      by (by apply thriceAt_of_row_Some).
    congruence.
Qed.

Lemma triple_lt_length cs i C : triple (line_of cs) i C → i + 2 < length cs.
Proof. intros (_ & _ & _ & H). by apply lookup_lt_Some in H. Qed.

Lemma findThriceRepetitionRow_of_row_None cs :
  findThriceRepetitionRow (of_row cs) = None ↔ ∀ i C, ¬ triple (line_of cs) i C.
Proof.
  unfold findThriceRepetitionRow. rewrite for_entries_None, entries_of_row. split.
  - intros H i C Ht. pose proof (triple_lt_length _ _ _ Ht) as Hlen.
    destruct (lookup_lt_is_Some_2 cs (i + 2) Hlen) as [c Hc].
    specialize (H (i + 2) (Col c)). rewrite list_lookup_fmap, Hc in H.
    specialize (H eq_refl). simpl in H.
    rewrite thriceAt_of_row_None in H by done.
    apply (H ltac:(lia) C). by replace (i + 2 - 2) with i by lia.
  - intros H j x Hj. rewrite list_lookup_fmap in Hj.
    destruct (cs !! j) as [c|] eqn:Hc; simplify_eq/=.
    apply thriceAt_of_row_None; [done|]. intros _ C. apply H.
Qed.

Lemma findThriceRepetitionRow_of_row_Some cs r :
  findThriceRepetitionRow (of_row cs) = Some r ↔
  ∃ i C, r = ((i, i + 1, i + 2), Col C) ∧ triple (line_of cs) i C ∧
         ∀ i' C', i' < i → ¬ triple (line_of cs) i' C'.
Proof.
  unfold findThriceRepetitionRow. rewrite for_entries_Some, entries_of_row. split.
  - intros (j & x & Hj & Hr & Hbefore). rewrite list_lookup_fmap in Hj.
    destruct (cs !! j) as [c|] eqn:Hc; simplify_eq/=.
    apply thriceAt_of_row_Some in Hr as (Hge & Ht & ->); [|done].
    exists (j - 2), c. split_and!; [do 3 f_equal; lia | done |].
    intros i' C' Hlt Ht'. pose proof (triple_lt_length _ _ _ Ht') as Hlen.
    destruct (lookup_lt_is_Some_2 cs (i' + 2) Hlen) as [c' Hc'].
    specialize (Hbefore (i' + 2) (Col c') ltac:(lia)).
    rewrite list_lookup_fmap, Hc' in Hbefore. specialize (Hbefore eq_refl).
    simpl in Hbefore. rewrite thriceAt_of_row_None in Hbefore by done.
    apply (Hbefore ltac:(lia) C'). by replace (i' + 2 - 2) with i' by lia.
  - intros (i & C & -> & Ht & Hbefore).
    pose proof (triple_lt_length _ _ _ Ht) as Hlen.
    assert (cs !! (i + 2) = Some C) as Hc by apply Ht.
    exists (i + 2), (Col C). rewrite list_lookup_fmap, Hc. simpl.
    split_and!; [done| |].
    + rewrite thriceAt_of_row_Some by done.
      replace (i + 2 - 2) with i by lia. replace (i + 2 - 1) with (i + 1) by lia.
      split_and!; [lia|done..].
    + intros j' x' Hlt Hj'. rewrite list_lookup_fmap in Hj'.
      destruct (cs !! j') as [c'|] eqn:Hc'; simplify_eq/=.
      apply thriceAt_of_row_None; [done|]. intros Hge C'. apply Hbefore. lia.
Qed.

Lemma findThriceRepetitionRow_short (line : Row) :
  length line < 3 → findThriceRepetitionRow line = None.
Proof.
  intros Hlen. unfold findThriceRepetitionRow. apply for_entries_None.
  intros j x Hj. apply lookup_lt_Some in Hj. unfold entries in Hj.
  rewrite length_fmap in Hj. unfold thriceAt. simpl. rewrite decide_True by lia. done.
Qed.

Lemma findThriceRepetitionLines_None kind (ls : list (list Color)) :
  findThriceRepetitionLines kind (of_row <$> ls) = None ↔
  ∀ k line i C, ls !! k = Some line → ¬ triple (line_of line) i C.
Proof.
  unfold findThriceRepetitionLines. rewrite for_entries_None. split.
  - intros H k line i C Hk. specialize (H k (of_row line)).
    rewrite list_lookup_fmap, Hk in H. specialize (H eq_refl). simpl in H.
    destruct (findThriceRepetitionRow (of_row line)) as [[cells v]|] eqn:Hr; [done|].
    rewrite findThriceRepetitionRow_of_row_None in Hr. apply Hr.
  - intros H k x Hk. rewrite list_lookup_fmap in Hk.
    destruct (ls !! k) as [line|] eqn:Hline; simplify_eq/=.
    assert (findThriceRepetitionRow (of_row line) = None) as ->; [|done].
    apply findThriceRepetitionRow_of_row_None. intros i C. by eapply H.
Qed.

Lemma findThriceRepetitionLines_Some kind (ls : list (list Color)) v :
  findThriceRepetitionLines kind (of_row <$> ls) = Some v ↔
  ∃ k line i C,
    ls !! k = Some line ∧ v = ThriceRepetition kind k (i, i + 1, i + 2) (Col C) ∧
    triple (line_of line) i C ∧
    (∀ i' C', i' < i → ¬ triple (line_of line) i' C') ∧
    (∀ k' line' i' C', k' < k → ls !! k' = Some line' → ¬ triple (line_of line') i' C').
Proof.
  unfold findThriceRepetitionLines. rewrite for_entries_Some. split.
  - intros (k & x & Hk & Hv & Hbefore). rewrite list_lookup_fmap in Hk.
    destruct (ls !! k) as [line|] eqn:Hline; simplify_eq/=.
    destruct (findThriceRepetitionRow (of_row line)) as [[cells c]|] eqn:Hr; [|done].
    simplify_eq. apply findThriceRepetitionRow_of_row_Some in Hr
      as (i & C & [= -> ->] & Ht & Hfirst).
    exists k, line, i, C. split_and!; [done..|].
    intros k' line' i' C' Hlt Hk'. specialize (Hbefore k' (of_row line') Hlt).
    rewrite list_lookup_fmap, Hk' in Hbefore. specialize (Hbefore eq_refl).
    simpl in Hbefore.
    destruct (findThriceRepetitionRow (of_row line')) as [[cells' c']|] eqn:Hr'; [done|].
    rewrite findThriceRepetitionRow_of_row_None in Hr'. apply Hr'.
  - intros (k & line & i & C & Hk & -> & Ht & Hfirst & Hbefore).
    exists k, (of_row line). rewrite list_lookup_fmap, Hk. simpl. split_and!; [done| |].
    + assert (findThriceRepetitionRow (of_row line) = Some ((i, i + 1, i + 2), Col C))
        as ->; [|done].
      apply findThriceRepetitionRow_of_row_Some. by exists i, C.
    + intros k' x' Hlt Hk'. rewrite list_lookup_fmap in Hk'.
      destruct (ls !! k') as [line'|] eqn:Hline'; simplify_eq/=.
      assert (findThriceRepetitionRow (of_row line') = None) as ->; [|done].
      apply findThriceRepetitionRow_of_row_None. intros i' C'. by eapply Hbefore.
Qed.

(** ** Rows and columns of a grid *)

Lemma length_of_board g : length (of_board g) = length g.
Proof. unfold of_board. by rewrite length_fmap. Qed.

Lemma column_of_lookup g k i :
  Forall (λ r, k < length r) g → column_of g k !! i = cell g i k.
Proof.
  unfold column_of, cell. intros Hg. revert i.
  induction Hg as [|r g Hr Hg IH]; intros i; [done|].
  destruct (lookup_lt_is_Some_2 r k Hr) as [c Hc]. simpl. rewrite Hc. simpl.
  destruct i as [|i]; simpl; [done|]. apply IH.
Qed.

Lemma column_of_board g k :
  Forall (λ r, k < length r) g →
  (λ r, Some (js_get r k)) <$> of_board g = of_row (column_of g k).
Proof.
  unfold column_of, of_board. intros Hg.
  induction Hg as [|r g Hr Hg IH]; [done|].
  destruct (lookup_lt_is_Some_2 r k Hr) as [c Hc]. simpl. rewrite Hc. simpl.
  rewrite js_get_of_row, Hc. simpl. f_equal. apply IH.
Qed.

Lemma columns_of_board g :
  wide g → columns (of_board g) = of_row <$> columns_of g.
Proof.
  intros Hg. unfold columns, columns_of. rewrite length_of_board.
  rewrite <- list_fmap_compose. apply list_fmap_ext. intros i k Hk.
  apply lookup_seq in Hk as [-> Hi]. simpl. apply column_of_board.
  eapply Forall_impl; [exact Hg|]. simpl. intros r Hr. lia.
Qed.

Lemma square_wide g : square g → wide g.
Proof.
  unfold square, wide. intros Hg. eapply Forall_impl; [exact Hg|].
  simpl. intros r ->. done.
Qed.

Lemma columns_of_lookup g k :
  wide g → k < length g →
  ∃ col, columns_of g !! k = Some col ∧ ∀ i, line_of col i = column_line g k i.
Proof.
  intros Hg Hk. exists (column_of g k). split.
  - unfold columns_of. rewrite list_lookup_fmap, lookup_seq_lt by done. done.
  - intros i. unfold line_of, column_line. apply column_of_lookup.
    eapply Forall_impl; [exact Hg|]. simpl. intros r Hr. lia.
Qed.

Lemma triple_ext (l1 l2 : nat → option Color) i C :
  (∀ j, l1 j = l2 j) → triple l1 i C ↔ triple l2 i C.
Proof. intros H. unfold triple. by rewrite !H. Qed.

Lemma row_line_lookup g r line :
  g !! r = Some line → ∀ i, line_of line i = row_line g r i.
Proof. intros Hr i. unfold line_of, row_line, cell. by rewrite Hr. Qed.

Lemma row_triple_inv g r i C :
  triple (row_line g r) i C → ∃ line, g !! r = Some line ∧ triple (line_of line) i C.
Proof.
  intros Ht. destruct (g !! r) as [line|] eqn:Hr.
  - exists line. split; [done|]. by rewrite (triple_ext _ _ _ _ (row_line_lookup _ _ _ Hr)).
  - destruct Ht as (_ & H & _). unfold row_line, cell in H. by rewrite Hr in H.
Qed.

Lemma column_triple_inv g k i C :
  square g → triple (column_line g k) i C →
  ∃ col, columns_of g !! k = Some col ∧ triple (line_of col) i C.
Proof.
  intros Hsq Ht. assert (k < length g) as Hk.
  { destruct Ht as (_ & H & _). unfold column_line, cell in H.
    destruct (g !! i) as [r|] eqn:Hr; simplify_eq/=.
    apply lookup_lt_Some in H. unfold square in Hsq.
    rewrite Forall_lookup in Hsq. by rewrite (Hsq _ _ Hr) in H. }
  destruct (columns_of_lookup g k (square_wide _ Hsq) Hk) as (col & Hcol & Hline).
  exists col. split; [done|]. by rewrite (triple_ext _ _ _ _ Hline).
Qed.

Lemma columns_of_lookup_inv g k col :
  wide g → columns_of g !! k = Some col →
  k < length g ∧ ∀ i, line_of col i = column_line g k i.
Proof.
  intros Hg Hcol. assert (k < length g) as Hk.
  { apply lookup_lt_Some in Hcol. unfold columns_of in Hcol.
    by rewrite length_fmap, length_seq in Hcol. }
  split; [done|].
  destruct (columns_of_lookup g k Hg Hk) as (col' & Hcol' & Hline). by simplify_eq.
Qed.

(** C5, amended: on a square grid the triple-repetition checker finds nothing
    exactly when no row and no column holds three consecutive cells of one
    active color; what it reports is the leftmost triple of the first row
    that has one, or, when no row has one, the topmost triple of the first
    column that has one; a line shorter than three cells never fires. *)
Theorem findThriceRepetition_spec (g : list (list Color)) :
  square g →
  (findThriceRepetition (of_board g) = None ↔
     (∀ r i C, ¬ triple (row_line g r) i C) ∧
     (∀ k i C, ¬ triple (column_line g k) i C)) ∧
  (∀ v, findThriceRepetition (of_board g) = Some v ↔
     (∃ r i C, v = ThriceRepetition OfRows r (i, i + 1, i + 2) (Col C) ∧
        triple (row_line g r) i C ∧
        (∀ i' C', i' < i → ¬ triple (row_line g r) i' C') ∧
        (∀ r' i' C', r' < r → ¬ triple (row_line g r') i' C')) ∨
     (∃ k i C, v = ThriceRepetition OfColumns k (i, i + 1, i + 2) (Col C) ∧
        (∀ r i' C', ¬ triple (row_line g r) i' C') ∧
        triple (column_line g k) i C ∧
        (∀ i' C', i' < i → ¬ triple (column_line g k) i' C') ∧
        (∀ k' i' C', k' < k → ¬ triple (column_line g k') i' C'))) ∧
  (∀ line : Row, length line < 3 → findThriceRepetitionRow line = None).
Proof.
  intros Hsq. pose proof (square_wide _ Hsq) as Hw.
  assert (Hrows : (∀ r i C, ¬ triple (row_line g r) i C) ↔
    findThriceRepetitionLines OfRows (of_row <$> g) = None).
  { rewrite findThriceRepetitionLines_None. split.
    - intros H k line i C Hk Ht. apply (H k i C).
      by rewrite <- (triple_ext _ _ _ _ (row_line_lookup _ _ _ Hk)).
    - intros H r i C Ht. apply row_triple_inv in Ht as (line & Hr & Ht).
      by eapply H. }
  assert (Hcols : (∀ k i C, ¬ triple (column_line g k) i C) ↔
    findThriceRepetitionLines OfColumns (of_row <$> columns_of g) = None).
  { rewrite findThriceRepetitionLines_None. split.
    - intros H k col i C Hk Ht.
      apply (columns_of_lookup_inv _ _ _ Hw) in Hk as [_ Hline].
      apply (H k i C). by rewrite <- (triple_ext _ _ _ _ Hline).
    - intros H k i C Ht. apply (column_triple_inv _ _ _ _ Hsq) in Ht as (col & Hk & Ht).
      by eapply H. }
  unfold findThriceRepetition, rows. rewrite (columns_of_board _ Hw).
  change (of_board g) with (of_row <$> g).
  split_and!.
  - rewrite Hrows, Hcols.
    destruct (findThriceRepetitionLines OfRows (of_row <$> g)).
    + split; [done|]. by intros [? _].
    + split; [by intros ->|]. by intros [_ ->].
  - intros v.
    destruct (findThriceRepetitionLines OfRows (of_row <$> g)) as [v'|] eqn:Hr.
    + apply findThriceRepetitionLines_Some in Hr
        as (r & line & i & C & Hline & -> & Ht & Hfirst & Hbefore).
      pose proof (row_line_lookup _ _ _ Hline) as Hext.
      split.
      * intros [= <-]. left. exists r, i, C. split_and!; [done| | |].
        -- by rewrite <- (triple_ext _ _ _ _ Hext).
        -- intros i' C' Hlt. rewrite <- (triple_ext _ _ _ _ Hext). by apply Hfirst.
        -- intros r' i' C' Hlt Ht'. apply row_triple_inv in Ht' as (line' & Hr' & Ht').
           by eapply Hbefore.
      * intros [(r0 & i0 & C0 & -> & Ht0 & Hfirst0 & Hbefore0)
               |(k0 & i0 & C0 & -> & Hnone & _)].
        -- rewrite (triple_ext _ _ _ _ Hext) in Ht.
           destruct (Nat.lt_trichotomy r r0) as [Hlt | [-> | Hgt]].
           ++ by destruct (Hbefore0 r i C Hlt).
           ++ destruct (Nat.lt_trichotomy i i0) as [Hlt | [-> | Hgt]].
              ** by destruct (Hfirst0 i C Hlt).
              ** assert (C = C0) as -> by (destruct Ht as (_ & ? & _),
                   Ht0 as (_ & ? & _); congruence). done.
              ** exfalso. apply (Hfirst i0 C0 Hgt).
                 by rewrite (triple_ext _ _ _ _ Hext).
           ++ apply row_triple_inv in Ht0 as (line0 & Hr0 & Ht0).
              by destruct (Hbefore r0 line0 i0 C0 Hgt Hr0).
        -- rewrite (triple_ext _ _ _ _ Hext) in Ht. by destruct (Hnone r i C).
    + rewrite findThriceRepetitionLines_Some. split.
      * intros (k & col & i & C & Hk & -> & Ht & Hfirst & Hbefore).
        apply (columns_of_lookup_inv _ _ _ Hw) in Hk as [Hklt Hline].
        right. exists k, i, C. split_and!; [done| | | |].
        -- by apply Hrows.
        -- by rewrite <- (triple_ext _ _ _ _ Hline).
        -- intros i' C' Hlt. rewrite <- (triple_ext _ _ _ _ Hline). by apply Hfirst.
        -- intros k' i' C' Hlt Ht'.
           apply (column_triple_inv _ _ _ _ Hsq) in Ht' as (col' & Hk' & Ht').
           by eapply Hbefore.
      * intros [(r0 & i0 & C0 & -> & Ht0 & _)
               |(k & i & C & -> & Hnone & Ht & Hfirst & Hbefore)].
        { by destruct (proj2 Hrows eq_refl r0 i0 C0). }
        pose proof Ht as Ht'.
        apply (column_triple_inv _ _ _ _ Hsq) in Ht' as (col & Hk & Htc).
        pose proof (columns_of_lookup_inv _ _ _ Hw Hk) as [Hklt Hline].
        exists k, col, i, C. split_and!; [done..| |].
        -- intros i' C' Hlt. rewrite (triple_ext _ _ _ _ Hline). by apply Hfirst.
        -- intros k' col' i' C' Hlt Hk'.
           apply (columns_of_lookup_inv _ _ _ Hw) in Hk' as [_ Hline'].
           rewrite (triple_ext _ _ _ _ Hline'). by apply Hbefore.
  - apply findThriceRepetitionRow_short.
Qed.

Lemma findThriceRepetition_spec_witness :
  let g := [[Red; Red; Red]; [Blue; Grey; Blue]; [Blue; Blue; Grey]] in
  findThriceRepetition (of_board g) = None ↔
    (∀ r i C, ¬ triple (row_line g r) i C) ∧ (∀ k i C, ¬ triple (column_line g k) i C).
Proof.
  apply (findThriceRepetition_spec [[Red; Red; Red]; [Blue; Grey; Blue]; [Blue; Blue; Grey]]).
  unfold square. repeat constructor.
Defined.

(** Off the square grids the claim of C5 fails: the checker reads
    [board.length] columns, so on three rows of one empty cell each it reads
    a second column of three [undefined]s and reports it, although no line of
    the grid holds an active color at all. *)
Lemma findThriceRepetition_three_by_one :
  ¬ (∀ g : list (list Color),
       findThriceRepetition (of_board g) ≠ None ↔
       (∃ r i C, triple (row_line g r) i C) ∨ (∃ k i C, triple (column_line g k) i C)).
Proof.
  intros Hclaim.
  destruct (Hclaim [[Grey]; [Grey]; [Grey]]) as [Hfires _].
  assert (Hcell : ∀ r c C, cell [[Grey]; [Grey]; [Grey]] r c = Some C → C = Grey).
  { intros [|[|[|r]]] [|c] C; simpl; intros [=]; done. }
  destruct Hfires as [(r & i & C & Hact & Hc & _) | (k & i & C & Hact & Hc & _)].
  - discriminate.
  - apply Hcell in Hc as ->. by destruct Hact.
  - apply Hcell in Hc as ->. by destruct Hact.
Qed.

(** What the checker returns there. *)
Lemma findThriceRepetition_three_by_one_result :
  findThriceRepetition (of_board [[Grey]; [Grey]; [Grey]])
  = Some (ThriceRepetition OfColumns 1 (0, 1, 2) Undefined).
Proof. reflexivity. Qed.

(** ** Negation-based move finder *)

Lemma findMoveInRow_Some b r (cs : list Color) fm :
  findMoveInRow b r (of_row cs) = Ok (Some fm) ↔
  ∃ c, cs !! c = Some Grey ∧ probeCell b r c = Ok (Some fm) ∧
       ∀ c', c' < c → cs !! c' = Some Grey → probeCell b r c' = Ok None.
Proof.
  unfold findMoveInRow. rewrite for_entries_exc_Some, entries_of_row. split.
  - intros (c & x & Hc & Hbody & Hbefore). rewrite list_lookup_fmap in Hc.
    destruct (cs !! c) as [col|] eqn:Hcol; simplify_eq/=.
    case_decide as Hgrey; [done|]. assert (col = Grey) as ->.
    { destruct col; try done; destruct Hgrey; done. }
    exists c. split_and!; [done..|]. intros c' Hlt Hc'.
    specialize (Hbefore c' (Col Grey) Hlt). rewrite list_lookup_fmap, Hc' in Hbefore.
    specialize (Hbefore eq_refl). simpl in Hbefore.
    by rewrite ?decide_False in Hbefore by auto.
  - intros (c & Hc & Hprobe & Hbefore). exists c, (Col Grey).
    rewrite list_lookup_fmap, Hc. simpl. rewrite ?decide_False by auto.
    split_and!; [done..|]. intros c' x' Hlt Hc'. rewrite list_lookup_fmap in Hc'.
    destruct (cs !! c') as [col|] eqn:Hcol; simplify_eq/=.
    case_decide as Hgrey; [done|]. apply Hbefore; [done|].
    destruct col; try done; destruct Hgrey; done.
Qed.

Lemma findMoveInRow_None b r (cs : list Color) :
  findMoveInRow b r (of_row cs) = Ok None ↔
  ∀ c, cs !! c = Some Grey → probeCell b r c = Ok None.
Proof.
  unfold findMoveInRow. rewrite for_entries_exc_None, entries_of_row. split.
  - intros H c Hc. specialize (H c (Col Grey)). rewrite list_lookup_fmap, Hc in H.
    specialize (H eq_refl). simpl in H. by rewrite ?decide_False in H by auto.
  - intros H c x Hc. rewrite list_lookup_fmap in Hc.
    destruct (cs !! c) as [col|] eqn:Hcol; simplify_eq/=.
    case_decide as Hgrey; [done|]. apply H.
    destruct col; try done; destruct Hgrey; done.
Qed.

Lemma cell_Some g r c col :
  cell g r c = Some col ↔ ∃ line, g !! r = Some line ∧ line !! c = Some col.
Proof.
  unfold cell. destruct (g !! r) as [line|]; simpl.
  - split; [eauto|]. by intros (? & [= <-] & ?).
  - split; [done|]. by intros (? & [=] & _).
Qed.

Lemma probeCell_spec b r c :
  let redMove := {| color := Red; row := r; column := c |} in
  let blueMove := {| color := Blue; row := r; column := c |} in
  (∀ fm, probeCell b r c = Ok (Some fm) ↔
     (∃ v, fm = (blueMove, v) ∧ violationAfterCompletion b redMove = Ok (Some v)) ∨
     (∃ v, fm = (redMove, v) ∧ violationAfterCompletion b redMove = Ok None ∧
           violationAfterCompletion b blueMove = Ok (Some v))) ∧
  (probeCell b r c = Ok None ↔
     violationAfterCompletion b redMove = Ok None ∧
     violationAfterCompletion b blueMove = Ok None).
Proof.
  simpl. unfold probeCell, violationAfterCompletion.
  destruct (playMove b {| color := Red; row := r; column := c |}) as [[rb rv]|]; simpl;
    [destruct (validateBoard (naiveAutocompleteBoard rb)) as [[v|]|]; simpl;
      [| destruct (playMove b {| color := Blue; row := r; column := c |})
           as [[bb bv]|]; simpl;
         [destruct (validateBoard (naiveAutocompleteBoard bb)) as [[v|]|]; simpl|] |]|].
  all: split; [intros fm|]; split.
  all: try (intros [= <-]; eauto; done).
  all: try (intros [(v' & -> & [= <-]) | (v' & -> & [=] & _)]; done).
  all: try (intros [(v' & -> & [=]) | (v' & -> & _ & [= <-])]; done).
  all: try (intros [(v' & _ & [=]) | (v' & _ & _ & [=])]; done).
  all: try (intros [(v' & _ & [=]) | (v' & _ & [=] & _)]; done).
  all: try (intros [[=] _]; done).
  all: try (intros [_ [=]]; done).
  all: try done.
Qed.

Lemma findMoveByNegation_Some (g : list (list Color)) fm :
  findMoveByNegation (of_board g) = Ok (Some fm) ↔
  ∃ r c, cell g r c = Some Grey ∧ probeCell (of_board g) r c = Ok (Some fm) ∧
    ∀ r' c', before (r', c') (r, c) → cell g r' c' = Some Grey →
             probeCell (of_board g) r' c' = Ok None.
Proof.
  set (b := of_board g).
  unfold findMoveByNegation, rows. rewrite for_entries_exc_Some. split.
  - intros (r & x & Hr & Hrow & Hbefore). unfold b, of_board in Hr.
    rewrite list_lookup_fmap in Hr.
    destruct (g !! r) as [line|] eqn:Hline; simplify_eq/=.
    apply findMoveInRow_Some in Hrow as (c & Hc & Hprobe & Hfirst).
    exists r, c. split_and!; [apply cell_Some; eauto | done |].
    intros r' c' [Hlt | [Heq Hlt]] Hcell; simpl in *; subst.
    + apply cell_Some in Hcell as (line' & Hline' & Hc').
      specialize (Hbefore r' (of_row line') Hlt). unfold b, of_board in Hbefore.
      rewrite list_lookup_fmap, Hline' in Hbefore. specialize (Hbefore eq_refl).
      pose proof (proj1 (findMoveInRow_None _ _ _) Hbefore) as Hb'. by apply Hb'.
    + apply cell_Some in Hcell as (line' & Hline' & Hc'). simplify_eq.
      by apply Hfirst.
  - intros (r & c & Hcell & Hprobe & Hbefore).
    apply cell_Some in Hcell as (line & Hline & Hc).
    exists r, (of_row line). unfold b at 1, of_board.
    rewrite list_lookup_fmap, Hline. simpl. split_and!; [done| |].
    + apply findMoveInRow_Some. exists c. split_and!; [done..|].
      intros c' Hlt Hc'. apply Hbefore; [right; simpl; lia|].
      apply cell_Some; eauto.
    + intros r' x' Hlt Hr'. unfold b, of_board in Hr'.
      rewrite list_lookup_fmap in Hr'.
      destruct (g !! r') as [line'|] eqn:Hline'; simplify_eq/=.
      apply findMoveInRow_None. intros c' Hc'. apply Hbefore; [left; simpl; lia|].
      apply cell_Some; eauto.
Qed.

Lemma findMoveByNegation_None (g : list (list Color)) :
  findMoveByNegation (of_board g) = Ok None ↔
  ∀ r c, cell g r c = Some Grey → probeCell (of_board g) r c = Ok None.
Proof.
  set (b := of_board g).
  unfold findMoveByNegation, rows. rewrite for_entries_exc_None. split.
  - intros H r c Hcell. apply cell_Some in Hcell as (line & Hline & Hc).
    specialize (H r (of_row line)). unfold b, of_board in H.
    rewrite list_lookup_fmap, Hline in H. specialize (H eq_refl). simpl in H.
    pose proof (proj1 (findMoveInRow_None _ _ _) H) as H'. by apply H'.
  - intros H r x Hr. unfold b, of_board in Hr. rewrite list_lookup_fmap in Hr.
    destruct (g !! r) as [line|] eqn:Hline; simplify_eq/=.
    apply findMoveInRow_None. intros c Hc. apply H. apply cell_Some; eauto.
Qed.

(** ** Array reads and writes *)

Lemma js_get_set (r : Row) j k v :
  js_get (js_set r j v) k = if decide (k = j) then v else js_get r k.
Proof.
  unfold js_get, js_set. destruct (decide (j < length r)) as [Hlt|Hge].
  - destruct (decide (k = j)) as [->|Hne].
    + by rewrite list_lookup_insert_eq.
    + by rewrite list_lookup_insert_ne.
  - destruct (decide (k < length r)) as [Hk|Hk].
    + rewrite lookup_app_l by done. rewrite decide_False by lia. done.
    + rewrite lookup_app_r by lia. rewrite (lookup_ge_None_2 r k) by lia.
      destruct (decide (k < j)) as [Hkj|Hkj].
      * rewrite lookup_app_l by (rewrite length_replicate; lia).
        rewrite lookup_replicate_2 by lia. rewrite decide_False by lia. done.
      * rewrite lookup_app_r by (rewrite length_replicate; lia).
        rewrite length_replicate.
        destruct (decide (k = j)) as [->|Hne].
        -- by replace (j - length r - (j - length r)) with 0 by lia.
        -- replace (k - length r - (j - length r)) with (S (k - j - 1)) by lia. done.
Qed.

Lemma js_get_spread (r : Row) i : js_get (spread r) i = js_get r i.
Proof.
  unfold js_get, spread, entries. rewrite !list_lookup_fmap.
  by destruct (r !! i).
Qed.

Lemma js_get_js_map f (r : Row) i :
  js_get (js_map f r) i =
  match r !! i with Some (Some v) => f v | _ => Undefined end.
Proof.
  unfold js_get, js_map. rewrite list_lookup_fmap.
  by destruct (r !! i) as [[v|]|].
Qed.

Lemma read_of_board g r c :
  read (of_board g) r c = from_option Col Undefined (cell g r c).
Proof.
  unfold read, of_board, cell. rewrite list_lookup_fmap.
  destruct (g !! r) as [line|]; simpl; [|done]. apply js_get_of_row.
Qed.

Lemma read_cloneBoard (b : Board) r c : read (cloneBoard b) r c = read b r c.
Proof.
  unfold read, cloneBoard. rewrite list_lookup_fmap.
  destruct (b !! r) as [line|]; simpl; [|done]. apply js_get_spread.
Qed.

(** ** What naive completion leaves alone *)

Lemma fills_refl v : fills v v.
Proof. by left. Qed.

Lemma fills_trans v1 v2 v3 : fills v1 v2 → fills v2 v3 → fills v1 v3.
Proof.
  unfold fills. intros [-> | [-> H12]] [-> | [-> H23]]; auto.
Qed.

Lemma fills_fillGrey other v : active other → fills v (fillGrey other v).
Proof.
  unfold fills, fillGrey, active. intros Hother. case_decide; [|by left].
  right. split; [done|]. destruct Hother as [-> | ->]; auto.
Qed.

Lemma naiveAutocompleteRow_get (r : Row) i :
  fills (js_get r i) (js_get (naiveAutocompleteRow r) i).
Proof.
  unfold naiveAutocompleteRow. repeat case_decide.
  - rewrite js_get_js_map. unfold js_get.
    destruct (r !! i) as [[v|]|]; simpl; try apply fills_refl.
    apply fills_fillGrey. by right.
  - rewrite js_get_js_map. unfold js_get.
    destruct (r !! i) as [[v|]|]; simpl; try apply fills_refl.
    apply fills_fillGrey. by left.
  - rewrite js_get_spread. apply fills_refl.
Qed.

(** The first loop of [naiveAutocompleteBoard] is a [map]. *)
Lemma foldl_live_index {A} (f : A → A) (done_ todo : list A) :
  foldl (λ nb i, match nb !! i with Some r => <[i := f r]> nb | None => nb end)
        (done_ ++ todo) (seq (length done_) (length todo))
  = done_ ++ (f <$> todo).
Proof.
  revert done_. induction todo as [|x todo IH]; intros done_; [done|].
  cbn [length seq foldl fmap list_fmap].
  rewrite list_lookup_middle by done.
  rewrite insert_app_r_alt by done. rewrite Nat.sub_diag. simpl.
  replace (done_ ++ f x :: todo) with ((done_ ++ [f x]) ++ todo)
    by (by rewrite <- app_assoc).
  replace (S (length done_)) with (length (done_ ++ [f x]))
    by (rewrite length_app; simpl; lia).
  rewrite IH. by rewrite <- app_assoc.
Qed.

Lemma naiveAutocompleteBoard_rows (b : Board) :
  foldl (λ nb i,
     match nb !! i with
     | Some r => <[i := naiveAutocompleteRow r]> nb
     | None => nb
     end) b (seq 0 (length b))
  = naiveAutocompleteRow <$> b.
Proof. apply (foldl_live_index naiveAutocompleteRow [] b). Qed.

(** The second loop: after the columns from [k] on have been written back,
    a cell reads as its completed column does, and the other cells read as
    before. *)
Lemma writeColumns_read (cols : list Row) k (b : Board) i c :
  i < length b →
  read (foldl (λ nb '(columnIndex, col),
          imap (λ rowIndex r,
            js_set r columnIndex (js_get (naiveAutocompleteRow col) rowIndex)) nb)
        b (imap (λ j col, (k + j, col)) cols)) i c
  = if decide (k ≤ c) then
      match cols !! (c - k) with
      | Some col => js_get (naiveAutocompleteRow col) i
      | None => read b i c
      end
    else read b i c.
Proof.
  revert k b. induction cols as [|col cols IH]; intros k b Hi.
  - simpl. by case_decide.
  - cbn [imap foldl]. rewrite Nat.add_0_r.
    rewrite (imap_ext _ (λ j col', (S k + j, col'))).
    2:{ intros j x _. simpl. f_equal. lia. }
    rewrite IH by (by rewrite length_imap).
    assert (Hstep : read (imap (λ rowIndex r,
        js_set r k (js_get (naiveAutocompleteRow col) rowIndex)) b) i c
      = if decide (c = k) then js_get (naiveAutocompleteRow col) i else read b i c).
    { unfold read. rewrite list_lookup_imap.
      destruct (lookup_lt_is_Some_2 b i Hi) as [r Hr]. rewrite Hr. simpl.
      apply js_get_set. }
    rewrite Hstep.
    destruct (decide (S k ≤ c)) as [Hlt|Hge].
    + rewrite (decide_True (P := k ≤ c)) by lia.
      replace (c - k) with (S (c - S k)) by lia.
      simpl. rewrite (decide_False (P := c = k)) by lia. done.
    + destruct (decide (k ≤ c)) as [Hle|Hgt].
      * assert (c = k) as -> by lia. rewrite Nat.sub_diag. simpl.
        by rewrite decide_True.
      * by rewrite (decide_False (P := c = k)) by lia.
Qed.

Lemma writeColumns_length (cols : list (nat * Row)) (b : Board) :
  length (foldl (λ nb '(columnIndex, col),
          imap (λ rowIndex r,
            js_set r columnIndex (js_get (naiveAutocompleteRow col) rowIndex)) nb)
        b cols) = length b.
Proof.
  revert b. induction cols as [|[k col] cols IH]; intros b; [done|].
  simpl. rewrite IH. by rewrite length_imap.
Qed.

Lemma length_naiveAutocompleteBoard (b : Board) :
  length (naiveAutocompleteBoard b) = length b.
Proof.
  unfold naiveAutocompleteBoard. rewrite writeColumns_length.
  rewrite naiveAutocompleteBoard_rows, length_fmap. apply length_cloneBoard.
Qed.

Lemma columns_lookup (b : Board) k :
  k < length b → columns b !! k = Some ((λ r, Some (js_get r k)) <$> b).
Proof.
  intros Hk. unfold columns. rewrite list_lookup_fmap, lookup_seq_lt by done. done.
Qed.

Lemma length_columns (b : Board) : length (columns b) = length b.
Proof. unfold columns. by rewrite length_fmap, length_seq. Qed.

Lemma js_get_column (b : Board) k i :
  js_get ((λ r, Some (js_get r k)) <$> b) i = read b i k.
Proof.
  unfold js_get at 1, read. rewrite list_lookup_fmap.
  by destruct (b !! i).
Qed.

Lemma naiveAutocompleteBoard_read (b : Board) r c :
  fills (read b r c) (read (naiveAutocompleteBoard b) r c).
Proof.
  destruct (decide (r < length b)) as [Hr|Hr].
  2:{ unfold read. rewrite !lookup_ge_None_2; [apply fills_refl | |lia].
      rewrite length_naiveAutocompleteBoard. lia. }
  unfold naiveAutocompleteBoard. rewrite naiveAutocompleteBoard_rows.
  set (b1 := naiveAutocompleteRow <$> cloneBoard b).
  assert (Hlen : length b1 = length b)
    by (unfold b1; by rewrite length_fmap, length_cloneBoard).
  assert (H1 : fills (read b r c) (read b1 r c)).
  { rewrite <- (read_cloneBoard b). unfold read, b1. rewrite list_lookup_fmap.
    destruct (cloneBoard b !! r) as [line|]; simpl; [|apply fills_refl].
    apply naiveAutocompleteRow_get. }
  eapply fills_trans; [exact H1|].
  pose proof (writeColumns_read (columns b1) 0 b1 r c ltac:(lia)) as Hw.
  rewrite (imap_ext _ pair) in Hw by done. rewrite Hw.
  rewrite decide_True by lia. rewrite Nat.sub_0_r.
  destruct (decide (c < length b1)) as [Hc|Hc].
  - rewrite columns_lookup by done.
    rewrite <- (js_get_column b1 c r) at 1. apply naiveAutocompleteRow_get.
  - rewrite lookup_ge_None_2 by (rewrite length_columns; lia). apply fills_refl.
Qed.

(** C10: naive completion of a row or of a grid leaves every cell that
    holds an active color as it is, and a cell that reads differently
    afterwards was empty and holds an active color. *)
Theorem naive_completion_frame :
  (∀ (cs : list Color) i,
     let out := naiveAutocompleteRow (of_row cs) in
     (∀ col, cs !! i = Some col → col ≠ Grey → js_get out i = Col col) ∧
     (js_get out i ≠ js_get (of_row cs) i →
        cs !! i = Some Grey ∧ ∃ col', active col' ∧ js_get out i = Col col')) ∧
  (∀ (g : list (list Color)) r c,
     let out := naiveAutocompleteBoard (of_board g) in
     (∀ col, cell g r c = Some col → col ≠ Grey → read out r c = Col col) ∧
     (read out r c ≠ read (of_board g) r c →
        cell g r c = Some Grey ∧ ∃ col', active col' ∧ read out r c = Col col')).
Proof.
  split.
  - intros cs i out. pose proof (naiveAutocompleteRow_get (of_row cs) i) as Hf.
    fold out in Hf. rewrite js_get_of_row in *. unfold fills, active in *. split.
    + intros col Hcol Hne. rewrite Hcol in Hf. simpl in Hf.
      destruct Hf as [-> | [[= ->] _]]; done.
    + intros Hdiff. destruct Hf as [Heq | [Hgrey Hout]]; [done|].
      destruct (cs !! i) as [col|]; simplify_eq/=. split; [done|].
      destruct Hout as [-> | ->]; eauto.
  - intros g r c out. pose proof (naiveAutocompleteBoard_read (of_board g) r c) as Hf.
    fold out in Hf. rewrite read_of_board in *. unfold fills, active in *. split.
    + intros col Hcol Hne. rewrite Hcol in Hf. simpl in Hf.
      destruct Hf as [-> | [[= ->] _]]; done.
    + intros Hdiff. destruct Hf as [Heq | [Hgrey Hout]]; [done|].
      destruct (cell g r c) as [col|]; simplify_eq/=. split; [done|].
      destruct Hout as [-> | ->]; eauto.
Qed.

Lemma naive_completion_frame_witness :
  read (naiveAutocompleteBoard (of_board [[Red; Grey]; [Grey; Grey]])) 0 0 = Col Red.
Proof.
  apply (proj1 (proj2 naive_completion_frame [[Red; Grey]; [Grey; Grey]] 0 0) Red).
  - reflexivity.
  - discriminate.
Defined.

(** ** Checkers on grids of colors do not throw *)

Lemma for_entries_exc_Ok {A R} (body : nat → A → Exc (option R)) i xs :
  (∀ j x, xs !! j = Some x → ∃ r, body (i + j) x = Ok r) →
  ∃ r, for_entries_exc body i xs = Ok r.
Proof.
  revert i. induction xs as [|x xs IH]; intros i Hbody; simpl; [eauto|].
  destruct (Hbody 0 x eq_refl) as [r Hr]. rewrite Nat.add_0_r in Hr. rewrite Hr.
  destruct r as [r|]; [eauto|]. apply IH. intros j y Hj.
  rewrite Nat.add_succ_comm. by apply (Hbody (S j)).
Qed.

Lemma findOverSaturationLines_Ok kind (ls : list (list Color)) :
  ∃ r, findOverSaturationLines kind (of_row <$> ls) = Ok r.
Proof.
  unfold findOverSaturationLines. apply for_entries_exc_Ok.
  intros j x Hj. rewrite list_lookup_fmap in Hj.
  destruct (ls !! j) as [cs|]; simplify_eq/=.
  rewrite findOverSaturationRow_of_row. simpl. repeat case_decide; eauto.
Qed.

Lemma findRepeatedRows_from_Ok m i (ls : list (list Color)) :
  ∃ r, findRepeatedRows_from m i (of_row <$> ls) = Ok r.
Proof.
  revert m i. induction ls as [|cs ls IH]; intros m i; simpl; [eauto|].
  rewrite positionVectors_of_row. simpl.
  repeat case_decide; repeat (destruct (truthy _)); eauto.
Qed.

Lemma validateBoard_Ok (g : list (list Color)) :
  wide g → ∃ v, validateBoard (of_board g) = Ok v.
Proof.
  intros Hw. unfold validateBoard.
  destruct (findThriceRepetition (of_board g)); [eauto|].
  unfold findOverSaturation, findLineRepetition, findRepeatedRows, rows.
  rewrite (columns_of_board _ Hw). change (of_board g) with (of_row <$> g).
  destruct (findOverSaturationLines_Ok OfRows g) as [[v|] ->]; simpl; [eauto|].
  destruct (findOverSaturationLines_Ok OfColumns (columns_of g)) as [[v|] ->];
    simpl; [eauto|].
  destruct (findRepeatedRows_from_Ok ∅ 0 g) as [[v|] ->]; simpl; [eauto|].
  destruct (findRepeatedRows_from_Ok ∅ 0 (columns_of g)) as [[v|] ->]; simpl; eauto.
Qed.

(** ** Playing a move *)

Lemma js_set_of_row cs c col :
  c < length cs → js_set (of_row cs) c (Col col) = of_row (<[c := col]> cs).
Proof.
  intros Hc. unfold js_set. rewrite length_of_row, decide_True by done.
  unfold of_row. by rewrite list_fmap_insert.
Qed.

Lemma cloneBoard_of_board g : cloneBoard (of_board g) = of_board g.
Proof.
  unfold cloneBoard, of_board. rewrite <- list_fmap_compose.
  apply list_fmap_ext. intros _ cs _. apply spread_of_row.
Qed.

Lemma in_bounds_inv g m :
  in_bounds g m →
  ∃ line, g !! row m = Some line ∧ column m < length line.
Proof.
  intros [col Hcol]. apply cell_Some in Hcol as (line & Hline & Hc).
  exists line. split; [done|]. by apply lookup_lt_Some in Hc.
Qed.

Lemma writeCell_of_board g m :
  in_bounds g m →
  writeCell (of_board g) m = Ok (of_board (set_cell g (row m) (column m) (color m))).
Proof.
  intros Hin. destruct (in_bounds_inv _ _ Hin) as (line & Hline & Hc).
  unfold writeCell, of_board, set_cell. rewrite list_lookup_fmap, Hline. simpl.
  rewrite js_set_of_row by done. f_equal.
  rewrite <- list_fmap_insert. f_equal.
  apply list_eq. intros i. destruct (decide (i = row m)) as [->|Hne].
  - rewrite list_lookup_insert_eq by (by eapply lookup_lt_Some).
    rewrite list_lookup_alter_eq, Hline. done.
  - rewrite list_lookup_insert_ne by done. by rewrite list_lookup_alter_ne.
Qed.

Lemma length_set_cell g r c col : length (set_cell g r c col) = length g.
Proof. unfold set_cell. apply length_alter. Qed.

Lemma set_cell_wide g r c col : wide g → wide (set_cell g r c col).
Proof.
  unfold wide. rewrite length_set_cell. unfold set_cell. intros Hw.
  apply Forall_alter; [done|]. intros line Hline Hlen. by rewrite length_insert.
Qed.

Lemma cell_set_cell g r c col r' c' :
  is_Some (cell g r c) →
  cell (set_cell g r c col) r' c' =
  if decide (r' = r ∧ c' = c) then Some col else cell g r' c'.
Proof.
  intros [old Hold]. apply cell_Some in Hold as (line & Hline & Hc).
  unfold cell, set_cell. destruct (decide (r' = r)) as [->|Hr].
  - rewrite list_lookup_alter_eq, Hline. simpl.
    destruct (decide (c' = c)) as [->|Hcne].
    + rewrite decide_True by done.
      apply list_lookup_insert_eq. by eapply lookup_lt_Some.
    + rewrite decide_False by (by intros [_ ?]). by rewrite list_lookup_insert_ne.
  - rewrite list_lookup_alter_ne by done. by rewrite decide_False by (by intros [? _]).
Qed.

Lemma playMove_of_board g m :
  wide g → in_bounds g m →
  ∃ v, playMove (of_board g) m
       = Ok (of_board (set_cell g (row m) (column m) (color m)), v).
Proof.
  intros Hw Hin. unfold playMove.
  rewrite cloneBoard_of_board, writeCell_of_board by done. simpl.
  destruct (validateBoard_Ok (set_cell g (row m) (column m) (color m))) as [v ->];
    [by apply set_cell_wide|]. simpl. eauto.
Qed.

(** ** The store *)

Lemma preserved_app h h' : preserved h (h ++ h').
Proof. intros l o Hl. by apply lookup_app_l_Some. Qed.

Lemma getRow_preserved h h' l r :
  preserved h h' → getRow h l = Some r → getRow h' l = Some r.
Proof.
  unfold getRow. intros Hp Hr. destruct (h !! l) as [o|] eqn:Hl; [|done].
  by rewrite (Hp _ _ Hl).
Qed.

Lemma getBoard_preserved h h' l rs :
  preserved h h' → getBoard h l = Some rs → getBoard h' l = Some rs.
Proof.
  unfold getBoard. intros Hp Hr. destruct (h !! l) as [o|] eqn:Hl; [|done].
  by rewrite (Hp _ _ Hl).
Qed.

Lemma deref_Some h b B :
  deref h b = Some B ↔
  ∃ ls, getBoard h b = Some ls ∧ Forall2 (λ l r, getRow h l = Some r) ls B.
Proof.
  unfold deref. destruct (getBoard h b) as [ls|]; simpl.
  - rewrite mapM_Some. split; [eauto|]. by intros (? & [= <-] & ?).
  - split; [done|]. by intros (? & [=] & _).
Qed.

Lemma deref_preserved h h' b B :
  preserved h h' → deref h b = Some B → deref h' b = Some B.
Proof.
  intros Hp. rewrite !deref_Some. intros (ls & Hb & Hrows). exists ls. split.
  - by eapply getBoard_preserved.
  - eapply Forall2_impl; [exact Hrows|]. simpl. intros l r. by apply getRow_preserved.
Qed.

Lemma HeapM_bind_run {A B} (f : A → HeapM B) (m : HeapM A) h :
  (m ≫= f) h =
  match m h with
  | (h', Ok a) => f a h'
  | (h', TypeError) => (h', TypeError)
  end.
Proof. reflexivity. Qed.

Lemma cloneRows_spec ls (rws : list Row) h :
  Forall2 (λ l r, getRow h l = Some r) ls rws →
  cloneRows ls h
  = (h ++ ((λ r, ORow (spread r)) <$> rws), Ok (seq (length h) (length rws))).
Proof.
  intros Hrows. revert h Hrows. revert rws.
  induction ls as [|l ls IH]; intros rws h Hrows.
  - apply Forall2_nil_inv_l in Hrows as ->. simpl.
    unfold mret, HeapM_ret. by rewrite app_nil_r.
  - apply Forall2_cons_inv_l in Hrows as (r & rws' & Hr & Hrows & ->).
    cbn [cloneRows]. unfold mbind, HeapM_bind, readRow, alloc. rewrite Hr. simpl.
    rewrite (IH rws' (h ++ [ORow (spread r)])).
    2:{ eapply Forall2_impl; [exact Hrows|]. simpl. intros l' r'.
        apply getRow_preserved, preserved_app. }
    unfold mret, HeapM_ret. rewrite length_app. simpl. rewrite <- app_assoc. simpl.
    by replace (length h + 1) with (S (length h)) by lia.
Qed.

Lemma cloneBoard_h_spec h b B :
  deref h b = Some B →
  cloneBoard_h b h = (cloned h B, Ok (length h + length B)).
Proof.
  rewrite deref_Some. intros (ls & Hb & Hrows).
  unfold cloneBoard_h, cloned, mbind, HeapM_bind, readBoard. rewrite Hb. simpl.
  rewrite (cloneRows_spec _ _ _ Hrows). unfold alloc.
  by rewrite length_app, length_fmap.
Qed.

Lemma cloned_lookup_old h B l : l < length h → cloned h B !! l = h !! l.
Proof.
  intros Hl. unfold cloned.
  rewrite lookup_app_l by (rewrite length_app; lia). by rewrite lookup_app_l.
Qed.

Lemma cloned_lookup_row h B i :
  i < length B →
  cloned h B !! (length h + i) = (λ r, ORow (spread r)) <$> B !! i.
Proof.
  intros Hi. unfold cloned.
  rewrite lookup_app_l by (rewrite length_app, length_fmap; lia).
  rewrite lookup_app_r by lia. replace (length h + i - length h) with i by lia.
  by rewrite list_lookup_fmap.
Qed.

Lemma cloned_lookup_board h B :
  cloned h B !! (length h + length B) = Some (OBoard (seq (length h) (length B))).
Proof.
  unfold cloned. rewrite lookup_app_r by (rewrite length_app, length_fmap; lia).
  rewrite length_app, length_fmap. by rewrite Nat.sub_diag.
Qed.

Lemma getBoard_cloned h B :
  getBoard (cloned h B) (length h + length B) = Some (seq (length h) (length B)).
Proof. unfold getBoard. by rewrite cloned_lookup_board. Qed.

Lemma getRow_cloned h B i r :
  B !! i = Some r → getRow (cloned h B) (length h + i) = Some (spread r).
Proof.
  intros Hr. unfold getRow.
  rewrite cloned_lookup_row by (by eapply lookup_lt_Some). by rewrite Hr.
Qed.

Lemma length_cloned h B : length (cloned h B) = length h + length B + 1.
Proof. unfold cloned. by rewrite !length_app, length_fmap. Qed.

Lemma preserved_cloned h B : preserved h (cloned h B).
Proof.
  intros l o Hl. rewrite cloned_lookup_old; [done|]. by eapply lookup_lt_Some.
Qed.

(** [playMove] on the store: every object of the store it started from is
    left unchanged; when the write does not throw, a fresh board denotes the
    written clone, and the call returns it with the outcome of validating
    it. *)
Lemma playMove_h_spec h b B m :
  deref h b = Some B →
  match writeCell (cloneBoard B) m with
  | Ok B' =>
      ∃ h', preserved h h' ∧ deref h' (length h + length B) = Some B' ∧
        playMove_h b m h
        = (h', v ← validateBoard B'; Ok (length h + length B, v))
  | TypeError => playMove_h b m h = (cloned h B, TypeError)
  end.
Proof.
  intros Hd. unfold writeCell, cloneBoard. rewrite list_lookup_fmap.
  assert (Hclone : playMove_h b m h =
    match seq (length h) (length B) !! row m with
    | Some l =>
        (r ← readRow l;
         writeRow l (js_set r (column m) (Col (color m)));;
         grid ← snapshot (length h + length B);
         violation ← lift (validateBoard grid);
         mret (length h + length B, violation)) (cloned h B)
    | None => (cloned h B, TypeError)
    end).
  { unfold playMove_h.
    rewrite HeapM_bind_run, (cloneBoard_h_spec _ _ _ Hd). cbv beta iota.
    rewrite HeapM_bind_run. unfold readBoard. rewrite getBoard_cloned.
    cbv beta iota delta [of_option]. by destruct (_ !! row m). }
  rewrite Hclone. clear Hclone.
  destruct (B !! row m) as [r|] eqn:Hr; cbn [fmap option_fmap option_map].
  2:{ apply lookup_ge_None_1 in Hr. by rewrite lookup_seq_ge. }
  pose proof (lookup_lt_Some _ _ _ Hr) as Hlt.
  rewrite lookup_seq_lt by done.
  rewrite HeapM_bind_run. unfold readRow at 1.
  rewrite (getRow_cloned _ _ _ _ Hr). cbv beta iota delta [of_option].
  rewrite HeapM_bind_run. unfold writeRow at 1. cbv beta iota.
  set (r' := js_set (spread r) (column m) (Col (color m))).
  set (h' := <[length h + row m := ORow r']> (cloned h B)).
  assert (Hd' : deref h' (length h + length B) = Some (<[row m := r']> (spread <$> B))).
  { apply deref_Some. exists (seq (length h) (length B)). split.
    - unfold getBoard, h'. rewrite list_lookup_insert_ne by lia.
      by rewrite cloned_lookup_board.
    - apply Forall2_same_length_lookup. split.
      + by rewrite length_seq, length_insert, length_fmap.
      + intros i l x Hl Hx. apply lookup_seq in Hl as [-> Hi].
        unfold getRow, h'. destruct (decide (i = row m)) as [->|Hne].
        * rewrite list_lookup_insert_eq by (rewrite length_cloned; lia).
          rewrite list_lookup_insert_eq in Hx by (by rewrite length_fmap).
          by simplify_eq.
        * rewrite list_lookup_insert_ne by lia.
          rewrite list_lookup_insert_ne in Hx by done.
          rewrite list_lookup_fmap in Hx. rewrite cloned_lookup_row by done.
          destruct (B !! i); by simplify_eq/=. }
  rewrite HeapM_bind_run. unfold snapshot at 1. rewrite Hd'.
  cbv beta iota delta [of_option].
  rewrite HeapM_bind_run. unfold lift, mret, HeapM_ret.
  exists h'. split_and!; [|done|].
  - intros l o Hl. pose proof (lookup_lt_Some _ _ _ Hl) as Hlh. unfold h'.
    rewrite list_lookup_insert_ne by lia. by rewrite cloned_lookup_old.
  - by destruct (validateBoard (<[row m := r']> (spread <$> B))) as [v|].
Qed.

(** The store version returns what the version on grids returns. *)
Lemma playMove_h_refines h b B m :
  deref h b = Some B →
  (playMove_h b m h).2
  = ('(_, v) ← playMove B m; Ok (length h + length B, v)).
Proof.
  intros Hd. pose proof (playMove_h_spec h b B m Hd) as Hspec. unfold playMove.
  destruct (writeCell (cloneBoard B) m) as [B'|]; simpl.
  - destruct Hspec as (h' & _ & _ & ->). simpl.
    by destruct (validateBoard B').
  - by rewrite Hspec.
Qed.

(** With a move inside the grid the call need not return: [playMove]
    validates the new grid, and on a grid with fewer columns than rows the
    validator reads columns past the end of the rows.  On two rows of one
    empty cell each, the second column read is two [undefined]s and
    [positionVectors] throws on it. *)
Lemma playMove_tall_grid_throws :
  ¬ (∀ (h : Heap) (b : nat) (g : list (list Color)) (m : Move),
       deref h b = Some (of_board g) → in_bounds g m →
       ∃ newBoard violation, (playMove_h b m h).2 = Ok (newBoard, violation)).
Proof.
  intros Hclaim.
  destruct (Hclaim [ORow (of_row [Grey]); ORow (of_row [Grey]); OBoard [0; 1]] 2
              [[Grey]; [Grey]] {| color := Grey; row := 0; column := 0 |})
    as (newBoard & violation & Hret).
  - reflexivity.
  - unfold in_bounds. simpl. by eexists.
  - vm_compute in Hret. discriminate Hret.
Qed.

(** What the call gives there, on values and on the store; the argument is
    still what it was. *)
Lemma playMove_tall_grid_result :
  playMove (of_board [[Grey]; [Grey]]) {| color := Grey; row := 0; column := 0 |}
  = TypeError ∧
  let h := [ORow (of_row [Grey]); ORow (of_row [Grey]); OBoard [0; 1]] in
  let out := playMove_h 2 {| color := Grey; row := 0; column := 0 |} h in
  out.2 = TypeError ∧ deref out.1 2 = Some (of_board [[Grey]; [Grey]]).
Proof. by vm_compute. Qed.

(** C8, amended: [playMove] leaves every object the store held before the
    call unchanged, so the input grid reads the same afterwards, whether the
    call returns or throws; with a move inside the grid, a fresh board holds
    the input grid with the move's color at the targeted cell and every other
    cell as it was, and the call returns that board exactly when validating it
    returns, with the outcome of the validation; on a grid whose rows are at
    least as long as the grid has rows (every square grid is one) validation
    does not throw and the call returns. *)
Theorem playMove_frame (h : Heap) (b : nat) (g : list (list Color)) (m : Move) :
  deref h b = Some (of_board g) →
  let h' := (playMove_h b m h).1 in
  let result := (playMove_h b m h).2 in
  preserved h h' ∧
  deref h' b = Some (of_board g) ∧
  (in_bounds g m →
     let g' := set_cell g (row m) (column m) (color m) in
     let newBoard := length h + length g in
     h !! newBoard = None ∧
     deref h' newBoard = Some (of_board g') ∧
     result = (violation ← validateBoard (of_board g'); Ok (newBoard, violation)) ∧
     (wide g → ∃ violation, result = Ok (newBoard, violation)) ∧
     cell g' (row m) (column m) = Some (color m) ∧
     (∀ r c, (r, c) ≠ (row m, column m) → cell g' r c = cell g r c) ∧
     length g' = length g ∧
     (∀ violation, result = Ok (newBoard, violation) ↔
                   validateBoard (of_board g') = Ok violation) ∧
     (result = TypeError ↔ validateBoard (of_board g') = TypeError)).
Proof.
  intros Hd. simpl.
  pose proof (playMove_h_spec h b (of_board g) m Hd) as Hspec.
  rewrite cloneBoard_of_board, length_of_board in Hspec.
  assert (Hpres : preserved h (playMove_h b m h).1).
  { destruct (writeCell (of_board g) m) as [B'|].
    - destruct Hspec as (h' & Hpres & _ & ->). done.
    - rewrite Hspec. apply preserved_cloned. }
  split_and!; [done | by eapply deref_preserved |].
  intros Hin. rewrite writeCell_of_board in Hspec by done.
  destruct Hspec as (h' & _ & Hd' & ->). simpl.
  split_and!; try done.
  - apply lookup_ge_None_2. lia.
  - intros Hw.
    destruct (validateBoard_Ok (set_cell g (row m) (column m) (color m))) as [v ->];
      [by apply set_cell_wide|]. simpl. eauto.
  - rewrite cell_set_cell by done. by rewrite decide_True.
  - intros r c Hne. rewrite cell_set_cell by done.
    rewrite decide_False; [done|]. intros [-> ->]. done.
  - apply length_set_cell.
  - intros violation.
    destruct (validateBoard (of_board (set_cell g (row m) (column m) (color m))));
      simpl; split; intros [=]; by subst.
  - by destruct (validateBoard (of_board (set_cell g (row m) (column m) (color m)))).
Qed.

Lemma playMove_frame_witness :
  let h := [ORow (of_row [Grey; Red]); ORow (of_row [Blue; Grey]); OBoard [0; 1]] in
  let m := {| color := Red; row := 1; column := 1 |} in
  preserved h (playMove_h 2 m h).1 ∧
  deref (playMove_h 2 m h).1 2 = Some (of_board [[Grey; Red]; [Blue; Grey]]) ∧
  ∃ violation, (playMove_h 2 m h).2 = Ok (5, violation).
Proof.
  pose proof (playMove_frame
    [ORow (of_row [Grey; Red]); ORow (of_row [Blue; Grey]); OBoard [0; 1]] 2
    [[Grey; Red]; [Blue; Grey]] {| color := Red; row := 1; column := 1 |} eq_refl)
    as (Hpres & Hin & Hrest).
  split; [exact Hpres|]. split; [exact Hin|].
  destruct Hrest as (_ & _ & _ & Hret & _).
  - unfold in_bounds. simpl. eauto.
  - apply Hret. unfold wide. repeat constructor.
Defined.

(** ** Naive completion keeps grids of colors *)

Lemma length_replace_empty other cs : length (replace_empty other cs) = length cs.
Proof. unfold replace_empty. by rewrite length_fmap. Qed.

Lemma length_completeRow cs : length (completeRow cs) = length cs.
Proof. unfold completeRow. repeat case_decide; by rewrite ?length_replace_empty. Qed.

Lemma naiveAutocompleteRow_of_row cs :
  naiveAutocompleteRow (of_row cs) = of_row (completeRow cs).
Proof.
  unfold naiveAutocompleteRow, completeRow.
  rewrite countColors_of_row, length_of_row, !js_map_fillGrey_of_row, spread_of_row.
  simpl. by repeat case_decide.
Qed.

Lemma same_shape_length g g' : same_shape g g' → length g = length g'.
Proof. apply Forall2_length. Qed.

Lemma same_shape_refl g : same_shape g g.
Proof. unfold same_shape. induction g; by constructor. Qed.

Lemma same_shape_trans g1 g2 g3 : same_shape g1 g2 → same_shape g2 g3 → same_shape g1 g3.
Proof.
  unfold same_shape. intros H12 H23.
  eapply Forall2_trans; [|exact H12|exact H23]. simpl. intros ??? -> ->. done.
Qed.

Lemma same_shape_Forall (P : nat → Prop) g g' :
  same_shape g g' → Forall (λ line, P (length line)) g → Forall (λ line, P (length line)) g'.
Proof.
  unfold same_shape. induction 1 as [|l l' g g' Hl Hg IH]; [done|].
  intros Hall. apply Forall_cons in Hall as [Hp Hall].
  constructor; [by rewrite <- Hl | by apply IH].
Qed.

Lemma same_shape_wide g g' : same_shape g g' → wide g → wide g'.
Proof.
  intros Hs Hw. unfold wide in *. rewrite <- (same_shape_length _ _ Hs).
  by apply (same_shape_Forall (λ n, length g ≤ n) g g').
Qed.

Lemma writeColumn_of_board k (col : Row) (g : list (list Color)) :
  Forall (λ line, k < length line) g →
  (∀ i, i < length g → ∃ x, js_get col i = Col x) →
  imap (λ rowIndex r, js_set r k (js_get col rowIndex)) (of_board g)
  = of_board (imap (λ i line, <[k := color_of (js_get col i)]> line) g).
Proof.
  intros Hk Hcol. apply list_eq. intros i. unfold of_board.
  rewrite list_lookup_imap, !list_lookup_fmap, list_lookup_imap.
  destruct (g !! i) as [line|] eqn:Hline; simpl; [|done].
  destruct (Hcol i) as [x Hx]; [by eapply lookup_lt_Some|]. rewrite Hx. simpl.
  rewrite Forall_lookup in Hk. by rewrite js_set_of_row by (by eapply Hk).
Qed.

Lemma writeColumn_same_shape k (f : nat → Color) (g : list (list Color)) :
  same_shape g (imap (λ i line, <[k := f i]> line) g).
Proof.
  unfold same_shape. apply Forall2_same_length_lookup. split.
  - by rewrite length_imap.
  - intros i line line' Hl Hl'. rewrite list_lookup_imap, Hl in Hl'.
    simplify_eq/=. by rewrite length_insert.
Qed.

Lemma writeColumns_of_board (cols : list (nat * Row)) (g : list (list Color)) :
  Forall (λ kc, Forall (λ line, kc.1 < length line) g ∧
                ∀ i, i < length g → ∃ x, js_get (naiveAutocompleteRow kc.2) i = Col x)
         cols →
  ∃ g', foldl (λ nb '(columnIndex, col),
          imap (λ rowIndex r,
            js_set r columnIndex (js_get (naiveAutocompleteRow col) rowIndex)) nb)
        (of_board g) cols = of_board g' ∧ same_shape g g'.
Proof.
  revert g. induction cols as [|[k col] cols IH]; intros g Hcols.
  - exists g. split; [done | apply same_shape_refl].
  - apply Forall_cons in Hcols as [[Hk Hcol] Hcols]. simpl in Hk, Hcol.
    cbn [foldl]. rewrite writeColumn_of_board by done.
    set (g1 := imap (λ i line,
                 <[k := color_of (js_get (naiveAutocompleteRow col) i)]> line) g).
    assert (Hs : same_shape g g1) by apply writeColumn_same_shape.
    destruct (IH g1) as (g' & Hfold & Hs').
    { eapply Forall_impl; [exact Hcols|]. simpl. intros [k' col'] [Hk' Hcol'].
      simpl in *. split.
      - by apply (same_shape_Forall (λ n, k' < n) g g1).
      - by rewrite <- (same_shape_length _ _ Hs). }
    exists g'. split; [done|]. by eapply same_shape_trans.
Qed.

Lemma length_column_of g k :
  Forall (λ r, k < length r) g → length (column_of g k) = length g.
Proof.
  unfold column_of. induction 1 as [|r g Hr Hg IH]; [done|].
  destruct (lookup_lt_is_Some_2 r k Hr) as [c Hc]. simpl. rewrite Hc. simpl.
  f_equal. exact IH.
Qed.

Lemma naiveAutocompleteBoard_of_board (g : list (list Color)) :
  wide g →
  ∃ g', naiveAutocompleteBoard (of_board g) = of_board g' ∧ same_shape g g'.
Proof.
  intros Hw. unfold naiveAutocompleteBoard.
  rewrite naiveAutocompleteBoard_rows, cloneBoard_of_board.
  set (g1 := completeRow <$> g).
  assert (Hb1 : naiveAutocompleteRow <$> of_board g = of_board g1).
  { unfold of_board, g1. rewrite <- !list_fmap_compose. apply list_fmap_ext.
    intros _ cs _. simpl. apply naiveAutocompleteRow_of_row. }
  assert (Hs1 : same_shape g g1).
  { unfold same_shape, g1. apply Forall2_fmap_r, Forall_Forall2_diag.
    apply Forall_forall. intros cs _. simpl. by rewrite length_completeRow. }
  pose proof (same_shape_wide _ _ Hs1 Hw) as Hw1.
  rewrite Hb1, (columns_of_board _ Hw1).
  destruct (writeColumns_of_board (imap pair (of_row <$> columns_of g1)) g1)
    as (g' & Hfold & Hs').
  { apply Forall_lookup. intros j [k col] Hj. rewrite list_lookup_imap in Hj.
    unfold columns_of in Hj. rewrite !list_lookup_fmap in Hj.
    destruct (seq 0 (length g1) !! j) as [k'|] eqn:Hseq; simplify_eq/=.
    apply lookup_seq in Hseq as [-> Hlt]. simpl.
    assert (Hcol : Forall (λ r, k < length r) g1).
    { eapply Forall_impl; [exact Hw1|]. simpl. intros r Hr. lia. }
    split; [done|]. intros i Hi. rewrite naiveAutocompleteRow_of_row, js_get_of_row.
    destruct (lookup_lt_is_Some_2 (completeRow (column_of g1 k)) i) as [x ->];
      [|by eauto].
    by rewrite length_completeRow, length_column_of. }
  exists g'. split; [done|]. by eapply same_shape_trans.
Qed.

(** ** The finder on grids of colors *)

Lemma probeCell_Ok g r c :
  wide g → cell g r c = Some Grey → ∃ o, probeCell (of_board g) r c = Ok o.
Proof.
  intros Hw Hcell. unfold probeCell.
  assert (Hin : ∀ col, in_bounds g {| color := col; row := r; column := c |})
    by (intros col; unfold in_bounds; simpl; by rewrite Hcell).
  assert (Hcompl : ∀ col, ∃ v, validateBoard (naiveAutocompleteBoard
            (of_board (set_cell g r c col))) = Ok v).
  { intros col.
    destruct (naiveAutocompleteBoard_of_board (set_cell g r c col))
      as (g' & -> & Hs); [by apply set_cell_wide|].
    apply validateBoard_Ok. eapply same_shape_wide; [exact Hs|].
    by apply set_cell_wide. }
  destruct (playMove_of_board g _ Hw (Hin Red)) as [v1 ->]. simpl.
  destruct (Hcompl Red) as [[rv|] ->]; simpl; [eauto|].
  destruct (playMove_of_board g _ Hw (Hin Blue)) as [v2 ->]. simpl.
  destruct (Hcompl Blue) as [[bv|] ->]; simpl; eauto.
Qed.

Lemma findMoveByNegation_Ok g :
  wide g → ∃ o, findMoveByNegation (of_board g) = Ok o.
Proof.
  intros Hw. unfold findMoveByNegation, rows. apply for_entries_exc_Ok.
  intros r x Hr. unfold of_board in Hr. rewrite list_lookup_fmap in Hr.
  destruct (g !! r) as [line|] eqn:Hline; simplify_eq/=.
  unfold findMoveInRow. apply for_entries_exc_Ok.
  intros c v Hc. rewrite entries_of_row, list_lookup_fmap in Hc.
  destruct (line !! c) as [col|] eqn:Hcol; simplify_eq/=.
  case_decide as Hgrey; [eauto|].
  apply probeCell_Ok; [done|]. apply cell_Some. exists line. split; [done|].
  destruct col; try done; destruct Hgrey; done.
Qed.

Lemma findMoveByNegation_in_bounds g fm :
  findMoveByNegation (of_board g) = Ok (Some fm) → in_bounds g fm.1.
Proof.
  intros Hfind. apply findMoveByNegation_Some in Hfind as (r & c & Hcell & Hprobe & _).
  apply (proj1 (probeCell_spec _ _ _)) in Hprobe
    as [(v & -> & _) | (v & -> & _)]; unfold in_bounds; simpl; by rewrite Hcell.
Qed.

(** C3: the finder returns the decision of the first empty cell, in
    row-major order, whose probe decides, and returns none exactly when the
    probe of every empty cell is undecided; a probe decides for Blue with the
    violation found after completing the Red candidate, and otherwise for Red
    with the violation found after completing the Blue candidate; on a grid
    whose columns all lie inside it (every square grid) the finder returns and
    does not throw. *)
Theorem findMoveByNegation_spec (g : list (list Color)) :
  (∀ fm, findMoveByNegation (of_board g) = Ok (Some fm) ↔
     ∃ r c, cell g r c = Some Grey ∧ probeCell (of_board g) r c = Ok (Some fm) ∧
       ∀ r' c', before (r', c') (r, c) → cell g r' c' = Some Grey →
                probeCell (of_board g) r' c' = Ok None) ∧
  (findMoveByNegation (of_board g) = Ok None ↔
     ∀ r c, cell g r c = Some Grey → probeCell (of_board g) r c = Ok None) ∧
  (∀ r c,
     let redMove := {| color := Red; row := r; column := c |} in
     let blueMove := {| color := Blue; row := r; column := c |} in
     (∀ v, violationAfterCompletion (of_board g) redMove = Ok (Some v) →
           probeCell (of_board g) r c = Ok (Some (blueMove, v))) ∧
     (∀ v, violationAfterCompletion (of_board g) redMove = Ok None →
           violationAfterCompletion (of_board g) blueMove = Ok (Some v) →
           probeCell (of_board g) r c = Ok (Some (redMove, v))) ∧
     (violationAfterCompletion (of_board g) redMove = Ok None →
      violationAfterCompletion (of_board g) blueMove = Ok None →
      probeCell (of_board g) r c = Ok None)) ∧
  (wide g → ∃ o, findMoveByNegation (of_board g) = Ok o).
Proof.
  split_and!.
  - intros fm. apply findMoveByNegation_Some.
  - apply findMoveByNegation_None.
  - intros r c. pose proof (probeCell_spec (of_board g) r c) as [Hsome Hnone].
    simpl in *. split_and!.
    + intros v Hred. apply Hsome. left. eauto.
    + intros v Hred Hblue. apply Hsome. right. eauto.
    + intros Hred Hblue. by apply Hnone.
  - apply findMoveByNegation_Ok.
Qed.

Lemma findMoveByNegation_spec_witness :
  probeCell (of_board [[Grey; Red; Red]; [Blue; Grey; Grey]; [Grey; Grey; Blue]]) 0 0
  = Ok (Some ({| color := Blue; row := 0; column := 0 |},
              ThriceRepetition OfRows 0 (0, 1, 2) (Col Red))).
Proof.
  apply (proj1 (proj1 (proj2 (proj2 (findMoveByNegation_spec
    [[Grey; Red; Red]; [Blue; Grey; Grey]; [Grey; Grey; Blue]]))) 0 0)).
  reflexivity.
Defined.

(** ** Iterative solver *)

Lemma solveStep_Continue bound st st' :
  solveStep bound st = Ok (Continue st') →
  ∃ fm, nextMove st = Some fm ∧ moveCount st < bound ∧
        moves st' = moves st ++ [fm] ∧ moveCount st' = S (moveCount st) ∧
        playMove (currentBoard st) fm.1 = Ok (currentBoard st', None) ∧
        findMoveByNegation (currentBoard st') = Ok (nextMove st').
Proof.
  unfold solveStep. destruct (nextMove st) as [fm|]; [|done].
  case_decide as Hlt; [|done].
  destruct (playMove (currentBoard st) fm.1) as [[nb [v|]]|] eqn:Hplay; simpl; [done| |done].
  destruct (findMoveByNegation nb) as [next|] eqn:Hnext; simpl; [|done].
  intros [= <-]. exists fm. simpl. done.
Qed.

Lemma solveStep_Return bound st res :
  solveStep bound st = Ok (Return res) →
  (board res = currentBoard st ∧ resultMoves res = moves st ∧
   unexpectedViolation res = None ∧ (nextMove st = None ∨ bound ≤ moveCount st)) ∨
  (∃ fm v, nextMove st = Some fm ∧ moveCount st < bound ∧
           resultMoves res = moves st ++ [fm] ∧ unexpectedViolation res = Some v ∧
           playMove (currentBoard st) fm.1 = Ok (board res, Some v)).
Proof.
  unfold solveStep. destruct (nextMove st) as [fm|].
  - case_decide as Hlt.
    + destruct (playMove (currentBoard st) fm.1) as [[nb [v|]]|] eqn:Hplay; simpl.
      * intros [= <-]. right. exists fm, v. simpl. done.
      * destruct (findMoveByNegation nb); simpl; done.
      * done.
    + intros [= <-]. left. simpl. split_and!; try done. right. lia.
  - intros [= <-]. left. simpl. auto.
Qed.

(** The loop is left within [bound - moveCount + 1] steps. *)
Lemma solveLoop_terminates fuel bound st :
  bound - moveCount st < fuel → ∃ out, solveLoop fuel bound st = Some out.
Proof.
  revert st. induction fuel as [|fuel IH]; intros st Hfuel; [lia|].
  simpl. destruct (solveStep bound st) as [[st'|res]|] eqn:Hstep; [|eauto..].
  apply solveStep_Continue in Hstep as (fm & _ & Hlt & _ & Hcount & _).
  apply IH. lia.
Qed.

Lemma solveLoop_result b0 fuel bound st res :
  solveLoop fuel bound st = Some (Ok res) →
  forced_chain b0 (moves st) (currentBoard st) →
  findMoveByNegation (currentBoard st) = Ok (nextMove st) →
  moveCount st = length (moves st) →
  moveCount st ≤ bound →
  length (resultMoves res) ≤ bound ∧
  (∀ v, unexpectedViolation res = Some v →
     ∃ ms fm prev, resultMoves res = ms ++ [fm] ∧ forced_chain b0 ms prev ∧
       findMoveByNegation prev = Ok (Some fm) ∧
       playMove prev fm.1 = Ok (board res, Some v)) ∧
  (unexpectedViolation res = None →
     forced_chain b0 (resultMoves res) (board res) ∧
     (findMoveByNegation (board res) = Ok None ∨ length (resultMoves res) = bound)).
Proof.
  revert st. induction fuel as [|fuel IH]; intros st Hrun Hchain Hnext Hcount Hle; [done|].
  simpl in Hrun. destruct (solveStep bound st) as [[st'|res']|] eqn:Hstep; [| |done].
  - apply solveStep_Continue in Hstep
      as (fm & Hfm & Hlt & Hmoves & Hcount' & Hplay & Hnext').
    apply (IH st'); try done.
    + rewrite Hmoves. eapply chain_snoc; [exact Hchain| |exact Hplay].
      by rewrite Hnext, Hfm.
    + rewrite Hcount', Hmoves, length_app. simpl. lia.
    + lia.
  - simplify_eq. apply solveStep_Return in Hstep
      as [(Hb & Hm & Hv & Hstop) | (fm & v & Hfm & Hlt & Hm & Hv & Hplay)].
    + rewrite Hb, Hm, Hv. split_and!; [lia|done|].
      intros _. split; [done|]. destruct Hstop as [Hnone | Hge].
      * left. by rewrite Hnext, Hnone.
      * right. lia.
    + rewrite Hm, Hv. split_and!.
      * rewrite length_app. simpl. lia.
      * intros v' [= <-]. exists (moves st), fm, (currentBoard st).
        split_and!; try done. by rewrite Hnext, Hfm.
      * done.
Qed.

Lemma solveLoop_Ok g fuel bound st :
  currentBoard st = of_board g → wide g →
  findMoveByNegation (currentBoard st) = Ok (nextMove st) →
  bound - moveCount st < fuel →
  ∃ res, solveLoop fuel bound st = Some (Ok res).
Proof.
  revert g st. induction fuel as [|fuel IH]; intros g st Hb Hw Hnext Hfuel; [lia|].
  simpl. unfold solveStep. destruct (nextMove st) as [fm|] eqn:Hfm; [|eauto].
  case_decide as Hlt; [|eauto].
  rewrite Hb in Hnext |- *.
  pose proof (findMoveByNegation_in_bounds _ _ Hnext) as Hin.
  destruct (playMove_of_board g fm.1 Hw Hin) as [v ->]. simpl.
  destruct v as [v|]; [eauto|].
  pose proof (set_cell_wide g (row fm.1) (column fm.1) (color fm.1) Hw) as Hw'.
  destruct (findMoveByNegation_Ok _ Hw') as [next Hnext']. rewrite Hnext'. simpl.
  eapply IH; simpl; [done..|lia].
Qed.

(** C7: [trySolveByNegation] leaves its loop within [board.length ** 2 + 1]
    loop tests, whatever the grid holds, and records at most
    [board.length ** 2] moves; the moves recorded are, in order, what the
    finder returned on the successive grids; the run ends without violation
    only when the finder returns none on the final grid or the bound is
    reached, and ends with a violation exactly when applying the last
    recorded move produced it, the returned grid being the one after that
    application; on grids of colors whose columns lie inside the grid (every
    square grid) the run ends in a result, not in a fault. *)
Theorem trySolveByNegation_terminates (g : list (list Color)) :
  (∀ fuel, length g ^ 2 < fuel →
     ∃ out, trySolveByNegation fuel (of_board g) = Some out) ∧
  (∀ fuel res, trySolveByNegation fuel (of_board g) = Some (Ok res) →
     length (resultMoves res) ≤ length g ^ 2 ∧
     (∀ v, unexpectedViolation res = Some v →
        ∃ ms fm prev, resultMoves res = ms ++ [fm] ∧
          forced_chain (of_board g) ms prev ∧
          findMoveByNegation prev = Ok (Some fm) ∧
          playMove prev fm.1 = Ok (board res, Some v)) ∧
     (unexpectedViolation res = None →
        forced_chain (of_board g) (resultMoves res) (board res) ∧
        (findMoveByNegation (board res) = Ok None ∨
         length (resultMoves res) = length g ^ 2))) ∧
  (wide g → ∀ fuel, length g ^ 2 < fuel →
     ∃ res, trySolveByNegation fuel (of_board g) = Some (Ok res)).
Proof.
  unfold trySolveByNegation, solveInit.
  rewrite cloneBoard_of_board, length_of_board. split_and!.
  - intros fuel Hfuel.
    destruct (findMoveByNegation (of_board g)) as [next|]; cbn -[Nat.pow]; [|eauto].
    apply solveLoop_terminates. cbn [moveCount]. lia.
  - intros fuel res.
    destruct (findMoveByNegation (of_board g)) as [next|] eqn:Hnext; cbn -[Nat.pow]; [|done].
    intros Hrun. eapply solveLoop_result; [exact Hrun|..];
      cbn [moves currentBoard nextMove moveCount length]; try done.
    + constructor.
    + lia.
  - intros Hw fuel Hfuel.
    destruct (findMoveByNegation_Ok g Hw) as [next Hnext]. rewrite Hnext. cbn -[Nat.pow].
    eapply (solveLoop_Ok g); cbn [currentBoard nextMove moveCount]; [done..|lia].
Qed.

Lemma trySolveByNegation_terminates_witness :
  ∃ res,
    trySolveByNegation 17
      (of_board [[Grey; Grey; Red; Grey]; [Grey; Red; Grey; Grey];
                 [Grey; Grey; Grey; Blue]; [Blue; Grey; Grey; Grey]])
    = Some (Ok res).
Proof.
  apply (proj2 (proj2 (trySolveByNegation_terminates
    [[Grey; Grey; Red; Grey]; [Grey; Red; Grey; Grey];
     [Grey; Grey; Grey; Blue]; [Blue; Grey; Grey; Grey]]))).
  - unfold wide. repeat constructor.
  - vm_compute. lia.
Defined.

(** * Further properties of the code *)

(** ** Columns *)

Lemma read_columns (b : Board) k i :
  k < length b → read (columns b) k i = read b i k.
Proof.
  intros Hk. unfold read at 1. rewrite columns_lookup by done.
  rewrite js_get_column. done.
Qed.

Lemma columns_of_square g : square g → square (columns_of g).
Proof.
  intros Hsq. unfold square, columns_of. rewrite length_fmap, length_seq.
  apply Forall_fmap, Forall_forall. intros k Hk. simpl.
  apply elem_of_seq in Hk as [_ Hk]. apply length_column_of.
  eapply Forall_impl; [exact Hsq|]. simpl. intros r ->. lia.
Qed.

Lemma columns_of_involutive g : square g → columns_of (columns_of g) = g.
Proof.
  intros Hsq. pose proof (columns_of_square g Hsq) as Hsq'.
  assert (Hlen : length (columns_of g) = length g)
    by (unfold columns_of; by rewrite length_fmap, length_seq).
  apply list_eq. intros i.
  destruct (decide (i < length g)) as [Hi|Hi].
  2:{ rewrite (lookup_ge_None_2 g) by lia. apply lookup_ge_None_2.
      unfold columns_of at 1. rewrite length_fmap, length_seq. lia. }
  destruct (lookup_lt_is_Some_2 g i Hi) as [line Hline]. rewrite Hline.
  unfold columns_of at 1. rewrite list_lookup_fmap, lookup_seq_lt by lia.
  simpl. f_equal. apply list_eq. intros j.
  rewrite column_of_lookup.
  2:{ eapply Forall_impl; [exact Hsq'|]. simpl. intros r ->. lia. }
  unfold cell. destruct (decide (j < length g)) as [Hj|Hj].
  - unfold columns_of. rewrite list_lookup_fmap, lookup_seq_lt by done. simpl.
    rewrite column_of_lookup.
    2:{ eapply Forall_impl; [exact Hsq|]. simpl. intros r ->. lia. }
    unfold cell. by rewrite Hline.
  - rewrite lookup_ge_None_2 by lia. simpl. symmetry. apply lookup_ge_None_2.
    unfold square in Hsq. rewrite Forall_lookup in Hsq.
    rewrite (Hsq _ _ Hline). lia.
Qed.

(** X1: reading [columns(board)] at ([k], [i]) gives what reading the board
    at ([i], [k]) gives, for each of the [board.length] columns built; there
    are [board.length] columns, each of [board.length] cells; on a square
    grid, taking columns twice gives the grid back. *)
Theorem columns_transpose :
  (∀ (b : Board) k i, k < length b → read (columns b) k i = read b i k) ∧
  (∀ b : Board, length (columns b) = length b ∧
                Forall (λ col, length col = length b) (columns b)) ∧
  (∀ g : list (list Color), square g →
     columns (columns (of_board g)) = of_board g).
Proof.
  split_and!.
  - apply read_columns.
  - intros b. split; [apply length_columns|]. unfold columns.
    apply Forall_fmap, Forall_forall. intros k _. simpl. by rewrite length_fmap.
  - intros g Hsq. rewrite (columns_of_board g (square_wide _ Hsq)).
    change (of_row <$> columns_of g) with (of_board (columns_of g)).
    rewrite (columns_of_board _ (square_wide _ (columns_of_square _ Hsq))).
    by rewrite columns_of_involutive.
Qed.

Lemma columns_transpose_witness :
  read (columns (of_board [[Red; Blue]; [Grey; Red]])) 1 0 = Col Blue ∧
  columns (columns (of_board [[Red; Blue]; [Grey; Red]]))
  = of_board [[Red; Blue]; [Grey; Red]].
Proof.
  split.
  - rewrite (proj1 columns_transpose (of_board [[Red; Blue]; [Grey; Red]]) 1 0).
    + reflexivity.
    + simpl. lia.
  - apply (proj2 (proj2 columns_transpose) [[Red; Blue]; [Grey; Red]]).
    unfold square. repeat constructor.
Defined.

(** ** Position vectors and counts on arbitrary arrays *)

Lemma positionVectors_from_throws i (row : Row) acc :
  Some Undefined ∈ row → positionVectors_from i row acc = TypeError.
Proof.
  revert i acc. induction row as [|[[c|]|] row IH]; intros i acc Hin; simpl.
  - by apply elem_of_nil in Hin.
  - apply IH. apply elem_of_cons in Hin as [[=]|Hin]; done.
  - done.
  - apply IH. apply elem_of_cons in Hin as [[=]|Hin]; done.
Qed.

Lemma positionVectors_from_returns i (row : Row) acc :
  Some Undefined ∉ row →
  positionVectors_from i row acc =
  Ok {| pvRed := pvRed acc ++
          filter (λ j, row !! (j - i) = Some (Some (Col Red))) (seq i (length row));
        pvBlue := pvBlue acc ++
          filter (λ j, row !! (j - i) = Some (Some (Col Blue))) (seq i (length row));
        pvGrey := pvGrey acc ++
          filter (λ j, row !! (j - i) = Some (Some (Col Grey))) (seq i (length row)) |}.
Proof.
  revert i acc. induction row as [|s row IH]; intros i acc Hnot.
  - simpl. rewrite !app_nil_r. by destruct acc.
  - assert (Hshift : ∀ c,
      filter (λ j, (s :: row) !! (j - i) = Some (Some (Col c))) (seq (S i) (length row))
      = filter (λ j, row !! (j - S i) = Some (Some (Col c))) (seq (S i) (length row))).
    { intros c. apply filter_seq_ext. intros j Hj.
      replace (j - i) with (S (j - S i)) by lia. done. }
    assert (Hrow : Some Undefined ∉ row) by (intros ?; apply Hnot; by right).
    cbn [length seq]. rewrite !filter_cons, Nat.sub_diag, !Hshift.
    cbn [lookup list_lookup].
    destruct s as [[c|]|]; cbn [positionVectors_from].
    + rewrite IH by done. destruct c; simpl; repeat case_decide; try congruence;
        by rewrite <- ?app_assoc.
    + destruct Hnot. by left.
    + rewrite IH by done. repeat case_decide; first [congruence | done].
Qed.

Lemma slot_positions_alt c (row : Row) :
  filter (λ j, row !! (j - 0) = Some (Some (Col c))) (seq 0 (length row))
  = slot_positions c row.
Proof. apply filter_seq_ext. intros j _. by rewrite Nat.sub_0_r. Qed.

Lemma elem_of_slot_positions c (row : Row) i :
  i ∈ slot_positions c row ↔ row !! i = Some (Some (Col c)).
Proof.
  unfold slot_positions. rewrite list_elem_of_filter, elem_of_seq. split.
  - by intros [? _].
  - intros Hi. split; [done|]. apply lookup_lt_Some in Hi. lia.
Qed.

Lemma seq_StronglySorted i n : StronglySorted lt (seq i n).
Proof.
  revert i. induction n as [|n IH]; intros i; simpl; constructor; [apply IH|].
  apply Forall_forall. intros j Hj. apply elem_of_seq in Hj. lia.
Qed.

Lemma filter_StronglySorted {A} (R : relation A) (P : A → Prop)
    `{∀ x, Decision (P x)} (l : list A) :
  StronglySorted R l → StronglySorted R (filter P l).
Proof.
  induction 1 as [|x l Hs IH Hall]; [constructor|].
  rewrite filter_cons. case_decide; [|done]. constructor; [done|].
  apply Forall_forall. intros y Hy. apply list_elem_of_filter in Hy as [_ Hy].
  rewrite Forall_forall in Hall. by apply Hall.
Qed.

Lemma slot_positions_sorted c (row : Row) : StronglySorted lt (slot_positions c row).
Proof. unfold slot_positions. apply filter_StronglySorted, seq_StronglySorted. Qed.

(** X2: [positionVectors] throws exactly when the array holds an
    [undefined] element (a hole is skipped); otherwise each of the three
    vectors lists, in ascending order, exactly the indices holding its
    color. *)
Theorem positionVectors_spec (row : Row) :
  (positionVectors row = TypeError ↔ Some Undefined ∈ row) ∧
  (∀ pv, positionVectors row = Ok pv →
     pv = {| pvRed := slot_positions Red row; pvBlue := slot_positions Blue row;
             pvGrey := slot_positions Grey row |} ∧
     StronglySorted lt (pvRed pv) ∧ StronglySorted lt (pvBlue pv) ∧
     StronglySorted lt (pvGrey pv) ∧
     (∀ c i, i ∈ match c with Red => pvRed pv | Blue => pvBlue pv | Grey => pvGrey pv end
             ↔ row !! i = Some (Some (Col c)))).
Proof.
  unfold positionVectors.
  destruct (decide (Some Undefined ∈ row)) as [Hin|Hnot].
  - rewrite positionVectors_from_throws by done. split; [done|]. intros pv [=].
  - rewrite positionVectors_from_returns by done. simpl.
    rewrite !slot_positions_alt. split; [split; [done|by intros ?]|].
    intros pv [= <-]. simpl. split_and!; [done|apply slot_positions_sorted..|].
    intros [] i; apply elem_of_slot_positions.
Qed.

Lemma positionVectors_spec_witness :
  positionVectors [Some (Col Red); None; Some Undefined] = TypeError ∧
  StronglySorted lt [0; 3].
Proof.
  split.
  - apply (proj1 (positionVectors_spec [Some (Col Red); None; Some Undefined])).
    do 2 right. by left.
  - apply (proj2 (positionVectors_spec
      [Some (Col Red); None; Some (Col Blue); Some (Col Red)])
      {| pvRed := [0; 3]; pvBlue := [2]; pvGrey := [] |}).
    reflexivity.
Defined.

Lemma countColors_slot_positions (row : Row) :
  countColors row =
  {| cRed := length (slot_positions Red row); cBlue := length (slot_positions Blue row);
     cGrey := length (slot_positions Grey row) |}.
Proof.
  unfold countColors.
  assert (H : ∀ i acc,
    foldl (λ totals slot,
      match slot with
      | Some (Col Red) => {| cRed := cRed totals + 1; cBlue := cBlue totals; cGrey := cGrey totals |}
      | Some (Col Blue) => {| cRed := cRed totals; cBlue := cBlue totals + 1; cGrey := cGrey totals |}
      | Some (Col Grey) => {| cRed := cRed totals; cBlue := cBlue totals; cGrey := cGrey totals + 1 |}
      | Some Undefined | None => totals
      end) acc row =
    {| cRed := cRed acc + length (filter (λ j, row !! (j - i) = Some (Some (Col Red)))
                                   (seq i (length row)));
       cBlue := cBlue acc + length (filter (λ j, row !! (j - i) = Some (Some (Col Blue)))
                                     (seq i (length row)));
       cGrey := cGrey acc + length (filter (λ j, row !! (j - i) = Some (Some (Col Grey)))
                                     (seq i (length row))) |}).
  { induction row as [|s row IH]; intros i acc.
    - simpl. rewrite !Nat.add_0_r. by destruct acc.
    - assert (Hshift : ∀ c,
        filter (λ j, (s :: row) !! (j - i) = Some (Some (Col c))) (seq (S i) (length row))
        = filter (λ j, row !! (j - S i) = Some (Some (Col c))) (seq (S i) (length row))).
      { intros c. apply filter_seq_ext. intros j Hj.
        replace (j - i) with (S (j - S i)) by lia. done. }
      cbn [length seq foldl]. rewrite !filter_cons, Nat.sub_diag, !Hshift.
      cbn [lookup list_lookup]. rewrite (IH (S i)).
      destruct s as [[[]|]|]; simpl; repeat case_decide; try congruence;
        simpl; f_equal; lia. }
  rewrite (H 0). simpl. by rewrite !slot_positions_alt.
Qed.

Lemma slot_positions_total (row : Row) :
  length (slot_positions Red row) + length (slot_positions Blue row)
  + length (slot_positions Grey row) ≤ length row.
Proof.
  unfold slot_positions.
  assert (H : ∀ (l : list nat),
    length (filter (λ i, row !! i = Some (Some (Col Red))) l)
    + length (filter (λ i, row !! i = Some (Some (Col Blue))) l)
    + length (filter (λ i, row !! i = Some (Some (Col Grey))) l) ≤ length l).
  { induction l as [|x l IH]; [done|]. rewrite !filter_cons.
    repeat case_decide; simpl; try congruence; lia. }
  specialize (H (seq 0 (length row))). by rewrite length_seq in H.
Qed.

(** X3: the counts of [countColors] are the lengths of the vectors of
    [positionVectors] whenever that returns, on arrays with holes too; the
    three counts never add up to more than the array's length, and add up to
    it on an array of colors. *)
Theorem countColors_positionVectors (row : Row) :
  (∀ pv, positionVectors row = Ok pv →
     cRed (countColors row) = length (pvRed pv) ∧
     cBlue (countColors row) = length (pvBlue pv) ∧
     cGrey (countColors row) = length (pvGrey pv)) ∧
  cRed (countColors row) + cBlue (countColors row) + cGrey (countColors row)
    ≤ length row ∧
  (∀ cs, row = of_row cs →
     cRed (countColors row) + cBlue (countColors row) + cGrey (countColors row)
     = length row).
Proof.
  split_and!.
  - intros pv Hpv. destruct (decide (Some Undefined ∈ row)) as [Hin|Hnot].
    + unfold positionVectors in Hpv. by rewrite positionVectors_from_throws in Hpv.
    + unfold positionVectors in Hpv. rewrite positionVectors_from_returns in Hpv by done.
      simpl in Hpv. rewrite !slot_positions_alt in Hpv. simplify_eq. simpl.
      by rewrite countColors_slot_positions.
  - rewrite countColors_slot_positions. simpl. apply slot_positions_total.
  - intros cs ->. rewrite countColors_of_row, length_of_row. simpl.
    apply count_total.
Qed.

Lemma countColors_positionVectors_witness :
  cRed (countColors [Some (Col Red); None; Some (Col Red)]) = 2.
Proof.
  apply (proj1 (countColors_positionVectors [Some (Col Red); None; Some (Col Red)])
    {| pvRed := [0; 2]; pvBlue := []; pvGrey := [] |}).
  reflexivity.
Defined.

(** ** Over-saturation of a grid *)

Lemma findOverSaturationRow_None cs :
  findOverSaturationRow (of_row cs) = Ok None ↔ balanced cs.
Proof.
  rewrite findOverSaturationRow_of_row. unfold balanced, active.
  pose proof (count_total cs) as Htot. repeat case_decide; split; try done.
  - intros HC. specialize (HC Red (or_introl eq_refl)). lia.
  - intros HC. specialize (HC Blue (or_intror eq_refl)). lia.
  - intros _ C [-> | ->]; lia.
Qed.

Lemma findOverSaturationRow_Some cs pv C :
  findOverSaturationRow (of_row cs) = Ok (Some (pv, C)) ↔
  saturated C cs ∧ pv = positions_of C cs.
Proof.
  rewrite findOverSaturationRow_of_row. unfold saturated, active.
  pose proof (count_total cs) as Htot. repeat case_decide; split.
  all: try (intros [= <- <-]; split; [split; [by auto|lia]|done]).
  all: try (intros [[[-> | ->] Hlt] ->]; first [done | lia]).
  all: try (intros [=]).
Qed.

Lemma findOverSaturationLines_None kind (ls : list (list Color)) :
  findOverSaturationLines kind (of_row <$> ls) = Ok None ↔ Forall balanced ls.
Proof.
  unfold findOverSaturationLines. rewrite for_entries_exc_None, Forall_lookup. split.
  - intros H k cs Hk. specialize (H k (of_row cs)).
    rewrite list_lookup_fmap, Hk in H. specialize (H eq_refl). simpl in H.
    apply findOverSaturationRow_None.
    destruct (findOverSaturationRow (of_row cs)) as [[[pv C]|]|]; by simplify_eq/=.
  - intros H k x Hk. rewrite list_lookup_fmap in Hk.
    destruct (ls !! k) as [cs|] eqn:Hcs; simplify_eq/=.
    by rewrite (proj2 (findOverSaturationRow_None cs) (H _ _ Hcs)).
Qed.

Lemma findOverSaturationLines_Some kind (ls : list (list Color)) v :
  findOverSaturationLines kind (of_row <$> ls) = Ok (Some v) ↔
  ∃ k cs C, ls !! k = Some cs ∧ saturated C cs ∧
    v = OverSaturation kind k (positions_of C cs) C ∧
    Forall balanced (take k ls).
Proof.
  unfold findOverSaturationLines. rewrite for_entries_exc_Some. split.
  - intros (k & x & Hk & Hbody & Hbefore). rewrite list_lookup_fmap in Hk.
    destruct (ls !! k) as [cs|] eqn:Hcs; simplify_eq/=.
    destruct (findOverSaturationRow (of_row cs)) as [[[pv C]|]|] eqn:Hrow;
      simplify_eq/=.
    apply findOverSaturationRow_Some in Hrow as [Hsat ->].
    exists k, cs, C. split_and!; [done..|].
    apply Forall_lookup. intros k' cs' Hk'.
    apply lookup_take_Some in Hk' as [Hk' Hlt].
    specialize (Hbefore k' (of_row cs') Hlt).
    rewrite list_lookup_fmap, Hk' in Hbefore. specialize (Hbefore eq_refl).
    simpl in Hbefore. apply findOverSaturationRow_None.
    destruct (findOverSaturationRow (of_row cs')) as [[[pv' C']|]|]; by simplify_eq/=.
  - intros (k & cs & C & Hk & Hsat & -> & Hbefore).
    exists k, (of_row cs). rewrite list_lookup_fmap, Hk. simpl. split_and!; [done| |].
    + by rewrite (proj2 (findOverSaturationRow_Some cs _ C) (conj Hsat eq_refl)).
    + intros k' x' Hlt Hk'. rewrite list_lookup_fmap in Hk'.
      destruct (ls !! k') as [cs'|] eqn:Hcs'; simplify_eq/=.
      rewrite Forall_lookup in Hbefore.
      assert (balanced cs') as Hbal.
      { apply (Hbefore k'). apply lookup_take_Some. done. }
      by rewrite (proj2 (findOverSaturationRow_None cs') Hbal).
Qed.

(** X4: on a grid whose rows are at least as long as the grid has rows,
    [findOverSaturation] looks at the rows and at the first [board.length]
    columns, which are all the columns on a square grid and not on a wider
    one.  It finds nothing exactly when no row and none of these columns has
    an active color on more than half of its cells; what it reports is the
    first such row, or, when no row is one, the first such column among
    these, with the color and the ascending list of that color's positions in
    the line. *)
Theorem findOverSaturation_spec (g : list (list Color)) :
  wide g →
  (findOverSaturation (of_board g) = Ok None ↔
     Forall balanced g ∧ Forall balanced (columns_of g)) ∧
  (∀ v, findOverSaturation (of_board g) = Ok (Some v) ↔
     (∃ r cs C, g !! r = Some cs ∧ saturated C cs ∧
        v = OverSaturation OfRows r (positions_of C cs) C ∧
        Forall balanced (take r g)) ∨
     (∃ k cs C, columns_of g !! k = Some cs ∧ saturated C cs ∧
        v = OverSaturation OfColumns k (positions_of C cs) C ∧
        Forall balanced g ∧ Forall balanced (take k (columns_of g)))).
Proof.
  intros Hw. unfold findOverSaturation, rows. rewrite (columns_of_board _ Hw).
  change (of_board g) with (of_row <$> g).
  pose proof (findOverSaturationLines_None OfRows g) as Hnone.
  pose proof (λ v, findOverSaturationLines_Some OfRows g v) as Hsome.
  destruct (findOverSaturationLines OfRows (of_row <$> g)) as [[v0|]|] eqn:Hrows; simpl.
  - destruct (proj1 (Hsome v0) eq_refl) as (r & cs & C & Hr & Hsat & -> & Hbefore).
    assert (Hnb : ¬ Forall balanced g).
    { intros Hall. by apply Hnone in Hall. }
    split; [split; [done | by intros [? _]]|].
    intros v. split.
    + intros [= <-]. left. by exists r, cs, C.
    + intros [Hv | (k & cs' & C' & _ & _ & _ & Hall & _)]; [|done].
      destruct Hv as (r' & cs' & C' & Hr' & Hsat' & -> & Hbefore').
      apply (proj2 (Hsome _)). by exists r', cs', C'.
  - assert (Hall : Forall balanced g) by (by apply Hnone).
    rewrite findOverSaturationLines_None. split; [split; [by auto | by intros [_ ?]]|].
    intros v. rewrite findOverSaturationLines_Some. split.
    + intros (k & cs & C & Hk & Hsat & -> & Hbefore). right. by exists k, cs, C.
    + intros [(r & cs & C & Hr & Hsat & -> & Hbefore) | Hv].
      * assert (Ok None = Ok (Some (OverSaturation OfRows r (positions_of C cs) C)))
          as Habs; [|done].
        apply (proj2 (Hsome _)). by exists r, cs, C.
      * destruct Hv as (k & cs & C & Hk & Hsat & -> & _ & Hbefore). by exists k, cs, C.
  - destruct (findOverSaturationLines_Ok OfRows g) as [r Hr]. congruence.
Qed.

Lemma findOverSaturation_spec_witness :
  findOverSaturation (of_board [[Red; Blue]; [Red; Grey]])
  = Ok (Some (OverSaturation OfColumns 0 [0; 1] Red)).
Proof.
  apply (proj2 (findOverSaturation_spec [[Red; Blue]; [Red; Grey]]
    ltac:(unfold wide; repeat constructor))).
  right. exists 0, [Red; Red], Red. split_and!.
  - reflexivity.
  - split; [by left | vm_compute; lia].
  - reflexivity.
  - constructor; [|constructor; [|constructor]];
      intros C [-> | ->]; vm_compute; lia.
  - constructor.
Defined.

(** ** The keys of the line-repetition map *)

Lemma pretty_N_char_no_colon x : pretty_N_char x ≠ ":"%char.
Proof. unfold pretty_N_char. by repeat case_match. Qed.

Lemma pretty_N_go_no_colon x s : no_colon s → no_colon (pretty_N_go x s).
Proof.
  revert s. induction (N.lt_wf_0 x) as [x _ IH]; intros s Hs.
  assert (x = 0 ∨ 0 < x)%N as [->|Hx] by lia.
  - by rewrite pretty_N_go_0.
  - rewrite pretty_N_go_step by done. apply IH.
    + by apply N.div_lt.
    + split; [apply pretty_N_char_no_colon | done].
Qed.

Lemma pretty_N_go_nonempty x s : s ≠ "" → pretty_N_go x s ≠ "".
Proof.
  revert s. induction (N.lt_wf_0 x) as [x _ IH]; intros s Hs.
  assert (x = 0 ∨ 0 < x)%N as [->|Hx] by lia.
  - by rewrite pretty_N_go_0.
  - rewrite pretty_N_go_step by done. apply IH; [by apply N.div_lt | done].
Qed.

Lemma pretty_nat_no_colon (n : nat) : no_colon (pretty n).
Proof.
  unfold pretty, pretty_nat, pretty, pretty_N. case_decide.
  - simpl. split; [done|done].
  - by apply pretty_N_go_no_colon.
Qed.

Lemma pretty_nat_nonempty (n : nat) : pretty n ≠ "".
Proof.
  unfold pretty, pretty_nat, pretty, pretty_N. case_decide; [done|].
  rewrite pretty_N_go_step by lia. by apply pretty_N_go_nonempty.
Qed.

Lemma no_colon_app_colon a r : ¬ no_colon (a +:+ String ":" r).
Proof. induction a as [|c a IH]; simpl; [by intros [? _] | by intros [_ ?]]. Qed.

Lemma app_colon_inj a b r1 r2 :
  no_colon a → no_colon b →
  a +:+ String ":" r1 = b +:+ String ":" r2 → a = b ∧ r1 = r2.
Proof.
  revert b. induction a as [|c a IH]; intros [|d b] Ha Hb Heq; simpl in *.
  - by simplify_eq.
  - simplify_eq. by destruct Hb.
  - simplify_eq. by destruct Ha.
  - injection Heq as -> Heq. destruct Ha as [_ Ha], Hb as [_ Hb].
    destruct (IH b Ha Hb Heq) as [-> ->]. done.
Qed.

Lemma concat_cons_cons sep x y l :
  String.concat sep (x :: y :: l) = x +:+ sep +:+ String.concat sep (y :: l).
Proof. done. Qed.

Lemma concat_colon_nonempty x l : x ≠ "" → String.concat ":" (x :: l) ≠ "".
Proof.
  intros Hx. destruct l as [|y l]; [done|]. rewrite concat_cons_cons.
  destruct x; [done|]. done.
Qed.

Lemma concat_colon_inj (l1 l2 : list string) :
  Forall (λ s, no_colon s ∧ s ≠ "") l1 → Forall (λ s, no_colon s ∧ s ≠ "") l2 →
  String.concat ":" l1 = String.concat ":" l2 → l1 = l2.
Proof.
  intros H1. revert l2. induction H1 as [|x l1 [Hx Hxne] H1 IH]; intros l2 H2 Heq.
  - destruct H2 as [|y l2 [_ Hy] _]; [done|].
    symmetry in Heq. by apply concat_colon_nonempty in Heq.
  - destruct H2 as [|y l2 [Hy Hyne] H2].
    { by apply concat_colon_nonempty in Heq. }
    destruct l1 as [|w l1], l2 as [|z l2].
    + simpl in Heq. by subst.
    + rewrite concat_cons_cons in Heq. simpl in Heq. subst.
      by apply no_colon_app_colon in Hx.
    + rewrite concat_cons_cons in Heq. simpl in Heq. subst.
      by apply no_colon_app_colon in Hy.
    + rewrite !concat_cons_cons in Heq.
      apply app_colon_inj in Heq as [-> Heq]; [|done..].
      f_equal. by apply IH.
Qed.

Lemma key_of_vector_inj name v1 v2 : key_of name v1 = key_of name v2 → v1 = v2.
Proof.
  unfold key_of. intros Heq.
  apply (inj (String.app name)) in Heq. apply (inj (String.app "::")) in Heq.
  apply concat_colon_inj in Heq.
  - by apply (inj (fmap pretty)) in Heq.
  - apply Forall_fmap, Forall_forall. intros n _. simpl.
    split; [apply pretty_nat_no_colon | apply pretty_nat_nonempty].
  - apply Forall_fmap, Forall_forall. intros n _. simpl.
    split; [apply pretty_nat_no_colon | apply pretty_nat_nonempty].
Qed.

(** X5: the key written for an active color and a position list
    determines both: two keys are equal only for the same color and the same
    list of positions. *)
Theorem key_of_inj (C1 C2 : Color) (v1 v2 : list nat) :
  active C1 → active C2 →
  key_of (color_name C1) v1 = key_of (color_name C2) v2 ↔ C1 = C2 ∧ v1 = v2.
Proof.
  intros _ _. split; [|by intros [-> ->]].
  intros Heq. assert (C1 = C2) as ->.
  { unfold key_of in Heq. destruct C1, C2; simpl in Heq; try done; by simplify_eq. }
  split; [done|]. by eapply key_of_vector_inj.
Qed.

Lemma key_of_inj_witness :
  key_of "Red" [1; 12] = key_of "Red" [1; 12] ↔ Red = Red ∧ [1; 12] = [1; 12].
Proof. apply (key_of_inj Red Red [1; 12] [1; 12]); by left. Defined.

(** ** Line repetition on lines of colors *)

Lemma truthy_Some_iff o a : truthy o = Some a ↔ o = Some a ∧ a ≠ 0.
Proof.
  destruct o as [[|n]|]; simpl; split; try done.
  - by intros [[= <-] ?].
  - by intros [= <-].
  - by intros [[= <-] _].
  - by intros [? _].
Qed.

Lemma truthy_None_iff o : truthy o = None ↔ o = None ∨ o = Some 0.
Proof. destruct o as [[|n]|]; simpl; split; try done; auto; by intros [|]. Qed.

Lemma key_Red_Blue v1 v2 : key_of "Red" v1 ≠ key_of "Blue" v2.
Proof. unfold key_of. simpl. done. Qed.

Lemma findRepeatedRows_from_cons m j cs (rest : list Row) :
  findRepeatedRows_from m j (of_row cs :: rest) =
  match hit m cs with
  | Some a => Ok (Some (a, j))
  | None => findRepeatedRows_from (update m j cs) (S j) rest
  end.
Proof.
  cbn [findRepeatedRows_from]. rewrite positionVectors_of_row.
  unfold mbind, Exc_bind. cbn [pvRed pvBlue].
  rewrite !length_positions_of, length_of_row. unfold hit, update.
  destruct (decide (length cs ≤ 2 * count Red cs)) as [HR|HR];
    destruct (decide (length cs ≤ 2 * count Blue cs)) as [HB|HB].
  - destruct (truthy (m !! key_of "Red" (positions_of Red cs))) as [a|]; [done|].
    rewrite lookup_insert_ne by apply key_Red_Blue.
    by destruct (truthy (m !! key_of "Blue" (positions_of Blue cs))).
  - by destruct (truthy (m !! key_of "Red" (positions_of Red cs))).
  - by destruct (truthy (m !! key_of "Blue" (positions_of Blue cs))).
  - done.
Qed.

Lemma haskey_app pre cs i k :
  i < length pre → haskey (pre ++ cs) i k ↔ haskey pre i k.
Proof. intros Hi. unfold haskey. by rewrite lookup_app_l. Qed.

Lemma haskey_lt ls i k : haskey ls i k → i < length ls.
Proof. intros (C & ci & Hi & _). by eapply lookup_lt_Some. Qed.

Lemma haskey_last pre cs k :
  haskey (pre ++ [cs]) (length pre) k ↔
  ∃ C, qualifies C cs ∧ key_of (color_name C) (positions_of C cs) = k.
Proof.
  unfold haskey. rewrite list_lookup_middle by done. split.
  - intros (C & ci & [= <-] & Hq & Hk). eauto.
  - intros (C & Hq & Hk). eauto.
Qed.

Lemma latest_lookup pre m k i :
  latest pre m → haskey pre i k → ∃ i0, m !! k = Some i0 ∧ i ≤ i0 ∧ i0 < length pre.
Proof.
  intros [Hsound Hcompl] Hkey. destruct (Hcompl k i Hkey) as [i0 Hi0].
  exists i0. destruct (Hsound k i0 Hi0) as [Hkey0 Hlast]. split_and!; [done| |].
  - destruct (decide (i ≤ i0)); [done|]. destruct (Hlast i); [lia|done].
  - by eapply haskey_lt.
Qed.

Lemma hit_Some pre m cs a :
  latest pre m → hit m cs = Some a →
  0 < a ∧ a < length pre ∧
  ∃ C ci, pre !! a = Some ci ∧ qualifies C ci ∧ qualifies C cs ∧
          positions_of C ci = positions_of C cs.
Proof.
  intros [Hsound _] Hhit.
  assert (∃ C, qualifies C cs ∧
    truthy (m !! key_of (color_name C) (positions_of C cs)) = Some a)
    as (C & Hq & Ht).
  { unfold hit in Hhit. unfold qualifies, active.
    destruct (decide (length cs ≤ 2 * count Red cs)) as [HR|HR].
    - destruct (truthy (m !! key_of "Red" (positions_of Red cs))) as [a'|] eqn:Ht.
      + simplify_eq. exists Red. auto.
      + case_decide; [|done]. exists Blue. auto.
    - case_decide; [|done]. exists Blue. auto. }
  apply truthy_Some_iff in Ht as [Hm Ha].
  destruct (Hsound _ _ Hm) as [(C' & ci & Hi & Hq' & Hkey) _].
  apply key_of_inj in Hkey as [-> Hpos]; [|apply Hq'|apply Hq].
  split_and!; [lia | by eapply lookup_lt_Some |]. by exists C, ci.
Qed.

Lemma hit_None pre m cs i C ci :
  latest pre m → hit m cs = None →
  0 < i → pre !! i = Some ci → qualifies C ci → qualifies C cs →
  positions_of C ci ≠ positions_of C cs.
Proof.
  intros Hlatest Hhit Hi Hci Hq Hqs Hpos.
  assert (haskey pre i (key_of (color_name C) (positions_of C cs))) as Hkey.
  { exists C, ci. by rewrite Hpos. }
  destruct (latest_lookup _ _ _ _ Hlatest Hkey) as (i0 & Hm & Hle & _).
  assert (truthy (m !! key_of (color_name C) (positions_of C cs)) = Some i0) as Ht.
  { apply truthy_Some_iff. split; [done | lia]. }
  unfold hit in Hhit. destruct Hqs as [[-> | ->] Hlen]; simpl in Ht.
  - rewrite decide_True, Ht in Hhit by done. done.
  - destruct (if decide (length cs ≤ 2 * count Red cs)
              then truthy (m !! key_of "Red" (positions_of Red cs)) else None);
      [done|]. rewrite decide_True, Ht in Hhit by done. done.
Qed.

Lemma writes_iff cs k :
  writes cs k ↔ ∃ C, qualifies C cs ∧ key_of (color_name C) (positions_of C cs) = k.
Proof.
  unfold writes, qualifies, active. split.
  - intros [[Hlen Hk] | [Hlen Hk]]; [exists Red | exists Blue]; auto.
  - intros (C & [[-> | ->] Hlen] & Hk); simpl in Hk; auto.
Qed.

Lemma update_lookup m j cs k :
  update m j cs !! k = if decide (writes cs k) then Some j else m !! k.
Proof.
  unfold update. destruct (decide (writes cs k)) as [Hw|Hw].
  - destruct Hw as [[HR <-] | [HB <-]].
    + rewrite (decide_True (P := length cs ≤ 2 * count Red cs)) by done.
      case_decide.
      * rewrite lookup_insert_ne by (intros ?; by eapply key_Red_Blue).
        by rewrite lookup_insert_eq.
      * by rewrite lookup_insert_eq.
    + rewrite (decide_True (P := length cs ≤ 2 * count Blue cs)) by done.
      by rewrite lookup_insert_eq.
  - unfold writes in Hw.
    destruct (decide (length cs ≤ 2 * count Red cs)) as [HR|HR];
      destruct (decide (length cs ≤ 2 * count Blue cs)) as [HB|HB].
    + rewrite !lookup_insert_ne; [done|intros ?; apply Hw; auto..].
    + rewrite lookup_insert_ne; [done|intros ?; apply Hw; auto].
    + rewrite lookup_insert_ne; [done|intros ?; apply Hw; auto].
    + done.
Qed.

Lemma latest_update pre m cs :
  latest pre m → latest (pre ++ [cs]) (update m (length pre) cs).
Proof.
  intros [Hsound Hcompl]. split.
  - intros k i. rewrite update_lookup. case_decide as Hex.
    + intros [= <-]. split; [by apply haskey_last, writes_iff|].
      intros i' Hi' Hkey. apply haskey_lt in Hkey. rewrite length_app in Hkey.
      simpl in Hkey. lia.
    + intros Hm. destruct (Hsound k i Hm) as [Hkey Hlast].
      pose proof (haskey_lt _ _ _ Hkey) as Hlt. split.
      * by apply haskey_app.
      * intros i' Hi' Hkey'. pose proof (haskey_lt _ _ _ Hkey') as Hlt'.
        rewrite length_app in Hlt'. simpl in Hlt'.
        destruct (decide (i' = length pre)) as [->|Hne].
        -- apply haskey_last, writes_iff in Hkey'. done.
        -- apply haskey_app in Hkey'; [|lia]. by eapply Hlast.
  - intros k i Hkey. rewrite update_lookup. case_decide as Hex; [eauto|].
    pose proof (haskey_lt _ _ _ Hkey) as Hlt. rewrite length_app in Hlt. simpl in Hlt.
    destruct (decide (i = length pre)) as [->|Hne].
    + apply haskey_last, writes_iff in Hkey. done.
    + apply haskey_app in Hkey; [|lia]. by eapply Hcompl.
Qed.

Lemma latest_empty : latest [] ∅.
Proof.
  split.
  - intros k i Hm. by rewrite lookup_empty in Hm.
  - intros k i Hkey. apply haskey_lt in Hkey. simpl in Hkey. lia.
Qed.

Lemma findRepeatedRows_from_spec (rest pre : list (list Color)) m :
  latest pre m → noHit (pre ++ rest) (length pre) →
  match findRepeatedRows_from m (length pre) (of_row <$> rest) with
  | Ok (Some (a, b)) =>
      0 < a ∧ a < b ∧ shares (pre ++ rest) a b ∧ noHit (pre ++ rest) b
  | Ok None => noHit (pre ++ rest) (length (pre ++ rest))
  | TypeError => False
  end.
Proof.
  revert pre m. induction rest as [|cs rest IH]; intros pre m Hlatest Hno.
  - simpl. by rewrite app_nil_r in *.
  - change (of_row <$> cs :: rest) with (of_row cs :: (of_row <$> rest)).
    rewrite findRepeatedRows_from_cons.
    destruct (hit m cs) as [a|] eqn:Hhit.
    + destruct (hit_Some _ _ _ _ Hlatest Hhit)
        as (Ha & Hlt & C & ci & Hci & Hq & Hqs & Hpos).
      split_and!; [done..| |done].
      exists C, ci, cs. split_and!; try done.
      * by rewrite lookup_app_l.
      * by rewrite list_lookup_middle.
    + specialize (IH (pre ++ [cs]) (update m (length pre) cs)).
      rewrite length_app in IH. simpl in IH.
      replace (length pre + 1) with (S (length pre)) in IH by lia.
      rewrite <- app_assoc in IH. simpl in IH.
      apply IH; [by apply latest_update|].
      intros i j Hi Hij Hj Hsh.
      destruct (decide (j = length pre)) as [->|Hne].
      * destruct Hsh as (C & ci & cj & Hci & Hcj & Hq & Hqj & Hpos).
        rewrite list_lookup_middle in Hcj by done. simplify_eq.
        rewrite lookup_app_l in Hci by done.
        by eapply (hit_None pre m cj i C ci).
      * apply (Hno i j); [done..|lia|done].
Qed.

Lemma findRepeatedRows_cases (ls : list (list Color)) :
  match findRepeatedRows (of_row <$> ls) with
  | Ok (Some (a, b)) => 0 < a ∧ a < b ∧ shares ls a b ∧ noHit ls b
  | Ok None => ∀ i j, 0 < i → i < j → ¬ shares ls i j
  | TypeError => False
  end.
Proof.
  pose proof (findRepeatedRows_from_spec ls [] ∅ latest_empty) as Hspec.
  simpl in Hspec. unfold findRepeatedRows.
  assert (Hno0 : noHit ls 0) by (intros i j _ _ Hj; lia).
  specialize (Hspec Hno0).
  destruct (findRepeatedRows_from ∅ 0 (of_row <$> ls)) as [[[a b]|]|]; [done| |done].
  intros i j Hi Hij Hsh. apply (Hspec i j); [done..| |done].
  destruct Hsh as (C & ci & cj & _ & Hcj & _). by eapply lookup_lt_Some.
Qed.

(** X6: on lines of colors [findRepeatedRows] returns none exactly when no
    two lines at positive indices have an active color on at least half of
    their cells at the same positions; a pair it reports is such a pair
    ([0 < i < j]), and [j] is the first line that closes one. *)
Theorem findRepeatedRows_spec (ls : list (list Color)) :
  (findRepeatedRows (of_row <$> ls) = Ok None ↔
     ∀ i j, 0 < i → i < j → ¬ shares ls i j) ∧
  (∀ i j, findRepeatedRows (of_row <$> ls) = Ok (Some (i, j)) →
     0 < i ∧ i < j ∧ shares ls i j ∧ noHit ls j) ∧
  ((∃ i j, 0 < i ∧ i < j ∧ shares ls i j) →
     ∃ p, findRepeatedRows (of_row <$> ls) = Ok (Some p)).
Proof.
  pose proof (findRepeatedRows_cases ls) as Hspec.
  destruct (findRepeatedRows (of_row <$> ls)) as [[[a b]|]|]; [| |done].
  - destruct Hspec as (Ha & Hab & Hsh & Hno). split_and!.
    + split; [done|]. intros Hnone. by destruct (Hnone a b).
    + intros i j [= <- <-]. done.
    + eauto.
  - split_and!.
    + done.
    + intros i j [=].
    + intros (i & j & Hi & Hij & Hsh). by destruct (Hspec i j).
Qed.

Lemma findRepeatedRows_spec_witness :
  ∃ p, findRepeatedRows (of_row <$> [[Grey; Grey]; [Red; Blue]; [Red; Grey]])
       = Ok (Some p).
Proof.
  apply (proj2 (proj2 (findRepeatedRows_spec [[Grey; Grey]; [Red; Blue]; [Red; Grey]]))).
  exists 1, 2. split_and!; [lia..|].
  exists Red, [Red; Blue], [Red; Grey]. split_and!; try reflexivity.
  - split; [by left | vm_compute; lia].
  - split; [by left | vm_compute; lia].
Defined.

(** X7: on a grid whose rows are at least as long as the grid has rows,
    [findLineRepetition] looks at the rows and at the first [board.length]
    columns, which are all the columns on a square grid and not on a wider
    one.  It finds nothing exactly when neither two rows nor two of these
    columns, at positive indices, have an active color on at least half of
    their cells at the same positions; it reports such a pair of rows, or,
    when the rows have none, such a pair of these columns. *)
Theorem findLineRepetition_spec (g : list (list Color)) :
  wide g →
  (findLineRepetition (of_board g) = Ok None ↔
     (∀ i j, 0 < i → i < j → ¬ shares g i j) ∧
     (∀ i j, 0 < i → i < j → ¬ shares (columns_of g) i j)) ∧
  (∀ v, findLineRepetition (of_board g) = Ok (Some v) →
     (∃ i j, v = LineRepetition OfRows (i, j) ∧ 0 < i ∧ i < j ∧ shares g i j) ∨
     (∃ i j, v = LineRepetition OfColumns (i, j) ∧ 0 < i ∧ i < j ∧
        shares (columns_of g) i j ∧ ∀ i' j', 0 < i' → i' < j' → ¬ shares g i' j')).
Proof.
  intros Hw. unfold findLineRepetition, rows. rewrite (columns_of_board _ Hw).
  change (of_board g) with (of_row <$> g).
  pose proof (findRepeatedRows_cases g) as Hrows.
  pose proof (findRepeatedRows_cases (columns_of g)) as Hcols.
  destruct (findRepeatedRows (of_row <$> g)) as [[[a b]|]|]; simpl; [| |done].
  - destruct Hrows as (Ha & Hab & Hsh & _). split.
    + split; [done|]. intros [Hnone _]. by destruct (Hnone a b).
    + intros v [= <-]. left. by exists a, b.
  - destruct (findRepeatedRows (of_row <$> columns_of g)) as [[[a b]|]|]; simpl;
      [| |done].
    + destruct Hcols as (Ha & Hab & Hsh & _). split.
      * split; [done|]. intros [_ Hnone]. by destruct (Hnone a b).
      * intros v [= <-]. right. by exists a, b.
    + split; [done|]. intros v [=].
Qed.

Lemma findLineRepetition_spec_witness :
  let g := [[Grey; Red; Red]; [Grey; Blue; Blue]; [Grey; Red; Red]] in
  (∃ i j, LineRepetition OfColumns (1, 2) = LineRepetition OfRows (i, j) ∧
     0 < i ∧ i < j ∧ shares g i j) ∨
  (∃ i j, LineRepetition OfColumns (1, 2) = LineRepetition OfColumns (i, j) ∧
     0 < i ∧ i < j ∧ shares (columns_of g) i j ∧
     ∀ i' j', 0 < i' → i' < j' → ¬ shares g i' j').
Proof.
  apply (proj2 (findLineRepetition_spec
    [[Grey; Red; Red]; [Grey; Blue; Blue]; [Grey; Red; Red]]
    ltac:(unfold wide; repeat constructor))).
  vm_compute. reflexivity.
Defined.

(** ** Comparing two rows *)

Lemma rowsCanEqual_from (r2 : Row) (cs : list Color) i acc :
  js_reduce_from (λ (equal : bool) c1 i,
    if negb equal then false
    else
      let c2 := js_get r2 i in
      if bool_decide (c1 = Col Grey) || bool_decide (c2 = Col Grey) then true
      else bool_decide (c1 = c2)) i (of_row cs) acc = true ↔
  acc = true ∧ ∀ k x, cs !! k = Some x → compatible x (js_get r2 (i + k)).
Proof.
  revert i acc. induction cs as [|x cs IH]; intros i acc.
  - simpl. split; [|by intros [? _]]. intros ->. split; [done|]. intros k y [=].
  - change (of_row (x :: cs)) with (Some (Col x) :: of_row cs).
    cbn [js_reduce_from]. rewrite IH. split.
    + intros [Hacc Hrest]. destruct acc; [|done]. simpl in Hacc. split; [done|].
      intros [|k] y Hy.
      * simpl in Hy. injection Hy as <-. rewrite Nat.add_0_r. unfold compatible.
        destruct (decide (x = Grey)) as [->|Hx]; [by left|].
        destruct (decide (js_get r2 i = Col Grey)) as [Hg|Hg]; [by right; left|].
        right; right.
        rewrite bool_decide_false, (bool_decide_false (js_get r2 i = Col Grey)) in Hacc
          by congruence.
        simpl in Hacc. by apply bool_decide_eq_true in Hacc.
      * simpl in Hy. replace (i + S k) with (S i + k) by lia. by apply Hrest.
    + intros [-> Hall]. split.
      * simpl. destruct (Hall 0 x eq_refl) as [->| [Hg | Hx]].
        -- done.
        -- rewrite Nat.add_0_r in Hg.
           rewrite (bool_decide_true (js_get r2 i = Col Grey)) by done.
           by rewrite orb_true_r.
        -- rewrite Nat.add_0_r in Hx. rewrite Hx.
           destruct (bool_decide (Col x = Col Grey)); simpl; [done|].
           by rewrite bool_decide_true.
      * intros k y Hy. replace (S i + k) with (i + S k) by lia. by apply Hall.
Qed.

Lemma rowsCanEqual_of_row (c1 : list Color) (r2 : Row) :
  rowsCanEqual (of_row c1) r2 = true ↔
  ∀ k x, c1 !! k = Some x → compatible x (js_get r2 k).
Proof.
  unfold rowsCanEqual. rewrite rowsCanEqual_from. simpl. intuition.
Qed.

Lemma matchCount_from (C : Color) (r2 : Row) (cs : list Color) i acc :
  js_reduce_from (λ (total : nat) c1 i,
    total + (if bool_decide (Col C = c1) && bool_decide (Col C = js_get r2 i)
             then 1 else 0)) i (of_row cs) acc =
  acc + length (filter (λ j, cs !! (j - i) = Some C ∧ js_get r2 j = Col C)
                  (seq i (length cs))).
Proof.
  revert i acc. induction cs as [|x cs IH]; intros i acc.
  - simpl. lia.
  - change (of_row (x :: cs)) with (Some (Col x) :: of_row cs).
    cbn [js_reduce_from length seq]. rewrite IH, filter_cons, Nat.sub_diag.
    assert (Hshift :
      filter (λ j, (x :: cs) !! (j - i) = Some C ∧ js_get r2 j = Col C)
        (seq (S i) (length cs))
      = filter (λ j, cs !! (j - S i) = Some C ∧ js_get r2 j = Col C)
          (seq (S i) (length cs))).
    { apply filter_seq_ext. intros j Hj.
      replace (j - i) with (S (j - S i)) by lia. done. }
    rewrite Hshift. cbn [lookup list_lookup].
    destruct (decide (Some x = Some C ∧ js_get r2 i = Col C)) as [[Hx Hc]|Hn].
    + injection Hx as ->. rewrite Hc, !bool_decide_true by done. simpl. lia.
    + destruct (decide (x = C)) as [->|Hx].
      * rewrite (bool_decide_true (Col C = Col C)) by done.
        rewrite bool_decide_false; [simpl; lia|]. intros Heq. by destruct Hn.
      * rewrite bool_decide_false by congruence. simpl. lia.
Qed.

Lemma matchCount_of_row (C : Color) (c1 c2 : list Color) :
  matchCount C (of_row c1) (of_row c2) = common C c1 c2.
Proof.
  unfold matchCount, common. rewrite matchCount_from. simpl. f_equal.
  apply filter_seq_ext. intros j _. rewrite Nat.sub_0_r, js_get_of_row.
  destruct (c2 !! j); simpl; intuition congruence.
Qed.

Lemma elem_of_positions_of C cs i : i ∈ positions_of C cs ↔ cs !! i = Some C.
Proof.
  unfold positions_of. rewrite list_elem_of_filter, elem_of_seq. split.
  - by intros [? _].
  - intros Hi. split; [done|]. apply lookup_lt_Some in Hi. lia.
Qed.

Lemma common_same_positions C c1 c2 :
  positions_of C c1 = positions_of C c2 → common C c1 c2 = count C c1.
Proof.
  intros Hpos. unfold common. rewrite <- length_positions_of. unfold positions_of.
  f_equal. apply filter_seq_ext. intros j _. split; [by intros [? _]|].
  intros Hj. split; [done|]. apply elem_of_positions_of.
  rewrite <- Hpos. by apply elem_of_positions_of.
Qed.

Lemma rowsMustEqual_of_row (c1 c2 : list Color) :
  rowsMustEqual (of_row c1) (of_row c2) = false ↔
  ∃ C, active C ∧ length c1 ≤ 2 * common C c1 c2.
Proof.
  unfold rowsMustEqual. rewrite !matchCount_of_row, length_of_row.
  destruct (decide (length c1 ≤ 2 * common Red c1 c2)) as [Hr|Hr].
  { split; [|done]. intros _. exists Red. split; [by left | done]. }
  destruct (decide (length c1 ≤ 2 * common Blue c1 c2)) as [Hb|Hb].
  { split; [|done]. intros _. exists Blue. split; [by right | done]. }
  split; [done|]. intros (C & [-> | ->] & Hc); lia.
Qed.

(** X8: on rows of colors [rowsCanEqual] holds exactly when, at every
    index of the first row, one of the two cells is empty or both hold the
    same color, a missing cell of the second row reading as [undefined];
    only the indices of the first row are looked at; it is symmetric on rows
    of the same length, and on full rows of the same length it is equality. *)
Theorem rowsCanEqual_spec (c1 c2 : list Color) :
  (rowsCanEqual (of_row c1) (of_row c2) = true ↔
     ∀ i x, c1 !! i = Some x → compatible x (js_get (of_row c2) i)) ∧
  (∀ extra, length c1 ≤ length c2 →
     rowsCanEqual (of_row c1) (of_row (c2 ++ extra)) = rowsCanEqual (of_row c1) (of_row c2)) ∧
  (length c1 = length c2 →
     rowsCanEqual (of_row c1) (of_row c2) = rowsCanEqual (of_row c2) (of_row c1)) ∧
  (length c1 = length c2 → count Grey c1 = 0 → count Grey c2 = 0 →
     (rowsCanEqual (of_row c1) (of_row c2) = true ↔ c1 = c2)).
Proof.
  split_and!.
  - apply rowsCanEqual_of_row.
  - intros extra Hlen. apply eq_true_iff_eq. rewrite !rowsCanEqual_of_row.
    split; intros Hall k x Hk; specialize (Hall k x Hk);
      rewrite !js_get_of_row in *;
      (rewrite lookup_app_l in * by (apply lookup_lt_Some in Hk; lia)); done.
  - intros Hlen. apply eq_true_iff_eq. rewrite !rowsCanEqual_of_row.
    assert (Hsym : ∀ a b : list Color, length a = length b →
      (∀ k x, a !! k = Some x → compatible x (js_get (of_row b) k)) →
      ∀ k x, b !! k = Some x → compatible x (js_get (of_row a) k)).
    { intros a b Hab Hall k y Hy.
      destruct (lookup_lt_is_Some_2 a k) as [x Hx].
      { apply lookup_lt_Some in Hy. lia. }
      specialize (Hall k x Hx). rewrite js_get_of_row in *. rewrite Hx, Hy in *.
      simpl in *. unfold compatible in *.
      destruct Hall as [-> | [Hg | Hg]]; [by right; left| |];
        injection Hg as ->; auto. }
    split; apply Hsym; done.
  - intros Hlen Hg1 Hg2. rewrite rowsCanEqual_of_row. split.
    + intros Hall. apply list_eq_same_length with (length c1); [done..|].
      intros k x y _ Hx Hy. specialize (Hall k x Hx).
      rewrite js_get_of_row, Hy in Hall. simpl in Hall.
      assert (Hng : ∀ cs k z, count Grey cs = 0 → cs !! k = Some z → z ≠ Grey).
      { intros cs k' z Hc Hz ->. unfold count in Hc.
        apply length_zero_iff_nil in Hc.
        assert (Hin : Grey ∈ filter (λ x, x = Grey) cs).
        { apply list_elem_of_filter. split; [done|]. by eapply list_elem_of_lookup_2. }
        rewrite Hc in Hin. by apply elem_of_nil in Hin. }
      destruct Hall as [-> | [Hg | Hg]].
      * by destruct (Hng c1 k Grey).
      * injection Hg as ->. by destruct (Hng c2 k Grey).
      * by injection Hg as ->.
    + intros <- k x Hk. rewrite js_get_of_row, Hk. simpl. by right; right.
Qed.

Lemma rowsCanEqual_spec_witness :
  rowsCanEqual (of_row [Red; Grey]) (of_row [Red; Blue]) =
  rowsCanEqual (of_row [Red; Blue]) (of_row [Red; Grey]).
Proof.
  apply (proj1 (proj2 (proj2 (rowsCanEqual_spec [Red; Grey] [Red; Blue])))).
  reflexivity.
Defined.

(** X9: on rows of colors [rowsMustEqual] is false exactly when some
    active color sits at the same indices of both rows on at least half of
    the cells of the first; so it is false on an empty first row, and on
    every pair of lines that [findRepeatedRows] reports. *)
Theorem rowsMustEqual_spec :
  (∀ c1 c2 : list Color,
     rowsMustEqual (of_row c1) (of_row c2) = false ↔
     ∃ C, active C ∧ length c1 ≤ 2 * common C c1 c2) ∧
  (∀ c2 : list Color, rowsMustEqual (of_row []) (of_row c2) = false) ∧
  (∀ (ls : list (list Color)) i j,
     findRepeatedRows (of_row <$> ls) = Ok (Some (i, j)) →
     ∃ ci cj, ls !! i = Some ci ∧ ls !! j = Some cj ∧
       rowsMustEqual (of_row ci) (of_row cj) = false).
Proof.
  split_and!.
  - apply rowsMustEqual_of_row.
  - intros c2. apply rowsMustEqual_of_row. exists Red. split; [by left|]. simpl. lia.
  - intros ls i j Hfind. pose proof (findRepeatedRows_cases ls) as Hcases.
    rewrite Hfind in Hcases.
    destruct Hcases as (_ & _ & (C & ci & cj & Hi & Hj & [Hact Hq] & _ & Hpos) & _).
    exists ci, cj. split_and!; [done..|]. apply rowsMustEqual_of_row.
    exists C. split; [done|]. by rewrite (common_same_positions _ _ _ Hpos).
Qed.

Lemma rowsMustEqual_spec_witness :
  ∃ ci cj, [[Grey; Grey]; [Red; Blue]; [Red; Grey]] !! 1 = Some ci ∧
    [[Grey; Grey]; [Red; Blue]; [Red; Grey]] !! 2 = Some cj ∧
    rowsMustEqual (of_row ci) (of_row cj) = false.
Proof.
  apply (proj2 (proj2 rowsMustEqual_spec) [[Grey; Grey]; [Red; Blue]; [Red; Grey]] 1 2).
  vm_compute. reflexivity.
Defined.

(** ** The validator on grids *)

Lemma findThriceRepetition_cases (g : list (list Color)) :
  wide g →
  match findThriceRepetition (of_board g) with
  | None => no_triple g ∧ no_triple (columns_of g)
  | Some v => (∃ kind k t c, v = ThriceRepetition kind k t c) ∧
              ¬ (no_triple g ∧ no_triple (columns_of g))
  end.
Proof.
  intros Hw. unfold findThriceRepetition, rows. rewrite (columns_of_board _ Hw).
  change (of_board g) with (of_row <$> g).
  pose proof (findThriceRepetitionLines_None OfRows g) as Hr.
  pose proof (findThriceRepetitionLines_None OfColumns (columns_of g)) as Hc.
  destruct (findThriceRepetitionLines OfRows (of_row <$> g)) as [v|] eqn:Hrv.
  - apply findThriceRepetitionLines_Some in Hrv as (k & line & i & C & _ & -> & _).
    split; [by eauto|]. intros [Hn _]. by pose proof (proj2 Hr Hn).
  - destruct (findThriceRepetitionLines OfColumns (of_row <$> columns_of g))
      as [v|] eqn:Hcv.
    + apply findThriceRepetitionLines_Some in Hcv as (k & line & i & C & _ & -> & _).
      split; [by eauto|]. intros [_ Hn]. by pose proof (proj2 Hc Hn).
    + split; [exact (proj1 Hr eq_refl) | exact (proj1 Hc eq_refl)].
Qed.

Lemma findOverSaturation_cases (g : list (list Color)) :
  wide g →
  match findOverSaturation (of_board g) with
  | Ok None => Forall balanced g ∧ Forall balanced (columns_of g)
  | Ok (Some v) => (∃ kind k p c, v = OverSaturation kind k p c) ∧
                   ¬ (Forall balanced g ∧ Forall balanced (columns_of g))
  | TypeError => False
  end.
Proof.
  intros Hw. unfold findOverSaturation, rows. rewrite (columns_of_board _ Hw).
  change (of_board g) with (of_row <$> g).
  pose proof (findOverSaturationLines_None OfRows g) as Hr.
  pose proof (findOverSaturationLines_None OfColumns (columns_of g)) as Hc.
  destruct (findOverSaturationLines OfRows (of_row <$> g)) as [[v|]|] eqn:Hrv; simpl.
  - apply findOverSaturationLines_Some in Hrv as (k & cs & C & _ & _ & -> & _).
    split; [by eauto|]. intros [Hn _]. by pose proof (proj2 Hr Hn).
  - destruct (findOverSaturationLines OfColumns (of_row <$> columns_of g))
      as [[v|]|] eqn:Hcv.
    + apply findOverSaturationLines_Some in Hcv as (k & cs & C & _ & _ & -> & _).
      split; [by eauto|]. intros [_ Hn]. by pose proof (proj2 Hc Hn).
    + split; [exact (proj1 Hr eq_refl) | exact (proj1 Hc eq_refl)].
    + destruct (findOverSaturationLines_Ok OfColumns (columns_of g)) as [r Hr'].
      congruence.
  - destruct (findOverSaturationLines_Ok OfRows g) as [r Hr']. congruence.
Qed.

Lemma findLineRepetition_cases (g : list (list Color)) :
  wide g →
  match findLineRepetition (of_board g) with
  | Ok None => no_repeat g ∧ no_repeat (columns_of g)
  | Ok (Some v) => (∃ kind p, v = LineRepetition kind p) ∧
                   ¬ (no_repeat g ∧ no_repeat (columns_of g))
  | TypeError => False
  end.
Proof.
  intros Hw. unfold findLineRepetition, rows. rewrite (columns_of_board _ Hw).
  change (of_board g) with (of_row <$> g).
  pose proof (findRepeatedRows_cases g) as Hr.
  pose proof (findRepeatedRows_cases (columns_of g)) as Hc.
  destruct (findRepeatedRows (of_row <$> g)) as [[[a b]|]|]; simpl; [| |done].
  - destruct Hr as (Ha & Hab & Hsh & _). split; [by eauto|].
    intros [Hn _]. by apply (Hn a b).
  - destruct (findRepeatedRows (of_row <$> columns_of g)) as [[[a b]|]|]; simpl;
      [| |done].
    + destruct Hc as (Ha & Hab & Hsh & _). split; [by eauto|].
      intros [_ Hn]. by apply (Hn a b).
    + done.
Qed.

(** X10: on a grid whose rows are at least as long as the grid has rows,
    [validateBoard] looks at the rows and at the first [board.length]
    columns, which are all the columns on a square grid and not on a wider
    one.  It returns without a violation exactly when neither the rows nor
    these columns hold a triple, an over-full line or a repeated pair; a
    reported over-saturation comes with no triple in the rows and in these
    columns, and a reported line repetition with no triple and no over-full
    line among them. *)
Theorem validateBoard_wide (g : list (list Color)) :
  wide g →
  (validateBoard (of_board g) = Ok None ↔
     (no_triple g ∧ no_triple (columns_of g)) ∧
     (Forall balanced g ∧ Forall balanced (columns_of g)) ∧
     (no_repeat g ∧ no_repeat (columns_of g))) ∧
  (∀ v, validateBoard (of_board g) = Ok (Some v) →
     match v with
     | ThriceRepetition _ _ _ _ => ¬ (no_triple g ∧ no_triple (columns_of g))
     | OverSaturation _ _ _ _ =>
         (no_triple g ∧ no_triple (columns_of g)) ∧
         ¬ (Forall balanced g ∧ Forall balanced (columns_of g))
     | LineRepetition _ _ =>
         (no_triple g ∧ no_triple (columns_of g)) ∧
         (Forall balanced g ∧ Forall balanced (columns_of g)) ∧
         ¬ (no_repeat g ∧ no_repeat (columns_of g))
     end).
Proof.
  intros Hw.
  pose proof (findThriceRepetition_cases g Hw) as Hthrice.
  pose proof (findOverSaturation_cases g Hw) as Hover.
  pose proof (findLineRepetition_cases g Hw) as Hrep.
  unfold validateBoard.
  destruct (findThriceRepetition (of_board g)) as [t|].
  { destruct Hthrice as [(kind & k & tr & c & ->) Hnt]. split.
    - split; [done|]. by intros [? _].
    - by intros v [= <-]. }
  destruct (findOverSaturation (of_board g)) as [[o|]|]; simpl; [| |done].
  { destruct Hover as [(kind & k & p & c & ->) Hnb]. split.
    - split; [done|]. by intros (_ & ? & _).
    - by intros v [= <-]. }
  destruct (findLineRepetition (of_board g)) as [[l|]|]; [| |done].
  { destruct Hrep as [(kind & p & ->) Hnr]. split.
    - split; [done|]. by intros (_ & _ & ?).
    - by intros v [= <-]. }
  split; [done|]. intros v [=].
Qed.

Lemma validateBoard_wide_witness :
  validateBoard (of_board example) = Ok None ↔
  (no_triple example ∧ no_triple (columns_of example)) ∧
  (Forall balanced example ∧ Forall balanced (columns_of example)) ∧
  (no_repeat example ∧ no_repeat (columns_of example)).
Proof.
  apply (validateBoard_wide example).
  unfold wide. vm_compute. repeat constructor.
Defined.

(** ** Playing a sequence of moves *)

Lemma playMove_in_bounds g m :
  in_bounds g m →
  playMove (of_board g) m =
  (violation ← validateBoard (of_board (set_cell g (row m) (column m) (color m)));
   Ok (of_board (set_cell g (row m) (column m) (color m)), violation)).
Proof.
  intros Hin. unfold playMove. rewrite cloneBoard_of_board, (writeCell_of_board _ _ Hin).
  done.
Qed.






(** ** Copying a board *)

Lemma deref_cloned h B :
  deref (cloned h B) (length h + length B) = Some (cloneBoard B).
Proof.
  apply deref_Some. exists (seq (length h) (length B)).
  split; [apply getBoard_cloned|].
  apply Forall2_same_length_lookup. split.
  { by rewrite length_seq, length_cloneBoard. }
  intros i l r Hl Hr. apply lookup_seq in Hl as [-> Hi].
  unfold cloneBoard in Hr. rewrite list_lookup_fmap in Hr.
  destruct (B !! i) as [r0|] eqn:HB; [|done]. injection Hr as <-.
  by apply getRow_cloned.
Qed.

Lemma deref_bound h b B :
  deref h b = Some B →
  b < length h ∧ ∃ ls, getBoard h b = Some ls ∧ Forall (λ l, l < length h) ls ∧
    Forall2 (λ l r, getRow h l = Some r) ls B.
Proof.
  intros Hd. apply deref_Some in Hd as (ls & Hb & Hrows). split.
  { unfold getBoard in Hb. destruct (h !! b) eqn:Hl; [|done].
    by eapply lookup_lt_Some. }
  exists ls. split_and!; [done| |done].
  apply Forall_forall. intros l Hl.
  apply list_elem_of_lookup in Hl as [i Hi].
  destruct (Forall2_lookup_l _ _ _ _ _ Hrows Hi) as (r & _ & Hr).
  unfold getRow in Hr. destruct (h !! l) eqn:Hhl; [|done]. by eapply lookup_lt_Some.
Qed.

(** X12: on the store, [cloneBoard] of a reference denoting a grid
    returns a reference that was not in use, to an array of row references
    that were not in use and are pairwise distinct; the new board denotes
    the copy, every object the store held is unchanged, and overwriting a
    row of the copy leaves what the argument denotes as it was. *)
Theorem cloneBoard_h_deep_copy (h : Heap) (b : nat) (B : Board) :
  deref h b = Some B →
  let h' := (cloneBoard_h b h).1 in
  ∃ newBoard rs,
    (cloneBoard_h b h).2 = Ok newBoard ∧
    h !! newBoard = None ∧
    getBoard h' newBoard = Some rs ∧
    length rs = length B ∧ NoDup rs ∧ Forall (λ l, h !! l = None) rs ∧
    deref h' newBoard = Some (cloneBoard B) ∧
    preserved h h' ∧
    ∀ l r, l ∈ rs → deref (<[l := ORow r]> h') b = Some B.
Proof.
  intros Hd. rewrite (cloneBoard_h_spec _ _ _ Hd). simpl.
  exists (length h + length B), (seq (length h) (length B)).
  split_and!.
  - done.
  - apply lookup_ge_None_2. lia.
  - apply getBoard_cloned.
  - apply length_seq.
  - apply NoDup_seq.
  - apply Forall_forall. intros l Hl. apply elem_of_seq in Hl.
    apply lookup_ge_None_2. lia.
  - apply deref_cloned.
  - apply preserved_cloned.
  - intros l r Hl. apply elem_of_seq in Hl.
    destruct (deref_bound _ _ _ Hd) as (Hb & ls & Hls & Hbound & Hrows).
    apply deref_Some. exists ls.
    assert (Hold : ∀ l', l' < length h →
      <[l := ORow r]> (cloned h B) !! l' = h !! l').
    { intros l' Hl'. rewrite list_lookup_insert_ne by lia.
      by apply cloned_lookup_old. }
    split.
    + unfold getBoard in *. by rewrite Hold.
    + apply Forall2_same_length_lookup. split; [by eapply Forall2_length|].
      intros i l' r' Hl' Hr'.
      pose proof (Forall2_lookup_lr _ _ _ _ _ _ Hrows Hl' Hr') as Hget.
      pose proof (Forall_lookup_1 _ _ _ _ Hbound Hl') as Hlt. simpl in Hlt.
      unfold getRow in *. by rewrite Hold.
Qed.

Lemma cloneBoard_h_deep_copy_witness :
  let h := [ORow (of_row [Red]); OBoard [0]] in
  let h' := (cloneBoard_h 1 h).1 in
  ∃ newBoard rs,
    (cloneBoard_h 1 h).2 = Ok newBoard ∧
    h !! newBoard = None ∧
    getBoard h' newBoard = Some rs ∧
    length rs = length [of_row [Red]] ∧ NoDup rs ∧ Forall (λ l, h !! l = None) rs ∧
    deref h' newBoard = Some (cloneBoard [of_row [Red]]) ∧
    preserved h h' ∧
    ∀ l r, l ∈ rs → deref (<[l := ORow r]> h') 1 = Some [of_row [Red]].
Proof.
  apply (cloneBoard_h_deep_copy [ORow (of_row [Red]); OBoard [0]] 1 [of_row [Red]]).
  reflexivity.
Defined.

(** X13: on values, [cloneBoard] keeps the number of rows, the length of
    each row and what every coordinate reads as; its rows have no holes, a
    hole of the argument becoming a slot that holds [undefined]; cloning a
    clone changes nothing, and a grid of colors is its own clone. *)
Theorem cloneBoard_spec (b : Board) :
  length (cloneBoard b) = length b ∧
  (∀ r line, b !! r = Some line →
     ∃ line', cloneBoard b !! r = Some line' ∧ length line' = length line ∧
       ∀ c, c < length line → line' !! c = Some (Some (js_get line c))) ∧
  (∀ r c, read (cloneBoard b) r c = read b r c) ∧
  cloneBoard (cloneBoard b) = cloneBoard b ∧
  (∀ g : list (list Color), b = of_board g → cloneBoard b = b).
Proof.
  split_and!.
  - apply length_cloneBoard.
  - intros r line Hr. exists (spread line). split_and!.
    + unfold cloneBoard. by rewrite list_lookup_fmap, Hr.
    + apply length_spread.
    + intros c Hc. destruct (lookup_lt_is_Some_2 line c Hc) as [s Hs].
      unfold spread, entries, js_get. by rewrite !list_lookup_fmap, Hs.
  - apply read_cloneBoard.
  - unfold cloneBoard. rewrite <- list_fmap_compose. apply list_fmap_ext.
    intros i line _. simpl. unfold spread, entries.
    rewrite <- !list_fmap_compose. by apply list_fmap_ext.
  - intros g ->. apply cloneBoard_of_board.
Qed.

Lemma cloneBoard_spec_witness :
  ∃ line', cloneBoard [[None; Some (Col Red)]] !! 0 = Some line' ∧
    length line' = length [None; Some (Col Red)] ∧
    ∀ c, c < length [None; Some (Col Red)] →
      line' !! c = Some (Some (js_get [None; Some (Col Red)] c)).
Proof.
  apply (proj1 (proj2 (cloneBoard_spec [[None; Some (Col Red)]])) 0
           [None; Some (Col Red)]).
  reflexivity.
Defined.

(** ** Naive completion, again *)

Lemma lookup_replace_empty other cs i :
  replace_empty other cs !! i
  = (λ c, if decide (c = Grey) then other else c) <$> cs !! i.
Proof. unfold replace_empty. by rewrite list_lookup_fmap. Qed.

Lemma positions_of_replace_empty other C cs :
  C ≠ Grey → C ≠ other →
  positions_of C (replace_empty other cs) = positions_of C cs.
Proof.
  intros Hg Ho. unfold positions_of. rewrite length_replace_empty.
  apply filter_seq_ext. intros j _. rewrite lookup_replace_empty.
  destruct (cs !! j) as [x|]; simpl; [|done].
  case_decide; subst; split; intros [=]; congruence.
Qed.

Lemma count_replace_empty_other other C cs :
  C ≠ Grey → C ≠ other → count C (replace_empty other cs) = count C cs.
Proof.
  intros Hg Ho. by rewrite <- !length_positions_of, positions_of_replace_empty.
Qed.

Lemma count_zero_iff C cs : count C cs = 0 ↔ C ∉ cs.
Proof.
  unfold count. rewrite length_zero_iff_nil. split.
  - intros Hnil. by apply (filter_nil_not_elem_of _ _ _ Hnil).
  - intros Hnot. destruct (filter (λ x, x = C) cs) as [|x l] eqn:Hf; [done|].
    assert (Hx : x ∈ filter (λ x, x = C) cs) by (rewrite Hf; left).
    apply list_elem_of_filter in Hx as [-> Hin]. done.
Qed.

Lemma count_replace_empty_Grey other cs :
  other ≠ Grey → count Grey (replace_empty other cs) = 0.
Proof.
  intros Ho. apply count_zero_iff. unfold replace_empty.
  rewrite list_elem_of_fmap. intros (x & Hx & _). case_decide; congruence.
Qed.

Lemma completeRow_full cs : count Grey cs = 0 → completeRow cs = cs.
Proof.
  intros Hg. unfold completeRow. repeat case_decide; by rewrite ?replace_empty_id.
Qed.

Lemma completeRow_idempotent cs : completeRow (completeRow cs) = completeRow cs.
Proof.
  unfold completeRow at 2 3.
  destruct (decide (length cs ≤ 2 * count Red cs)) as [Hr|Hr];
    [|destruct (decide (length cs ≤ 2 * count Blue cs)) as [Hb|Hb]].
  - apply completeRow_full. by apply count_replace_empty_Grey.
  - apply completeRow_full. by apply count_replace_empty_Grey.
  - unfold completeRow. by rewrite !decide_False by done.
Qed.

Lemma completeRow_cases cs :
  (length cs ≤ 2 * count Red cs ∧ completeRow cs = replace_empty Blue cs ∧
   count Red (completeRow cs) = count Red cs ∧
   positions_of Red (completeRow cs) = positions_of Red cs ∧
   count Grey (completeRow cs) = 0) ∨
  (2 * count Red cs < length cs ∧ length cs ≤ 2 * count Blue cs ∧
   completeRow cs = replace_empty Red cs ∧
   count Blue (completeRow cs) = count Blue cs ∧
   positions_of Blue (completeRow cs) = positions_of Blue cs ∧
   count Grey (completeRow cs) = 0) ∨
  (2 * count Red cs < length cs ∧ 2 * count Blue cs < length cs ∧ completeRow cs = cs).
Proof.
  unfold completeRow.
  destruct (decide (length cs ≤ 2 * count Red cs)) as [Hr|Hr];
    [|destruct (decide (length cs ≤ 2 * count Blue cs)) as [Hb|Hb]].
  - left. split_and!; [done..| | |].
    + by apply count_replace_empty_other.
    + by apply positions_of_replace_empty.
    + by apply count_replace_empty_Grey.
  - right; left. split_and!; [lia|done..| | |].
    + by apply count_replace_empty_other.
    + by apply positions_of_replace_empty.
    + by apply count_replace_empty_Grey.
  - right; right. split_and!; [lia | lia | done].
Qed.

Lemma findOverSaturationRow_completeRow cs :
  findOverSaturationRow (of_row (completeRow cs)) = findOverSaturationRow (of_row cs).
Proof.
  rewrite !findOverSaturationRow_of_row, length_completeRow.
  pose proof (count_total (completeRow cs)) as Htotal.
  pose proof (count_total cs) as Htotal0.
  rewrite length_completeRow in Htotal.
  destruct (completeRow_cases cs)
    as [(Hr & _ & HR & HP & HG) | [(Hr & Hb & _ & HB & HP & HG) | (_ & _ & ->)]];
    [| |done].
  - rewrite HR, HP. f_equal.
    destruct (decide (length cs < 2 * count Red cs)); [done|].
    rewrite !decide_False by lia. done.
  - rewrite HB, HP. f_equal.
    rewrite !(decide_False (P := length cs < 2 * count Red _)) by lia. done.
Qed.

(** X14: completing a row of colors a second time changes nothing; the
    over-saturation checker answers the same on a row and on its completion;
    when a color fills at least half of the row no cell of the completion is
    empty; and the completion has the length of the row. *)
Theorem naiveAutocompleteRow_stable (cs : list Color) :
  naiveAutocompleteRow (naiveAutocompleteRow (of_row cs)) = naiveAutocompleteRow (of_row cs) ∧
  findOverSaturationRow (naiveAutocompleteRow (of_row cs)) = findOverSaturationRow (of_row cs) ∧
  ((∃ C, qualifies C cs) →
     ∀ i, js_get (naiveAutocompleteRow (of_row cs)) i ≠ Col Grey) ∧
  length (naiveAutocompleteRow (of_row cs)) = length cs.
Proof.
  rewrite !naiveAutocompleteRow_of_row. split_and!.
  - by rewrite completeRow_idempotent.
  - apply findOverSaturationRow_completeRow.
  - intros (C & [-> | ->] & Hq) i; rewrite js_get_of_row;
      destruct (completeRow cs !! i) as [x|] eqn:Hx; simpl; try done;
      intros [= ->]; apply list_elem_of_lookup_2 in Hx;
      revert Hx; apply count_zero_iff;
      destruct (completeRow_cases cs)
        as [(_ & _ & _ & _ & HG) | [(_ & _ & _ & _ & _ & HG) | (? & ? & _)]];
      done || lia.
  - by rewrite length_of_row, length_completeRow.
Qed.

Lemma naiveAutocompleteRow_stable_witness :
  (∃ C, qualifies C [Red; Grey]) ∧
  js_get (naiveAutocompleteRow (of_row [Red; Grey])) 1 ≠ Col Grey.
Proof.
  assert (Hq : ∃ C, qualifies C [Red; Grey]).
  { exists Red. split; [by left | vm_compute; lia]. }
  split; [exact Hq|].
  exact (proj1 (proj2 (proj2 (naiveAutocompleteRow_stable [Red; Grey]))) Hq 1).
Defined.

Lemma naiveAutocompleteBoard_read_eq (b : Board) r c :
  r < length b →
  let b1 := naiveAutocompleteRow <$> cloneBoard b in
  read (naiveAutocompleteBoard b) r c =
  if decide (c < length b)
  then js_get (naiveAutocompleteRow ((λ line, Some (js_get line c)) <$> b1)) r
  else read b1 r c.
Proof.
  intros Hr b1. unfold naiveAutocompleteBoard. rewrite naiveAutocompleteBoard_rows.
  fold b1.
  assert (Hlen : length b1 = length b)
    by (unfold b1; by rewrite length_fmap, length_cloneBoard).
  pose proof (writeColumns_read (columns b1) 0 b1 r c ltac:(lia)) as Hw.
  rewrite (imap_ext _ pair) in Hw by done. rewrite Hw.
  rewrite decide_True by lia. rewrite Nat.sub_0_r.
  destruct (decide (c < length b)) as [Hc|Hc].
  - by rewrite columns_lookup by lia.
  - by rewrite lookup_ge_None_2 by (rewrite length_columns; lia).
Qed.

Lemma same_shape_completeBoard g : same_shape g (completeBoard g).
Proof.
  unfold same_shape, completeBoard. apply Forall2_same_length_lookup. split.
  { by rewrite length_imap, length_fmap. }
  intros r line line' Hl Hl'. rewrite list_lookup_imap, list_lookup_fmap, Hl in Hl'.
  simpl in Hl'. injection Hl' as <-. by rewrite length_imap, length_completeRow.
Qed.

Lemma of_board_inj_reads g g' :
  same_shape g g' →
  (∀ r c, read (of_board g) r c = read (of_board g') r c) → g = g'.
Proof.
  intros Hs Hread. apply list_eq_same_length with (length g);
    [by rewrite <- (same_shape_length _ _ Hs) | done |].
  intros r line line' _ Hl Hl'.
  pose proof (Forall2_lookup_lr _ _ _ _ _ _ Hs Hl Hl') as Hlen. simpl in Hlen.
  apply list_eq_same_length with (length line); [done | done |].
  intros c x x' _ Hx Hx'. specialize (Hread r c). rewrite !read_of_board in Hread.
  unfold cell in Hread. rewrite Hl, Hl' in Hread. simpl in Hread.
  rewrite Hx, Hx' in Hread. simpl in Hread. by injection Hread.
Qed.

Lemma naiveAutocompleteBoard_completeBoard g :
  wide g → naiveAutocompleteBoard (of_board g) = of_board (completeBoard g).
Proof.
  intros Hw. destruct (naiveAutocompleteBoard_of_board g Hw) as (g' & Hg' & Hs).
  rewrite Hg'. f_equal. apply of_board_inj_reads.
  { eapply same_shape_trans; [|apply same_shape_completeBoard].
    apply Forall2_flip. eapply Forall2_impl; [exact Hs|]. done. }
  intros r c. rewrite <- Hg'.
  set (g1 := completeRow <$> g).
  assert (Hs1 : same_shape g g1).
  { unfold same_shape, g1. apply Forall2_fmap_r, Forall_Forall2_diag.
    apply Forall_forall. intros cs _. simpl. by rewrite length_completeRow. }
  pose proof (same_shape_wide _ _ Hs1 Hw) as Hw1.
  assert (Hlen1 : length g1 = length g) by (unfold g1; by rewrite length_fmap).
  assert (Hb1 : naiveAutocompleteRow <$> cloneBoard (of_board g) = of_board g1).
  { rewrite cloneBoard_of_board. unfold of_board, g1.
    rewrite <- !list_fmap_compose. apply list_fmap_ext.
    intros _ cs _. simpl. apply naiveAutocompleteRow_of_row. }
  destruct (decide (r < length g)) as [Hr|Hr].
  2:{ unfold read. rewrite !lookup_ge_None_2; [done | |].
      - rewrite length_of_board. unfold completeBoard.
        rewrite length_imap, length_fmap. lia.
      - rewrite length_naiveAutocompleteBoard, length_of_board. lia. }
  rewrite naiveAutocompleteBoard_read_eq by (by rewrite length_of_board).
  cbv zeta. rewrite Hb1, length_of_board, !read_of_board.
  destruct (lookup_lt_is_Some_2 g1 r ltac:(lia)) as [line Hline].
  unfold cell, completeBoard. fold g1.
  rewrite list_lookup_imap, Hline. simpl. rewrite list_lookup_imap.
  destruct (decide (c < length g)) as [Hc|Hc].
  - assert (Hcol : Forall (λ l, c < length l) g1).
    { eapply Forall_impl; [exact Hw1|]. simpl. intros l Hl. lia. }
    rewrite (column_of_board _ _ Hcol), naiveAutocompleteRow_of_row, js_get_of_row.
    destruct (lookup_lt_is_Some_2 (completeRow (column_of g1 c)) r) as [y Hy].
    { rewrite length_completeRow, length_column_of by done. lia. }
    rewrite Hy. simpl.
    destruct (lookup_lt_is_Some_2 line c) as [x Hx].
    { pose proof (Forall_lookup_1 _ _ _ _ Hcol Hline) as Hlt. done. }
    rewrite Hx. simpl. done.
  - simpl. by destruct (line !! c).
Qed.

Lemma full_column_of g k : full g → count Grey (column_of g k) = 0.
Proof.
  intros Hfull. apply count_zero_iff. unfold column_of.
  rewrite list_elem_of_omap. intros (line & Hline & Hk).
  pose proof (proj1 (Forall_forall _ _) Hfull line Hline) as Hc. simpl in Hc.
  apply count_zero_iff in Hc. apply Hc. by eapply list_elem_of_lookup_2.
Qed.

Lemma completeBoard_full g : wide g → full g → completeBoard g = g.
Proof.
  intros Hw Hfull.
  assert (Hg1 : completeRow <$> g = g).
  { rewrite <- (list_fmap_id g) at 2. apply Forall_fmap_ext_1.
    eapply Forall_impl; [exact Hfull|]. intros line. apply completeRow_full. }
  unfold completeBoard. rewrite Hg1.
  apply list_eq_same_length with (length g); [done | by rewrite length_imap |].
  intros r line' line _ Hl' Hl. rewrite list_lookup_imap, Hl in Hl'. simpl in Hl'.
  injection Hl' as <-.
  apply list_eq_same_length with (length line); [done | by rewrite length_imap |].
  intros c x' x _ Hx' Hx. rewrite list_lookup_imap, Hx in Hx'. simpl in Hx'.
  injection Hx' as <-. case_decide as Hc; [|done].
  rewrite completeRow_full by (by apply full_column_of).
  rewrite column_of_lookup.
  - unfold cell. rewrite Hl. simpl. by rewrite Hx.
  - eapply Forall_impl; [exact Hw|]. simpl. intros l Hlen. lia.
Qed.

(** X15: on a grid whose columns all lie inside it, [naiveAutocompleteBoard]
    returns the grid in which every row was completed and then every column
    of the result, with the shape of its argument; a grid without an empty
    cell is returned as it is. *)
Theorem naiveAutocompleteBoard_spec (g : list (list Color)) :
  wide g →
  naiveAutocompleteBoard (of_board g) = of_board (completeBoard g) ∧
  same_shape g (completeBoard g) ∧
  (full g → naiveAutocompleteBoard (of_board g) = of_board g).
Proof.
  intros Hw. split_and!.
  - by apply naiveAutocompleteBoard_completeBoard.
  - apply same_shape_completeBoard.
  - intros Hfull. rewrite (naiveAutocompleteBoard_completeBoard _ Hw).
    by rewrite completeBoard_full.
Qed.

Lemma naiveAutocompleteBoard_spec_witness :
  naiveAutocompleteBoard (of_board [[Red; Grey]; [Grey; Grey]])
  = of_board (completeBoard [[Red; Grey]; [Grey; Grey]]) ∧
  same_shape [[Red; Grey]; [Grey; Grey]] (completeBoard [[Red; Grey]; [Grey; Grey]]) ∧
  (full [[Red; Grey]; [Grey; Grey]] →
   naiveAutocompleteBoard (of_board [[Red; Grey]; [Grey; Grey]])
   = of_board [[Red; Grey]; [Grey; Grey]]).
Proof.
  apply (naiveAutocompleteBoard_spec [[Red; Grey]; [Grey; Grey]]).
  unfold wide. repeat constructor.
Defined.

(** ** The finder and the solver on grids *)

Lemma findMoveByNegation_target g fm :
  findMoveByNegation (of_board g) = Ok (Some fm) →
  active (color fm.1) ∧ cell g (row fm.1) (column fm.1) = Some Grey ∧
  violationAfterCompletion (of_board g)
    {| color := opposite (color fm.1); row := row fm.1; column := column fm.1 |}
  = Ok (Some fm.2) ∧
  (color fm.1 = Red →
     violationAfterCompletion (of_board g) fm.1 = Ok None).
Proof.
  intros Hfind. apply findMoveByNegation_Some in Hfind as (r & c & Hcell & Hprobe & _).
  apply (proj1 (probeCell_spec _ _ _)) in Hprobe
    as [(v & -> & Hred) | (v & -> & Hred & Hblue)]; simpl.
  - split_and!; [by right | done | done | done].
  - split_and!; [by left | done | done | done].
Qed.

Lemma findMoveByNegation_full g :
  full g → findMoveByNegation (of_board g) = Ok None.
Proof.
  intros Hfull. apply findMoveByNegation_None. intros r c Hcell.
  apply cell_Some in Hcell as (line & Hline & Hc).
  pose proof (Forall_lookup_1 _ _ _ _ Hfull Hline) as Hcount. simpl in Hcount.
  apply count_zero_iff in Hcount. destruct Hcount. by eapply list_elem_of_lookup_2.
Qed.

(** X16: a move returned by the finder on a grid of colors has an active
    color and addresses an empty cell; the violation that comes with it is
    the one the validator reports after the opposite color was played there
    and the grid completed, and a returned Red move is one whose own
    completion validates clean.  On a grid without an empty cell the finder
    returns none. *)
Theorem findMoveByNegation_move (g : list (list Color)) :
  (∀ fm, findMoveByNegation (of_board g) = Ok (Some fm) →
     active (color fm.1) ∧ cell g (row fm.1) (column fm.1) = Some Grey ∧
     violationAfterCompletion (of_board g)
       {| color := opposite (color fm.1); row := row fm.1; column := column fm.1 |}
     = Ok (Some fm.2) ∧
     (color fm.1 = Red → violationAfterCompletion (of_board g) fm.1 = Ok None)) ∧
  (full g → findMoveByNegation (of_board g) = Ok None).
Proof.
  split; [apply findMoveByNegation_target | apply findMoveByNegation_full].
Qed.

Lemma findMoveByNegation_move_witness :
  let g := [[Red; Grey]; [Grey; Grey]] in
  ∃ fm, findMoveByNegation (of_board g) = Ok (Some fm) ∧
    active (color fm.1) ∧ cell g (row fm.1) (column fm.1) = Some Grey ∧
    violationAfterCompletion (of_board g)
      {| color := opposite (color fm.1); row := row fm.1; column := column fm.1 |}
    = Ok (Some fm.2) ∧
    (color fm.1 = Red → violationAfterCompletion (of_board g) fm.1 = Ok None).
Proof.
  eexists. split; [vm_compute; reflexivity|].
  apply (proj1 (findMoveByNegation_move [[Red; Grey]; [Grey; Grey]])).
  vm_compute. reflexivity.
Defined.

Lemma same_shape_set_cell g r c col : same_shape g (set_cell g r c col).
Proof.
  unfold same_shape, set_cell. apply Forall2_same_length_lookup. split.
  { by rewrite length_alter. }
  intros i line line' Hl Hl'. rewrite list_lookup_alter in Hl'.
  case_decide; subst; [|by simplify_eq].
  rewrite Hl in Hl'. simpl in Hl'. injection Hl' as <-. by rewrite length_insert.
Qed.

Lemma count_insert_Grey (line : list Color) c col :
  line !! c = Some Grey → col ≠ Grey →
  count Grey (<[c := col]> line) + 1 = count Grey line.
Proof.
  intros Hc Hcol. revert c Hc. induction line as [|x line IH]; intros c Hc; [done|].
  destruct c as [|c]; simpl in *.
  - injection Hc as ->. unfold count. rewrite !filter_cons.
    rewrite decide_False, decide_True by done. simpl. lia.
  - specialize (IH c Hc). unfold count in *. rewrite !filter_cons.
    case_decide; simpl; lia.
Qed.

Lemma empty_cells_cons x g : empty_cells (x :: g) = count Grey x + empty_cells g.
Proof. done. Qed.

Lemma empty_cells_set_cell g r c col :
  cell g r c = Some Grey → col ≠ Grey →
  empty_cells (set_cell g r c col) + 1 = empty_cells g.
Proof.
  intros Hcell Hcol. apply cell_Some in Hcell as (line & Hline & Hc).
  revert r Hline. induction g as [|x g IH]; intros r Hline; [done|].
  destruct r as [|r]; simpl in Hline.
  - injection Hline as ->.
    change (set_cell (line :: g) 0 c col) with (<[c := col]> line :: g).
    rewrite !empty_cells_cons.
    pose proof (count_insert_Grey _ _ _ Hc Hcol). lia.
  - change (set_cell (x :: g) (S r) c col) with (x :: set_cell g r c col).
    rewrite !empty_cells_cons. specialize (IH r Hline). lia.
Qed.

Lemma play_all_snoc g ms m :
  play_all g (ms ++ [m]) = set_cell (play_all g ms) (row m) (column m) (color m).
Proof. unfold play_all. by rewrite foldl_app. Qed.

Lemma reached_nil g : reached g [] g.
Proof.
  unfold reached. split_and!.
  - done.
  - by constructor.
  - by constructor.
  - intros r c Hc. split; [done|]. simpl. apply not_elem_of_nil.
  - by intros r c col Hc _.
  - apply same_shape_refl.
  - simpl. lia.
Qed.

Lemma reached_step g ms gk fm b2 v :
  reached g ms gk →
  findMoveByNegation (of_board gk) = Ok (Some fm) →
  playMove (of_board gk) fm.1 = Ok (b2, v) →
  b2 = of_board (set_cell gk (row fm.1) (column fm.1) (color fm.1)) ∧
  reached g (ms ++ [fm.1]) (set_cell gk (row fm.1) (column fm.1) (color fm.1)).
Proof.
  intros (Hgk & Hall & Hnd & Hgrey & Hkeep & Hshape & Hcount) Hfind Hplay.
  destruct (findMoveByNegation_target _ _ Hfind) as (Hact & Hcell & _).
  assert (Hin : in_bounds gk fm.1) by (unfold in_bounds; by rewrite Hcell).
  rewrite (playMove_in_bounds _ _ Hin) in Hplay.
  destruct (validateBoard _) as [v'|]; simpl in Hplay; [|done].
  injection Hplay as <- <-. split; [done|].
  destruct (Hgrey _ _ Hcell) as [Hcell0 Hfresh].
  assert (Hcol : color fm.1 ≠ Grey) by (by apply active_iff).
  unfold reached. split_and!.
  - by rewrite play_all_snoc, Hgk.
  - apply Forall_app. split; [done|]. by constructor.
  - rewrite fmap_app. apply NoDup_app. split_and!; [done| |].
    + intros x Hx Hx'. simpl in Hx'. apply list_elem_of_singleton in Hx'. by subst.
    + simpl. apply NoDup_singleton.
  - intros r c Hrc. rewrite cell_set_cell in Hrc by (by eexists).
    case_decide as Hd; [congruence|].
    destruct (Hgrey _ _ Hrc) as [Hg0 Hnot]. split; [done|].
    rewrite fmap_app, elem_of_app. intros [Hold | Hnew]; [done|].
    simpl in Hnew. apply list_elem_of_singleton in Hnew. unfold target in Hnew.
    injection Hnew as -> ->. by destruct Hd.
  - intros r c col Hrc Hne. rewrite cell_set_cell by (by eexists).
    case_decide as Hd; [|by apply Hkeep].
    destruct Hd as [-> ->]. congruence.
  - eapply same_shape_trans; [exact Hshape|]. apply same_shape_set_cell.
  - rewrite length_app. simpl.
    pose proof (empty_cells_set_cell _ _ _ _ Hcell Hcol). lia.
Qed.

Lemma chain_reached g fms b' :
  forced_chain (of_board g) fms b' →
  ∃ gk, b' = of_board gk ∧ reached g (fst <$> fms) gk.
Proof.
  remember (of_board g) as b0 eqn:Hb0. induction 1 as [b|b ms b1 fm b2 Hch IH Hfind Hplay].
  - subst. exists g. split; [done|]. apply reached_nil.
  - destruct (IH Hb0) as (gk & -> & Hreach).
    destruct (reached_step _ _ _ _ _ _ Hreach Hfind Hplay) as [-> Hreach'].
    eexists. split; [done|]. by rewrite fmap_app.
Qed.

(** X17: the board [trySolveByNegation] returns on a grid of colors is
    that grid with the returned moves applied in order; every move has an
    active color and addresses a cell that was empty in the grid given, no
    two moves address the same cell, a cell that held a color keeps it, the
    shape is kept, and the empty cells decrease by one per move, so that
    there are at most as many moves as the grid had empty cells. *)
Theorem trySolveByNegation_fills (g : list (list Color)) fuel res :
  trySolveByNegation fuel (of_board g) = Some (Ok res) →
  let ms := fst <$> resultMoves res in
  board res = of_board (play_all g ms) ∧
  Forall (λ m, active (color m) ∧ cell g (row m) (column m) = Some Grey) ms ∧
  NoDup (target <$> ms) ∧
  (∀ r c col, cell g r c = Some col → col ≠ Grey →
     cell (play_all g ms) r c = Some col) ∧
  same_shape g (play_all g ms) ∧
  empty_cells (play_all g ms) + length ms = empty_cells g ∧
  length (resultMoves res) ≤ empty_cells g.
Proof.
  unfold trySolveByNegation, solveInit.
  rewrite cloneBoard_of_board, length_of_board.
  destruct (findMoveByNegation (of_board g)) as [next|] eqn:Hnext;
    cbn -[Nat.pow]; [|done].
  intros Hrun.
  assert (Hreach : ∃ gk, board res = of_board gk ∧
                         reached g (fst <$> resultMoves res) gk).
  { eapply (solveLoop_result (of_board g)) in Hrun as (_ & Hsome & Hnone);
      cbn [moves currentBoard nextMove moveCount length]; try done; [|constructor|lia].
    destruct (unexpectedViolation res) as [v|].
    - destruct (Hsome v eq_refl) as (ms & fm & prev & -> & Hch & Hfind & Hplay).
      apply chain_reached in Hch as (gk & -> & Hreach).
      destruct (reached_step _ _ _ _ _ _ Hreach Hfind Hplay) as [-> Hreach'].
      eexists. split; [done|]. by rewrite fmap_app.
    - destruct (Hnone eq_refl) as [Hch _]. by apply chain_reached. }
  destruct Hreach as (gk & Hboard & -> & Hall & Hnd & _ & Hkeep & Hshape & Hcount).
  rewrite length_fmap in Hcount.
  split_and!; [done..| by rewrite length_fmap |].
  rewrite <- Hcount. apply Nat.le_add_l.
Qed.

Lemma trySolveByNegation_fills_witness :
  let g := [[Red; Grey]; [Grey; Grey]] in
  ∃ res, trySolveByNegation 5 (of_board g) = Some (Ok res) ∧
    length (resultMoves res) = 3 ∧
    board res = of_board (play_all g (fst <$> resultMoves res)) ∧
    Forall (λ m, active (color m) ∧ cell g (row m) (column m) = Some Grey)
      (fst <$> resultMoves res) ∧
    NoDup (target <$> (fst <$> resultMoves res)) ∧
    (∀ r c col, cell g r c = Some col → col ≠ Grey →
       cell (play_all g (fst <$> resultMoves res)) r c = Some col) ∧
    same_shape g (play_all g (fst <$> resultMoves res)) ∧
    empty_cells (play_all g (fst <$> resultMoves res))
      + length (fst <$> resultMoves res) = empty_cells g ∧
    length (resultMoves res) ≤ empty_cells g.
Proof.
  eexists. split; [vm_compute; reflexivity|]. split; [reflexivity|].
  apply (trySolveByNegation_fills [[Red; Grey]; [Grey; Grey]] 5).
  vm_compute. reflexivity.
Defined.

(** ** Soundness with respect to solved grids *)

Lemma validateBoard_clean (g : list (list Color)) :
  wide g →
  no_triple g → no_triple (columns_of g) →
  Forall balanced g → Forall balanced (columns_of g) →
  no_repeat g → no_repeat (columns_of g) →
  validateBoard (of_board g) = Ok None.
Proof.
  intros Hw Ht Htc Hb Hbc Hr Hrc.
  pose proof (findThriceRepetition_cases g Hw) as Hthrice.
  pose proof (findOverSaturation_cases g Hw) as Hover.
  pose proof (findLineRepetition_cases g Hw) as Hrep.
  unfold validateBoard.
  destruct (findThriceRepetition (of_board g)) as [t|].
  { by destruct Hthrice as [_ []]. }
  destruct (findOverSaturation (of_board g)) as [[o|]|]; simpl; [| |done].
  { by destruct Hover as [_ []]. }
  destruct (findLineRepetition (of_board g)) as [[l|]|]; [| |done].
  { by destruct Hrep as [_ []]. }
  done.
Qed.

Lemma NoDup_positions_of C l : NoDup (positions_of C l).
Proof. unfold positions_of. apply NoDup_filter, NoDup_seq. Qed.

Lemma positions_of_submseteq l sl C :
  line_extends l sl → C ≠ Grey → positions_of C l ⊆+ positions_of C sl.
Proof.
  intros [_ Hext] HC. apply NoDup_submseteq; [apply NoDup_positions_of|].
  intros i. rewrite !elem_of_positions_of. intros Hi. by apply Hext.
Qed.

Lemma count_line_extends l sl C :
  line_extends l sl → C ≠ Grey → count C l ≤ count C sl.
Proof.
  intros Hext HC. rewrite <- !length_positions_of.
  by apply submseteq_length, positions_of_submseteq.
Qed.

Lemma line_extends_tight l sl C i :
  line_extends l sl → C ≠ Grey →
  2 * count C sl ≤ length sl → length l ≤ 2 * count C l →
  sl !! i = Some C → l !! i = Some C.
Proof.
  intros Hext HC Hbal Hhalf Hi.
  pose proof (positions_of_submseteq _ _ _ Hext HC) as Hsub.
  assert (Hperm : positions_of C l ≡ₚ positions_of C sl).
  { apply submseteq_length_Permutation; [done|].
    rewrite !length_positions_of. destruct Hext as [Hlen _]. lia. }
  apply elem_of_positions_of. rewrite Hperm. by apply elem_of_positions_of.
Qed.

Lemma balanced_line_extends l sl :
  line_extends l sl → balanced sl → balanced l.
Proof.
  intros Hext Hbal C HC. pose proof (Hbal C HC) as Hs.
  pose proof (count_line_extends _ _ C Hext (proj1 (active_iff C) HC)).
  destruct Hext as [Hlen _]. lia.
Qed.

Lemma triple_line_extends l sl i C :
  line_extends l sl → triple (line_of l) i C → triple (line_of sl) i C.
Proof.
  intros [_ Hext] (HC & H0 & H1 & H2). pose proof (proj1 (active_iff C) HC) as Hg.
  unfold triple, line_of in *. split_and!; [done|by apply Hext..].
Qed.

Lemma full_line_active sl i y : count Grey sl = 0 → sl !! i = Some y → active y.
Proof.
  intros Hfull Hy. apply active_iff. intros ->.
  apply count_zero_iff in Hfull. apply Hfull. by eapply list_elem_of_lookup_2.
Qed.

Lemma line_extends_completeRow l sl :
  line_extends l sl → balanced sl → count Grey sl = 0 →
  line_extends (completeRow l) sl.
Proof.
  intros Hext Hbal Hfull. pose proof Hext as [Hlen Hcells].
  assert (Hfill : ∀ C other, active C → active other → C ≠ other →
    length l ≤ 2 * count C l → line_extends (replace_empty other l) sl).
  { intros C other HC Hother Hne Hhalf. split; [by rewrite length_replace_empty|].
    intros i col Hi Hcol. rewrite lookup_replace_empty in Hi.
    destruct (l !! i) as [x|] eqn:Hx; simpl in Hi; [|done].
    injection Hi as <-. case_decide as Hgrey; [|by apply Hcells]. subst x.
    destruct (lookup_lt_is_Some_2 sl i) as [y Hy].
    { apply lookup_lt_Some in Hx. lia. }
    pose proof (full_line_active _ _ _ Hfull Hy) as Hyact.
    destruct (decide (y = C)) as [->|HyC].
    - pose proof (line_extends_tight l sl C i Hext (proj1 (active_iff C) HC)
        (Hbal C HC) Hhalf Hy) as Habs.
      pose proof (proj1 (active_iff C) HC). congruence.
    - rewrite Hy. f_equal.
      destruct HC as [-> | ->], Hother as [-> | ->], Hyact as [-> | ->]; congruence. }
  destruct (completeRow_cases l)
    as [(Hr & -> & _) | [(_ & Hb & -> & _) | (_ & _ & ->)]]; [| |done].
  - apply (Hfill Red Blue); [by left | by right | done | done].
  - apply (Hfill Blue Red); [by right | by left | done | done].
Qed.

Lemma line_extends_equal C li lj sli slj :
  line_extends li sli → line_extends lj slj → length li = length lj →
  qualifies C li → qualifies C lj → positions_of C li = positions_of C lj →
  balanced sli → balanced slj → count Grey sli = 0 → count Grey slj = 0 →
  sli = slj.
Proof.
  intros Hi Hj Hlen [HC Hqi] [_ Hqj] Hpos Hbi Hbj Hfi Hfj.
  pose proof (proj1 (active_iff C) HC) as Hg.
  assert (Hiff : ∀ k, sli !! k = Some C ↔ slj !! k = Some C).
  { intros k. split; intros Hk.
    - apply (proj2 Hj); [|done]. apply elem_of_positions_of. rewrite <- Hpos.
      apply elem_of_positions_of.
      by apply (line_extends_tight li sli C k Hi Hg (Hbi C HC) Hqi).
    - apply (proj2 Hi); [|done]. apply elem_of_positions_of. rewrite Hpos.
      apply elem_of_positions_of.
      by apply (line_extends_tight lj slj C k Hj Hg (Hbj C HC) Hqj). }
  apply list_eq_same_length with (length sli);
    [by rewrite <- (proj1 Hj), <- Hlen, (proj1 Hi) | done |].
  intros k x y _ Hx Hy.
  pose proof (full_line_active _ _ _ Hfi Hx) as Hxa.
  pose proof (full_line_active _ _ _ Hfj Hy) as Hya.
  specialize (Hiff k). rewrite Hx, Hy in Hiff.
  destruct HC as [-> | ->], Hxa as [-> | ->], Hya as [-> | ->]; try done;
    destruct Hiff as [H1 H2]; (by specialize (H1 eq_refl)) || (by specialize (H2 eq_refl)).
Qed.

(** What a family of lines inherits from a family of solved lines that
    extends it. *)
Lemma lines_clean (ls sls : list (list Color)) n :
  Forall2 line_extends ls sls → Forall (λ l, length l = n) ls →
  no_triple sls → Forall balanced sls → full sls → NoDup sls →
  no_triple ls ∧ Forall balanced ls ∧ no_repeat ls.
Proof.
  intros Hext Hlen Ht Hb Hf Hnd. split_and!.
  - intros k line i C Hk Htr.
    destruct (Forall2_lookup_l _ _ _ _ _ Hext Hk) as (sl & Hsl & Hle).
    apply (Ht k sl i C Hsl). by eapply triple_line_extends.
  - apply Forall_lookup. intros k line Hk.
    destruct (Forall2_lookup_l _ _ _ _ _ Hext Hk) as (sl & Hsl & Hle).
    eapply balanced_line_extends; [done|]. by eapply (Forall_lookup_1 _ _ _ _ Hb).
  - intros i j Hi Hij (C & ci & cj & Hci & Hcj & Hqi & Hqj & Hpos).
    destruct (Forall2_lookup_l _ _ _ _ _ Hext Hci) as (si & Hsi & Hlei).
    destruct (Forall2_lookup_l _ _ _ _ _ Hext Hcj) as (sj & Hsj & Hlej).
    assert (si = sj) as ->.
    { apply (line_extends_equal C ci cj); try done.
      - rewrite (Forall_lookup_1 _ _ _ _ Hlen Hci).
        by rewrite (Forall_lookup_1 _ _ _ _ Hlen Hcj).
      - by eapply (Forall_lookup_1 _ _ _ _ Hb).
      - by eapply (Forall_lookup_1 _ _ _ _ Hb).
      - by eapply (Forall_lookup_1 _ _ _ _ Hf).
      - by eapply (Forall_lookup_1 _ _ _ _ Hf). }
    pose proof (NoDup_lookup _ _ _ _ Hnd Hsi Hsj). lia.
Qed.

Lemma extends_same_shape g s : extends g s → same_shape g s.
Proof.
  unfold extends, same_shape. intros H. eapply Forall2_impl; [exact H|].
  by intros l sl [? _].
Qed.

Lemma extends_square g s : extends g s → square g → square s.
Proof.
  intros Hext Hsq. pose proof (extends_same_shape _ _ Hext) as Hs.
  unfold square. rewrite <- (same_shape_length _ _ Hs).
  by apply (same_shape_Forall (λ n, n = length g) g s).
Qed.

Lemma extends_cell g s r c col :
  extends g s → cell g r c = Some col → col ≠ Grey → cell s r c = Some col.
Proof.
  intros Hext Hcell Hcol. apply cell_Some in Hcell as (line & Hline & Hc).
  destruct (Forall2_lookup_l _ _ _ _ _ Hext Hline) as (sl & Hsl & _ & Hle).
  apply cell_Some. exists sl. split; [done|]. by apply Hle.
Qed.

Lemma square_columns g k : square g → k < length g → Forall (λ r, k < length r) g.
Proof.
  intros Hsq Hk. eapply Forall_impl; [exact Hsq|]. simpl. intros r ->. done.
Qed.

Lemma extends_columns g s :
  extends g s → square g → extends (columns_of g) (columns_of s).
Proof.
  intros Hext Hsq. pose proof (extends_square _ _ Hext Hsq) as Hsq'.
  pose proof (same_shape_length _ _ (extends_same_shape _ _ Hext)) as Hlen.
  unfold extends, columns_of. rewrite <- Hlen.
  apply Forall2_fmap, Forall_Forall2_diag, Forall_forall.
  intros k Hk. apply elem_of_seq in Hk.
  assert (Hg : Forall (λ r, k < length r) g) by (apply square_columns; [done | lia]).
  assert (Hs : Forall (λ r, k < length r) s) by (apply square_columns; [done | lia]).
  split.
  - by rewrite !length_column_of.
  - intros i col Hi Hcol. rewrite column_of_lookup in * by done.
    by eapply extends_cell.
Qed.

Lemma full_columns_of s : full s → full (columns_of s).
Proof.
  intros Hfull. unfold full, columns_of. apply Forall_fmap, Forall_forall.
  intros k _. simpl. by apply full_column_of.
Qed.

Lemma length_columns_of g : length (columns_of g) = length g.
Proof. unfold columns_of. by rewrite length_fmap, length_seq. Qed.

Lemma validateBoard_extends g s :
  square g → extends g s → solution s → validateBoard (of_board g) = Ok None.
Proof.
  intros Hsq Hext (Hfull & [Ht Htc] & [Hb Hbc] & [Hnd Hndc]).
  destruct (lines_clean g s (length g) Hext Hsq Ht Hb Hfull Hnd) as (? & ? & ?).
  destruct (lines_clean (columns_of g) (columns_of s) (length g)
              (extends_columns _ _ Hext Hsq)) as (? & ? & ?); try done.
  { pose proof (columns_of_square _ Hsq) as Hsqc. unfold square in Hsqc.
    by rewrite length_columns_of in Hsqc. }
  { by apply full_columns_of. }
  apply validateBoard_clean; try done. by apply square_wide.
Qed.

Lemma same_shape_square g g' : same_shape g g' → square g → square g'.
Proof.
  intros Hs Hsq. unfold square. rewrite <- (same_shape_length _ _ Hs).
  by apply (same_shape_Forall (λ n, n = length g) g g').
Qed.

Lemma same_shape_completeRows g : same_shape g (completeRow <$> g).
Proof.
  unfold same_shape. apply Forall2_fmap_r, Forall_Forall2_diag.
  apply Forall_forall. intros cs _. simpl. by rewrite length_completeRow.
Qed.

Lemma same_shape_sym g g' : same_shape g g' → same_shape g' g.
Proof.
  unfold same_shape. intros H. apply Forall2_flip.
  eapply Forall2_impl; [exact H|]. done.
Qed.

Lemma extends_completeRows g s :
  extends g s → Forall balanced s → full s → extends (completeRow <$> g) s.
Proof.
  intros Hext Hb Hf. apply Forall2_same_length_lookup. split.
  { rewrite length_fmap. by eapply Forall2_length. }
  intros r l' sl Hl' Hsl. rewrite list_lookup_fmap in Hl'.
  destruct (g !! r) as [l|] eqn:Hl; [|done]. injection Hl' as <-.
  apply line_extends_completeRow.
  - by eapply (Forall2_lookup_lr _ _ _ _ _ _ Hext).
  - by eapply (Forall_lookup_1 _ _ _ _ Hb).
  - by eapply (Forall_lookup_1 _ _ _ _ Hf).
Qed.

Lemma columns_of_lookup_Some g k : k < length g → columns_of g !! k = Some (column_of g k).
Proof.
  intros Hk. unfold columns_of. by rewrite list_lookup_fmap, lookup_seq_lt.
Qed.

Lemma cell_completeBoard g r c col :
  square g → cell (completeBoard g) r c = Some col →
  c < length g ∧ completeRow (column_of (completeRow <$> g) c) !! r = Some col.
Proof.
  intros Hsq Hcell.
  pose proof (same_shape_square _ _ (same_shape_completeRows g) Hsq) as Hsq1.
  assert (Hlen1 : length (completeRow <$> g) = length g) by (by rewrite length_fmap).
  unfold cell, completeBoard in Hcell. rewrite list_lookup_imap in Hcell.
  destruct ((completeRow <$> g) !! r) as [line|] eqn:Hline; simpl in Hcell; [|done].
  rewrite list_lookup_imap in Hcell.
  destruct (line !! c) as [x|] eqn:Hx; simpl in Hcell; [|done].
  injection Hcell as <-.
  pose proof (Forall_lookup_1 _ _ _ _ Hsq1 Hline) as Hll. simpl in Hll.
  assert (Hc : c < length g).
  { apply lookup_lt_Some in Hx. lia. }
  split; [done|]. rewrite decide_True by done.
  destruct (lookup_lt_is_Some_2 (completeRow (column_of (completeRow <$> g) c)) r)
    as [y Hy].
  { rewrite length_completeRow, length_column_of.
    - by apply lookup_lt_Some in Hline.
    - apply square_columns; [done | lia]. }
  by rewrite Hy.
Qed.

Lemma extends_completeBoard g s :
  square g → extends g s → solution s → extends (completeBoard g) s.
Proof.
  intros Hsq Hext (Hfull & _ & [Hb Hbc] & _).
  pose proof (extends_square _ _ Hext Hsq) as Hsqs.
  pose proof (same_shape_square _ _ (same_shape_completeRows g) Hsq) as Hsq1.
  pose proof (extends_completeRows _ _ Hext Hb Hfull) as Hext1.
  pose proof (extends_columns _ _ Hext1 Hsq1) as Hcols.
  pose proof (same_shape_length _ _ (extends_same_shape _ _ Hext)) as Hlen.
  assert (Hshape : same_shape (completeBoard g) s).
  { eapply same_shape_trans; [apply same_shape_sym, same_shape_completeBoard|].
    by apply extends_same_shape. }
  apply Forall2_same_length_lookup. split; [by apply same_shape_length|].
  intros r l' sl Hl' Hsl. split.
  { by apply (Forall2_lookup_lr _ _ _ _ _ _ Hshape Hl' Hsl). }
  intros i col Hi Hcol.
  assert (Hcell : cell (completeBoard g) r i = Some col).
  { apply cell_Some. by exists l'. }
  apply (cell_completeBoard _ _ _ _ Hsq) in Hcell as [Hlt Hcomp].
  assert (Hle : line_extends (column_of (completeRow <$> g) i) (column_of s i)).
  { eapply Forall2_lookup_lr; [exact Hcols| |].
    - apply columns_of_lookup_Some. by rewrite length_fmap.
    - apply columns_of_lookup_Some. lia. }
  apply line_extends_completeRow in Hle.
  - destruct Hle as [_ Hle]. specialize (Hle r col Hcomp Hcol).
    rewrite column_of_lookup in Hle by (apply square_columns; [done | lia]).
    unfold cell in Hle. by rewrite Hsl in Hle.
  - apply (Forall_lookup_1 _ _ _ _ Hbc (columns_of_lookup_Some s i ltac:(lia))).
  - by apply full_column_of.
Qed.

Lemma extends_set_cell g s r c col :
  extends g s → cell s r c = Some col → extends (set_cell g r c col) s.
Proof.
  intros Hext Hs. apply Forall2_same_length_lookup. split.
  { rewrite length_set_cell. by eapply Forall2_length. }
  intros r' l' sl Hl' Hsl. unfold set_cell in Hl'. rewrite list_lookup_alter in Hl'.
  case_decide as Hr; [subst r'|by eapply (Forall2_lookup_lr _ _ _ _ _ _ Hext)].
  destruct (g !! r) as [l|] eqn:Hl; [|done]. simpl in Hl'. injection Hl' as <-.
  destruct (Forall2_lookup_lr _ _ _ _ _ _ Hext Hl Hsl) as [Hlen Hcells].
  split; [by rewrite length_insert|].
  intros i x Hi Hx. rewrite list_lookup_insert in Hi.
  case_decide as Hc; [|by apply Hcells].
  destruct Hc as [-> _]. injection Hi as <-.
  unfold cell in Hs. by rewrite Hsl in Hs.
Qed.

Lemma square_set_cell g r c col : square g → square (set_cell g r c col).
Proof. apply same_shape_square, same_shape_set_cell. Qed.

Lemma solution_cell s g r c x :
  extends g s → solution s → cell g r c = Some x → ∃ y, cell s r c = Some y ∧ active y.
Proof.
  intros Hext (Hfull & _) Hcell. apply cell_Some in Hcell as (l & Hl & Hx).
  destruct (Forall2_lookup_l _ _ _ _ _ Hext Hl) as (sl & Hsl & Hlen & _).
  destruct (lookup_lt_is_Some_2 sl c) as [y Hy].
  { apply lookup_lt_Some in Hx. lia. }
  exists y. split; [apply cell_Some; by exists sl|].
  eapply full_line_active; [|exact Hy]. by eapply (Forall_lookup_1 _ _ _ _ Hfull).
Qed.

Lemma violationAfterCompletion_extends g s m :
  square g → extends g s → solution s → in_bounds g m →
  cell s (row m) (column m) = Some (color m) →
  violationAfterCompletion (of_board g) m = Ok None.
Proof.
  intros Hsq Hext Hsol Hin Hs. unfold violationAfterCompletion.
  rewrite (playMove_in_bounds _ _ Hin).
  set (g' := set_cell g (row m) (column m) (color m)).
  assert (Hsq' : square g') by (by apply square_set_cell).
  assert (Hext' : extends g' s) by (by apply extends_set_cell).
  rewrite (validateBoard_extends g' s Hsq' Hext' Hsol). simpl.
  rewrite (naiveAutocompleteBoard_completeBoard _ (square_wide _ Hsq')).
  apply (validateBoard_extends _ s); [|by apply extends_completeBoard|done].
  eapply same_shape_square; [apply same_shape_completeBoard | done].
Qed.

Lemma findMoveByNegation_extends g s fm :
  square g → extends g s → solution s →
  findMoveByNegation (of_board g) = Ok (Some fm) →
  cell s (row fm.1) (column fm.1) = Some (color fm.1).
Proof.
  intros Hsq Hext Hsol Hfind.
  destruct (findMoveByNegation_target _ _ Hfind) as (Hact & Hcell & Hvac & _).
  destruct (solution_cell _ _ _ _ _ Hext Hsol Hcell) as (y & Hy & Hyact).
  destruct (decide (y = color fm.1)) as [->|Hne]; [done|].
  assert (Hopp : y = opposite (color fm.1)).
  { destruct Hact as [Ha | Ha], Hyact as [-> | ->]; rewrite Ha in *; simpl; congruence. }
  rewrite (violationAfterCompletion_extends g s) in Hvac; try done.
  - unfold in_bounds. simpl. by rewrite Hcell.
  - simpl. by rewrite <- Hopp.
Qed.

Lemma forced_step_extends gk s fm b2 v :
  square gk → extends gk s → solution s →
  findMoveByNegation (of_board gk) = Ok (Some fm) →
  playMove (of_board gk) fm.1 = Ok (b2, v) →
  b2 = of_board (set_cell gk (row fm.1) (column fm.1) (color fm.1)) ∧ v = None ∧
  square (set_cell gk (row fm.1) (column fm.1) (color fm.1)) ∧
  extends (set_cell gk (row fm.1) (column fm.1) (color fm.1)) s ∧
  cell s (row fm.1) (column fm.1) = Some (color fm.1).
Proof.
  intros Hsq Hext Hsol Hfind Hplay.
  pose proof (findMoveByNegation_extends _ _ _ Hsq Hext Hsol Hfind) as Hs.
  pose proof (findMoveByNegation_in_bounds _ _ Hfind) as Hin.
  pose proof (square_set_cell gk (row fm.1) (column fm.1) (color fm.1) Hsq) as Hsq'.
  pose proof (extends_set_cell gk s _ _ _ Hext Hs) as Hext'.
  rewrite (playMove_in_bounds _ _ Hin) in Hplay.
  rewrite (validateBoard_extends _ s Hsq' Hext' Hsol) in Hplay. simpl in Hplay.
  injection Hplay as <- <-. done.
Qed.

Lemma chain_extends g s fms b' :
  square g → extends g s → solution s →
  forced_chain (of_board g) fms b' →
  b' = of_board (play_all g (fst <$> fms)) ∧
  square (play_all g (fst <$> fms)) ∧
  extends (play_all g (fst <$> fms)) s ∧
  Forall (λ m, cell s (row m) (column m) = Some (color m)) (fst <$> fms).
Proof.
  intros Hsq Hext Hsol. remember (of_board g) as b0 eqn:Hb0.
  induction 1 as [b|b ms b1 fm b2 Hch IH Hfind Hplay].
  - subst. simpl. split_and!; [done..|constructor].
  - destruct (IH Hb0) as (-> & Hsqk & Hextk & Hall).
    destruct (forced_step_extends _ _ _ _ _ Hsqk Hextk Hsol Hfind Hplay)
      as (-> & _ & Hsq' & Hext' & Hs).
    rewrite fmap_app. change (fst <$> [fm]) with [fm.1]. rewrite play_all_snoc.
    split_and!; [done..|].
    apply Forall_app. split; [done|]. by constructor.
Qed.

Lemma extends_refl s : extends s s.
Proof. apply Forall_Forall2_diag, Forall_forall. by intros l _. Qed.

(** X18: on a square grid that can be filled in to a solved grid the
    validator reports nothing; so a reported violation means that no solved
    grid extends the grid, and a solved grid validates clean. *)
Theorem validateBoard_sound (g : list (list Color)) :
  square g →
  (∀ s, extends g s → solution s → validateBoard (of_board g) = Ok None) ∧
  (∀ v, validateBoard (of_board g) = Ok (Some v) → ¬ ∃ s, extends g s ∧ solution s) ∧
  (solution g → validateBoard (of_board g) = Ok None).
Proof.
  intros Hsq. split_and!.
  - intros s. by apply validateBoard_extends.
  - intros v Hv (s & Hext & Hsol).
    by rewrite (validateBoard_extends g s) in Hv.
  - intros Hsol. apply (validateBoard_extends g g); [done | apply extends_refl | done].
Qed.

(** X19: naive completion only writes colors that every solved grid
    extending the argument holds: a solved line that extends a row extends
    the completed row, and a solved grid that extends a square grid extends
    the completed grid. *)
Theorem naiveAutocomplete_sound :
  (∀ l sl : list Color,
     line_extends l sl → balanced sl → count Grey sl = 0 →
     ∃ l', naiveAutocompleteRow (of_row l) = of_row l' ∧ line_extends l' sl) ∧
  (∀ g s : list (list Color),
     square g → extends g s → solution s →
     ∃ g', naiveAutocompleteBoard (of_board g) = of_board g' ∧ extends g' s).
Proof.
  split.
  - intros l sl Hext Hb Hf. exists (completeRow l).
    split; [apply naiveAutocompleteRow_of_row | by apply line_extends_completeRow].
  - intros g s Hsq Hext Hsol. exists (completeBoard g). split.
    + by apply naiveAutocompleteBoard_completeBoard, square_wide.
    + by apply extends_completeBoard.
Qed.

(** X20: a move the finder returns on a square grid is forced: every
    solved grid that extends the grid holds the move's color at the move's
    cell. *)
Theorem findMoveByNegation_forced (g s : list (list Color)) fm :
  square g → extends g s → solution s →
  findMoveByNegation (of_board g) = Ok (Some fm) →
  cell s (row fm.1) (column fm.1) = Some (color fm.1).
Proof. apply findMoveByNegation_extends. Qed.

(** X21: when a solved grid extends the square grid the solver is run
    on, the solver returns without an unexpected violation, every move it
    returns writes the color the solved grid holds there, and the solved
    grid extends the board returned. *)
Theorem trySolveByNegation_sound (g s : list (list Color)) fuel res :
  square g → extends g s → solution s →
  trySolveByNegation fuel (of_board g) = Some (Ok res) →
  unexpectedViolation res = None ∧
  Forall (λ fm, cell s (row fm.1) (column fm.1) = Some (color fm.1)) (resultMoves res) ∧
  board res = of_board (play_all g (fst <$> resultMoves res)) ∧
  extends (play_all g (fst <$> resultMoves res)) s.
Proof.
  intros Hsq Hext Hsol. unfold trySolveByNegation, solveInit.
  rewrite cloneBoard_of_board, length_of_board.
  destruct (findMoveByNegation (of_board g)) as [next|] eqn:Hnext;
    cbn -[Nat.pow]; [|done].
  intros Hrun.
  eapply (solveLoop_result (of_board g)) in Hrun as (_ & Hsome & Hnone);
    cbn [moves currentBoard nextMove moveCount length]; try done; [|constructor|lia].
  destruct (unexpectedViolation res) as [v|].
  - destruct (Hsome v eq_refl) as (ms & fm & prev & -> & Hch & Hfind & Hplay).
    apply (chain_extends g s) in Hch as (-> & Hsqk & Hextk & _); [|done..].
    by destruct (forced_step_extends _ _ _ _ _ Hsqk Hextk Hsol Hfind Hplay)
      as (_ & ? & _).
  - destruct (Hnone eq_refl) as [Hch _].
    apply (chain_extends g s) in Hch as (Hb & _ & Hextk & Hall); [|done..].
    split_and!; [done| |done..].
    by apply Forall_fmap in Hall.
Qed.

Lemma no_triple_short (ls : list (list Color)) :
  Forall (λ l, length l < 3) ls → no_triple ls.
Proof.
  intros Hshort k line i C Hk (_ & _ & _ & H2).
  pose proof (Forall_lookup_1 _ _ _ _ Hshort Hk) as Hlen. simpl in Hlen.
  unfold line_of in H2. apply lookup_lt_Some in H2. lia.
Qed.

Lemma solution_two_by_two : solution [[Red; Blue]; [Blue; Red]].
Proof.
  unfold solution. split_and!.
  - unfold full. by repeat constructor.
  - apply no_triple_short. repeat constructor.
  - apply no_triple_short. repeat constructor.
  - constructor; [|constructor; [|constructor]]; intros C [-> | ->]; vm_compute; lia.
  - constructor; [|constructor; [|constructor]]; intros C [-> | ->]; vm_compute; lia.
  - apply NoDup_cons. split; [|apply NoDup_singleton].
    rewrite list_elem_of_singleton. congruence.
  - change (columns_of [[Red; Blue]; [Blue; Red]]) with [[Red; Blue]; [Blue; Red]].
    apply NoDup_cons. split; [|apply NoDup_singleton].
    rewrite list_elem_of_singleton. congruence.
Qed.

Lemma extends_two_by_two : extends [[Red; Grey]; [Grey; Grey]] [[Red; Blue]; [Blue; Red]].
Proof.
  constructor; [|constructor; [|constructor]];
    (split; [reflexivity | intros [|[|?]] col Hi Hcol; simpl in *; congruence]).
Qed.

Lemma validateBoard_sound_witness :
  validateBoard (of_board [[Red; Grey]; [Grey; Grey]]) = Ok None.
Proof.
  apply (proj1 (validateBoard_sound [[Red; Grey]; [Grey; Grey]] ltac:(by repeat constructor))
           [[Red; Blue]; [Blue; Red]]).
  - exact extends_two_by_two.
  - exact solution_two_by_two.
Defined.

Lemma naiveAutocomplete_sound_witness :
  ∃ g', naiveAutocompleteBoard (of_board [[Red; Grey]; [Grey; Grey]]) = of_board g' ∧
        extends g' [[Red; Blue]; [Blue; Red]].
Proof.
  apply (proj2 naiveAutocomplete_sound [[Red; Grey]; [Grey; Grey]]
           [[Red; Blue]; [Blue; Red]]).
  - by repeat constructor.
  - exact extends_two_by_two.
  - exact solution_two_by_two.
Defined.

Lemma findMoveByNegation_forced_witness :
  ∃ fm, findMoveByNegation (of_board [[Red; Grey]; [Grey; Grey]]) = Ok (Some fm) ∧
    cell [[Red; Blue]; [Blue; Red]] (row fm.1) (column fm.1) = Some (color fm.1).
Proof.
  eexists. split; [vm_compute; reflexivity|].
  apply (findMoveByNegation_forced [[Red; Grey]; [Grey; Grey]]).
  - by repeat constructor.
  - exact extends_two_by_two.
  - exact solution_two_by_two.
  - vm_compute. reflexivity.
Defined.

Lemma trySolveByNegation_sound_witness :
  ∃ res, trySolveByNegation 5 (of_board [[Red; Grey]; [Grey; Grey]]) = Some (Ok res) ∧
    unexpectedViolation res = None ∧
    Forall (λ fm, cell [[Red; Blue]; [Blue; Red]] (row fm.1) (column fm.1)
                  = Some (color fm.1)) (resultMoves res) ∧
    board res = of_board (play_all [[Red; Grey]; [Grey; Grey]] (fst <$> resultMoves res)) ∧
    extends (play_all [[Red; Grey]; [Grey; Grey]] (fst <$> resultMoves res))
      [[Red; Blue]; [Blue; Red]].
Proof.
  eexists. split; [vm_compute; reflexivity|].
  apply (trySolveByNegation_sound [[Red; Grey]; [Grey; Grey]] [[Red; Blue]; [Blue; Red]] 5).
  - by repeat constructor.
  - exact extends_two_by_two.
  - exact solution_two_by_two.
  - vm_compute. reflexivity.
Defined.
